(** * Survey Inspired Decimation: the solver core of [src/Solver.cpp]

    A shallow embedding of [sat::Solver] (survey propagation, the
    sub-product cache, bias evaluation, decimation and the unit-propagating
    simplifier) together with the properties its specification states.

    Modelling conventions.
    - Pointers ([Edge*], [Variable*], [Clause*]) are indices into the three
      arenas of the factor graph; a dangling index reads a disabled dummy.
    - A C++ [double] is a rational extended with the IEEE special values
      [+inf], [-inf] and [NaN].  Arithmetic on finite values is exact:
      rounding and the sign of zero are not modelled.  Division by a zero
      divisor yields an infinity or [NaN] as on the hardware, so a division
      by zero is visible in the model as a non-finite result.
    - [int] counters are integers in [Z].
    - [std::cout] is a list of emitted messages. *)

From Stdlib Require Import QArith Qabs ZArith Bool Lia Lqa.
From stdpp Require Import base list.

Local Open Scope Q_scope.

(** ** Doubles *)

Module Dbl.

Inductive dbl : Type :=
| Fin (q : Q)
| PInf
| NInf
| NaN.

Definition Qltb (a b : Q) : bool := negb (Qle_bool b a).

Definition zero : dbl := Fin 0.
Definition one : dbl := Fin 1.

Definition of_Z (z : Z) : dbl := Fin (inject_Z z).

Definition is_nan (x : dbl) : bool :=
  match x with NaN => true | _ => false end.

(** Membership in the half-open unit interval. *)
Definition in01 (x : dbl) : bool :=
  match x with
  | Fin q => Qle_bool 0 q && Qltb q 1
  | _ => false
  end.

(** Sign of a non-NaN value, with zero reported as [Eq]. *)
Definition sgn (x : dbl) : comparison :=
  match x with
  | Fin q => q ?= 0
  | PInf => Gt
  | NInf => Lt
  | NaN => Eq
  end.

Definition of_sgn (c : comparison) : dbl :=
  match c with Gt => PInf | Lt => NInf | Eq => NaN end.

Definition mul_sgn (a b : comparison) : comparison :=
  match a, b with
  | Eq, _ | _, Eq => Eq
  | Gt, c => c
  | Lt, c => CompOpp c
  end.

Definition opp (x : dbl) : dbl :=
  match x with
  | Fin q => Fin (- q)
  | PInf => NInf
  | NInf => PInf
  | NaN => NaN
  end.

Definition add (x y : dbl) : dbl :=
  match x, y with
  | NaN, _ | _, NaN => NaN
  | Fin a, Fin b => Fin (a + b)
  | PInf, NInf | NInf, PInf => NaN
  | PInf, _ | _, PInf => PInf
  | NInf, _ | _, NInf => NInf
  end.

Definition sub (x y : dbl) : dbl := add x (opp y).

Definition mul (x y : dbl) : dbl :=
  match x, y with
  | NaN, _ | _, NaN => NaN
  | Fin a, Fin b => Fin (a * b)
  | _, _ => of_sgn (mul_sgn (sgn x) (sgn y))
  end.

(** [x / y]; a zero divisor counts as [+0]. *)
Definition div (x y : dbl) : dbl :=
  match x, y with
  | NaN, _ | _, NaN => NaN
  | Fin a, Fin b =>
      if Qeq_bool b 0 then of_sgn (a ?= 0) else Fin (a / b)
  | Fin _, _ => Fin 0
  | _, Fin b => if Qltb b 0 then opp x else x
  | _, _ => NaN
  end.

Definition ltb (x y : dbl) : bool :=
  match x, y with
  | NaN, _ | _, NaN => false
  | Fin a, Fin b => Qltb a b
  | NInf, NInf => false
  | NInf, _ => true
  | _, NInf => false
  | PInf, _ => false
  | _, PInf => true
  end.

Definition gtb (x y : dbl) : bool := ltb y x.

Definition leb (x y : dbl) : bool :=
  match x, y with
  | NaN, _ | _, NaN => false
  | Fin a, Fin b => Qle_bool a b
  | NInf, _ => true
  | _, PInf => true
  | _, _ => false
  end.

Definition abs (x : dbl) : dbl :=
  match x with
  | Fin q => Fin (Qabs q)
  | PInf | NInf => PInf
  | NaN => NaN
  end.

(** The conversion [(int) x]: truncation toward zero, undefined (here
    [None]) on a non-finite value and outside the range of a 32-bit [int]. *)
Definition to_int (x : dbl) : option Z :=
  match x with
  | Fin q =>
      let z := Z.quot (Qnum q) (Z.pos (Qden q)) in
      if ((- 2147483648 <=? z) && (z <=? 2147483647))%Z then Some z else None
  | _ => None
  end.

(** Same value: finite values are compared as rationals. *)
Definition eqv (x y : dbl) : Prop :=
  match x, y with
  | Fin a, Fin b => a == b
  | PInf, PInf | NInf, NInf | NaN, NaN => True
  | _, _ => False
  end.

Definition eqb (x y : dbl) : bool :=
  match x, y with
  | Fin a, Fin b => Qeq_bool a b
  | PInf, PInf | NInf, NInf | NaN, NaN => true
  | _, _ => false
  end.

End Dbl.

Import Dbl.

Declare Scope dbl_scope.
Delimit Scope dbl_scope with D.
Bind Scope dbl_scope with dbl.
Infix "+" := Dbl.add : dbl_scope.
Infix "-" := Dbl.sub : dbl_scope.
Infix "*" := Dbl.mul : dbl_scope.
Infix "/" := Dbl.div : dbl_scope.
Infix "<?" := Dbl.ltb : dbl_scope.
Infix ">?" := Dbl.gtb (at level 70) : dbl_scope.
Infix "<=?" := Dbl.leb : dbl_scope.
Infix "≈" := Dbl.eqv (at level 70) : dbl_scope.

(** ** The factor graph *)

(** The classes [Edge], [Variable] and [Clause] are declared in a header
    that is not part of the sources; the records hold the members that
    [Solver.cpp] reads and writes. *)

Module Edge.
Record t : Type := mk {
  type : bool;
  enabled : bool;
  survey : dbl;
  variable : nat;
  clause : nat
}.
Definition dummy : t := mk false false zero 0 0.
(** Modelled from the spec: [Edge::Dissable] is not part of the sources; the
    specification says that it marks the edge disabled. *)
Definition Dissable (e : t) : t :=
  mk (type e) false (survey e) (variable e) (clause e).
Definition set_survey (s : dbl) (e : t) : t :=
  mk (type e) (enabled e) s (variable e) (clause e).
End Edge.

Module Var.
Record t : Type := mk {
  id : nat;
  assigned : bool;
  value : bool;
  p : dbl;
  m : dbl;
  pzero : Z;
  mzero : Z;
  Hp : dbl;
  Hm : dbl;
  Hz : dbl;
  evalValue : dbl;
  allNeighbourEdges : list nat
}.
Definition dummy : t :=
  mk 0 true false one one 0 0 zero zero zero zero [].
Definition set_cache (p' m' : dbl) (pzero' mzero' : Z) (v : t) : t :=
  mk (id v) (assigned v) (value v) p' m' pzero' mzero'
     (Hp v) (Hm v) (Hz v) (evalValue v) (allNeighbourEdges v).
Definition set_p (x : dbl) (v : t) : t :=
  set_cache x (m v) (pzero v) (mzero v) v.
Definition set_m (x : dbl) (v : t) : t :=
  set_cache (p v) x (pzero v) (mzero v) v.
Definition set_pzero (z : Z) (v : t) : t :=
  set_cache (p v) (m v) z (mzero v) v.
Definition set_mzero (z : Z) (v : t) : t :=
  set_cache (p v) (m v) (pzero v) z v.
Definition set_bias (hp hm hz ev : dbl) (v : t) : t :=
  mk (id v) (assigned v) (value v) (p v) (m v) (pzero v) (mzero v)
     hp hm hz ev (allNeighbourEdges v).
(** Modelled from the spec: [Variable::AssignValue] is declared in a header
    that is not part of the sources; the specification says that it records
    the assignment. *)
Definition AssignValue (b : bool) (v : t) : t :=
  mk (id v) true b (p v) (m v) (pzero v) (mzero v)
     (Hp v) (Hm v) (Hz v) (evalValue v) (allNeighbourEdges v).
End Var.

Module Clause.
Record t : Type := mk {
  id : nat;
  enabled : bool;
  allNeighbourEdges : list nat
}.
Definition dummy : t := mk 0 false [].
Definition set_enabled (b : bool) (c : t) : t :=
  mk (id c) b (allNeighbourEdges c).
End Clause.

Record FactorGraph : Type := mkFG {
  variables : list Var.t;
  clauses : list Clause.t;
  edges : list Edge.t
}.

Definition getEdge (g : FactorGraph) (e : nat) : Edge.t :=
  default Edge.dummy (edges g !! e).
Definition getVar (g : FactorGraph) (v : nat) : Var.t :=
  default Var.dummy (variables g !! v).
Definition getClause (g : FactorGraph) (c : nat) : Clause.t :=
  default Clause.dummy (clauses g !! c).

Definition updEdge (f : Edge.t → Edge.t) (e : nat) (g : FactorGraph)
  : FactorGraph :=
  mkFG (variables g) (clauses g) (alter f e (edges g)).
Definition updVar (f : Var.t → Var.t) (v : nat) (g : FactorGraph)
  : FactorGraph :=
  mkFG (alter f v (variables g)) (clauses g) (edges g).
Definition updClause (f : Clause.t → Clause.t) (c : nat) (g : FactorGraph)
  : FactorGraph :=
  mkFG (variables g) (alter f c (clauses g)) (edges g).

(** Constants and tunables that live in the missing header [Solver.hpp]. *)
Record Params : Type := mkParams {
  ZERO_EPSILON : dbl;
  spMaxIt : Z;
  spEpsilon : dbl;
  paramagneticState : dbl;
  (** whether [Clause::Dissable] also clears the enabled flag of the
      clause's edges *)
  clauseDissableClearsEdges : bool
}.

Definition nz (z : Z) : bool := negb (z =? 0)%Z.

(** ** [Solver::computeSubProducts] *)

(** One iteration of the loop over [var->allNeighbourEdges]. *)
Definition subProductStep (P : Params) (g : FactorGraph)
    (var : Var.t) (e : nat) : Var.t :=
  let edge := getEdge g e in
  if Edge.enabled edge then
    if Edge.type edge then
      if (one - Edge.survey edge >? ZERO_EPSILON P)%D
      then Var.set_p (Var.p var * (one - Edge.survey edge))%D var
      else Var.set_pzero (Var.pzero var + 1)%Z var
    else
      if (one - Edge.survey edge >? ZERO_EPSILON P)%D
      then Var.set_m (Var.m var * (one - Edge.survey edge))%D var
      else Var.set_mzero (Var.mzero var + 1)%Z var
  else var.

Definition recomputeVar (P : Params) (g : FactorGraph) (var : Var.t) : Var.t :=
  fold_left (subProductStep P g) (Var.allNeighbourEdges var)
            (Var.set_cache one one 0 0 var).

Definition computeSubProducts (P : Params) (g : FactorGraph) : FactorGraph :=
  mkFG (map (fun var => if Var.assigned var then var else recomputeVar P g var)
            (variables g))
       (clauses g) (edges g).

(** ** Invariant I1 of the sub-product cache *)

Definition qval (x : dbl) : Q :=
  match x with Fin q => q | _ => 0 end.

(** An edge counts on side [t] of its variable when it is enabled and has
    polarity [t]. *)
Definition onSide (g : FactorGraph) (t : bool) (e : nat) : bool :=
  Edge.enabled (getEdge g e) && Bool.eqb (Edge.type (getEdge g e)) t.

(** The test [1.0 - survey > ZERO_EPSILON]. *)
Definition unsaturated (P : Params) (s : dbl) : bool :=
  (one - s >? ZERO_EPSILON P)%D.

(** The factors [1 - survey] of the unsaturated edges of side [t] among
    [es], and the saturated edges of that side. *)
Definition factorsOf (P : Params) (g : FactorGraph) (t : bool)
    (es : list nat) : list Q :=
  map (fun e => 1 - qval (Edge.survey (getEdge g e)))
      (List.filter (fun e => onSide g t e
                             && unsaturated P (Edge.survey (getEdge g e)))
                   es).

Definition saturatedOf (P : Params) (g : FactorGraph) (t : bool)
    (es : list nat) : list nat :=
  List.filter (fun e => onSide g t e
                        && negb (unsaturated P (Edge.survey (getEdge g e))))
              es.

Definition Qprod (l : list Q) : Q := fold_right Qmult 1 l.

(** One side of the cache agrees with the edges [es]. *)
Definition sideOK (P : Params) (g : FactorGraph) (t : bool) (x : dbl)
    (z : Z) (es : list nat) : Prop :=
  (x ≈ Fin (Qprod (factorsOf P g t es)))%D
  ∧ z = Z.of_nat (length (saturatedOf P g t es)).

(** Invariant I1 for the variable [v], in the words of the specification:
    [p] is the product of [1 - survey] over the enabled positive edges with
    [1 - survey > ZERO_EPSILON], [pzero] is the number of the other enabled
    positive edges, and the same for [m] and [mzero] on the negative
    side.  As in the code, an edge counts as saturated when the test
    [1 - survey > ZERO_EPSILON] fails, which includes a survey that is not
    a number. *)
Definition I1 (P : Params) (g : FactorGraph) (v : nat) : Prop :=
  let var := getVar g v in
  sideOK P g true (Var.p var) (Var.pzero var) (Var.allNeighbourEdges var)
  ∧ sideOK P g false (Var.m var) (Var.mzero var) (Var.allNeighbourEdges var).

(** The four cached fields of two variables agree. *)
Definition cacheEq (a b : Var.t) : Prop :=
  (Var.p a ≈ Var.p b)%D ∧ Var.pzero a = Var.pzero b
  ∧ (Var.m a ≈ Var.m b)%D ∧ Var.mzero a = Var.mzero b.

(** Not negative: a finite value from 0 on, [+inf], or not a number. *)
Definition nonneg (x : dbl) : Prop :=
  match x with
  | Fin q => 0 <= q
  | NInf => False
  | _ => True
  end.

(** ** [updateSurveys] *)

(** The weights [(wn, wt)] of one enabled edge, lines 200-227. *)
Definition subSurveyWeights (P : Params) (var : Var.t) (edge : Edge.t)
  : dbl * dbl :=
  if Edge.type edge then
    let m := if nz (Var.mzero var) then zero else Var.m var in
    let p :=
      if (Var.pzero var =? 0)%Z then (Var.p var / (one - Edge.survey edge))%D
      else if (Var.pzero var =? 1)%Z
              && (one - Edge.survey edge <? ZERO_EPSILON P)%D
           then Var.p var
           else zero in
    ((p * (one - m))%D, m)
  else
    let p := if nz (Var.pzero var) then zero else Var.p var in
    let m :=
      if (Var.mzero var =? 0)%Z then (Var.m var / (one - Edge.survey edge))%D
      else if (Var.mzero var =? 1)%Z
              && (one - Edge.survey edge <? ZERO_EPSILON P)%D
           then Var.m var
           else zero in
    ((m * (one - p))%D, m).

(** The weights in the words of the specification: the negative case is
    the mirror image of the positive one, with [wt] the product of the
    other side. *)
Definition subSurveyWeightsSpec (P : Params) (var : Var.t) (edge : Edge.t)
  : dbl * dbl :=
  if Edge.type edge then subSurveyWeights P var edge
  else
    let p := if nz (Var.pzero var) then zero else Var.p var in
    let m :=
      if (Var.mzero var =? 0)%Z then (Var.m var / (one - Edge.survey edge))%D
      else if (Var.mzero var =? 1)%Z
              && (one - Edge.survey edge <? ZERO_EPSILON P)%D
           then Var.m var
           else zero in
    ((m * (one - p))%D, p).

Definition subSurveyOf (P : Params) (var : Var.t) (edge : Edge.t) : dbl :=
  let '(wn, wt) := subSurveyWeights P var edge in
  (wn / (wn + wt))%D.

(** The locals [zeros], [allSubSurveys] and [subSurveys] of the first loop. *)
Record SubSurveys : Type := mkSubSurveys {
  zeros : Z;
  allSubSurveys : dbl;
  subSurveys : list dbl
}.

Definition collectStep (P : Params) (g : FactorGraph)
    (acc : SubSurveys) (e : nat) : SubSurveys :=
  let edge := getEdge g e in
  if Edge.enabled edge then
    let var := getVar g (Edge.variable edge) in
    let subSurvey := subSurveyOf P var edge in
    let subs := subSurveys acc ++ [subSurvey] in
    if (subSurvey <? ZERO_EPSILON P)%D
    then mkSubSurveys (zeros acc + 1)%Z (allSubSurveys acc) subs
    else mkSubSurveys (zeros acc) (allSubSurveys acc * subSurvey)%D subs
  else acc.

Definition collectSubSurveys (P : Params) (g : FactorGraph) (c : nat)
  : SubSurveys :=
  fold_left (collectStep P g) (Clause.allNeighbourEdges (getClause g c))
            (mkSubSurveys 0 one []).

(** The new survey of the [i]-th enabled edge, lines 250-259. *)
Definition newSurveyOf (P : Params) (acc : SubSurveys) (i : nat) : dbl :=
  let s := default NaN (subSurveys acc !! i) in
  if (zeros acc =? 0)%Z then (allSubSurveys acc / s)%D
  else if (zeros acc =? 1)%Z && (s <? ZERO_EPSILON P)%D then allSubSurveys acc
  else zero.

(** The four-case patch of the cached sub-product, lines 264-312. *)
Definition patchSubProduct (P : Params) (ty : bool) (old new : dbl)
    (var : Var.t) : Var.t :=
  if ty then
    if (one - old >? ZERO_EPSILON P)%D then
      if (one - new >? ZERO_EPSILON P)%D
      then Var.set_p (Var.p var * ((one - new) / (one - old)))%D var
      else Var.set_pzero (Var.pzero var + 1)%Z
             (Var.set_p (Var.p var / (one - old))%D var)
    else
      if (one - new >? ZERO_EPSILON P)%D
      then Var.set_pzero (Var.pzero var - 1)%Z
             (Var.set_p (Var.p var * (one - new))%D var)
      else var
  else
    if (one - old >? ZERO_EPSILON P)%D then
      if (one - new >? ZERO_EPSILON P)%D
      then Var.set_m (Var.m var * ((one - new) / (one - old)))%D var
      else Var.set_mzero (Var.mzero var + 1)%Z
             (Var.set_m (Var.m var / (one - old))%D var)
    else
      if (one - new >? ZERO_EPSILON P)%D
      then Var.set_mzero (Var.mzero var - 1)%Z
             (Var.set_m (Var.m var * (one - new))%D var)
      else var.

(** What the patch does to the product and the counter of the side it
    touches. *)
Definition patchSide (P : Params) (old new : dbl) (x : dbl) (z : Z)
  : dbl * Z :=
  if unsaturated P old then
    if unsaturated P new then ((x * ((one - new) / (one - old)))%D, z)
    else ((x / (one - old))%D, (z + 1)%Z)
  else
    if unsaturated P new then ((x * (one - new))%D, (z - 1)%Z)
    else (x, z).

(** The state of the second loop: the graph, the index [i] and
    [maxConvDiffInClause]. *)
Record WriteBack : Type := mkWriteBack {
  wb_graph : FactorGraph;
  wb_i : nat;
  wb_max : dbl
}.

Definition writeBackStep (P : Params) (acc : SubSurveys)
    (st : WriteBack) (e : nat) : WriteBack :=
  let g := wb_graph st in
  let edge := getEdge g e in
  if Edge.enabled edge then
    let newSurvey := newSurveyOf P acc (wb_i st) in
    let g1 := updVar (patchSubProduct P (Edge.type edge) (Edge.survey edge)
                        newSurvey) (Edge.variable edge) g in
    let edgeConvDiff := Dbl.abs (Edge.survey edge - newSurvey)%D in
    let mx := if (edgeConvDiff >? wb_max st)%D then edgeConvDiff
              else wb_max st in
    mkWriteBack (updEdge (Edge.set_survey newSurvey) e g1) (S (wb_i st)) mx
  else st.

Definition updateSurveys (P : Params) (g : FactorGraph) (c : nat)
  : dbl * FactorGraph :=
  let acc := collectSubSurveys P g c in
  let st := fold_left (writeBackStep P acc)
              (Clause.allNeighbourEdges (getClause g c))
              (mkWriteBack g 0 zero) in
  (wb_max st, wb_graph st).

(** ** [Solver::evaluateVar] *)

(** The biases before normalisation, lines 380-385, as [(Hp, Hm, Hz)]. *)
Definition rawBias (var : Var.t) : dbl * dbl * dbl :=
  let p := if nz (Var.pzero var) then zero else Var.p var in
  let m := if nz (Var.mzero var) then zero else Var.m var in
  let Hz := (p * m)%D in
  ((m - Hz)%D, (p - Hz)%D, Hz).

(** The normaliser [sum] of line 388. *)
Definition biasSum (var : Var.t) : dbl :=
  let '(Hp, Hm, Hz) := rawBias var in
  (Hm + Hz + Hp)%D.

Definition evaluateVar (var : Var.t) : Var.t :=
  let '(Hp, Hm, Hz) := rawBias var in
  let sum := biasSum var in
  let Hz := (Hz / sum)%D in
  let Hp := (Hp / sum)%D in
  let Hm := (Hm / sum)%D in
  Var.set_bias Hp Hm Hz (Dbl.abs (Hp - Hm)%D) var.

(** ** The random source *)

(** The Mersenne twister, [std::shuffle] and the two distributions are
    library code; the solver only needs their interface. *)
Class RandomGenerator (G : Type) : Type := {
  (** [randomGenerator.seed(s)] *)
  rng_seed : Z → G;
  (** [shuffle(first, last, randomGenerator)] on a vector of clauses *)
  rng_shuffle : list nat → G → list nat * G;
  (** [getRandomReal01()] *)
  getRandomReal01 : G → dbl * G
}.

Inductive AlgorithmResult : Type :=
| SAT | CONTRADICTION | UNCONVERGE | CONVERGE | WALKSAT.

Definition AlgorithmResult_eqb (a b : AlgorithmResult) : bool :=
  match a, b with
  | SAT, SAT | CONTRADICTION, CONTRADICTION | UNCONVERGE, UNCONVERGE
  | CONVERGE, CONVERGE | WALKSAT, WALKSAT => true
  | _, _ => false
  end.

(** ** [Solver::surveyPropagation] *)

(** Modelled from the spec: [FactorGraph::GetEnabledClauses] is not part of
    the sources; it enumerates the currently enabled clauses. *)
Definition GetEnabledClauses (g : FactorGraph) : list nat :=
  List.filter (fun c => Clause.enabled (getClause g c))
              (seq 0 (length (clauses g))).

(** The body of the loop over [enabledClauses], lines 125-131; the state is
    the graph and [maxConvergeDiff]. *)
Definition sweepStep (P : Params) (st : FactorGraph * dbl) (c : nat)
  : FactorGraph * dbl :=
  let '(maxConvDiffInClause, g') := updateSurveys P (fst st) c in
  (g', if (maxConvDiffInClause >? snd st)%D then maxConvDiffInClause
       else snd st).

Definition sweep (P : Params) (enabledClauses : list nat)
    (g : FactorGraph) (maxConvergeDiff : dbl) : FactorGraph * dbl :=
  fold_left (sweepStep P) enabledClauses (g, maxConvergeDiff).

(** The [for] loop of lines 119-145 with [n] iterations left. *)
Fixpoint spLoop {G} `{RandomGenerator G} (P : Params) (n : nat)
    (g : FactorGraph) (rng : G) (maxConvergeDiff : dbl)
  : AlgorithmResult * FactorGraph * G :=
  match n with
  | O => (UNCONVERGE, g, rng)
  | S n' =>
      let '(enabledClauses, rng') := rng_shuffle (GetEnabledClauses g) rng in
      let '(g', maxConvergeDiff') := sweep P enabledClauses g maxConvergeDiff in
      if (maxConvergeDiff' <=? spEpsilon P)%D then
        if (maxConvergeDiff' <? ZERO_EPSILON P)%D
        then (WALKSAT, g', rng')
        else (CONVERGE, g', rng')
      else spLoop P n' g' rng' maxConvergeDiff'
  end.

Definition surveyPropagation {G} `{RandomGenerator G} (P : Params)
    (g : FactorGraph) (rng : G) : AlgorithmResult * FactorGraph * G :=
  spLoop P (Z.to_nat (spMaxIt P)) (computeSubProducts P g) rng zero.

(** The state [(graph, generator, maxConvergeDiff)] in which the loop
    stands after [k] sweeps none of which made it return. *)
Fixpoint afterSweeps {G} `{RandomGenerator G} (P : Params) (k : nat)
    (g : FactorGraph) (rng : G) (maxConvergeDiff : dbl)
  : FactorGraph * G * dbl :=
  match k with
  | O => (g, rng, maxConvergeDiff)
  | S k' =>
      let '(enabledClauses, rng') := rng_shuffle (GetEnabledClauses g) rng in
      let '(g', maxConvergeDiff') := sweep P enabledClauses g maxConvergeDiff in
      afterSweeps P k' g' rng' maxConvergeDiff'
  end.

(** The test of line 134 on such a state, and the result returned when it
    succeeds. *)
Definition thresholdMet {G} (P : Params) (st : FactorGraph * G * dbl) : bool :=
  (snd st <=? spEpsilon P)%D.

Definition verdict (P : Params) (maxConvergeDiff : dbl) : AlgorithmResult :=
  if (maxConvergeDiff <? ZERO_EPSILON P)%D then WALKSAT else CONVERGE.

(** ** The simplifier: [assignVariable], [cleanGraph], [unitPropagation] *)

(** What the simplifier writes to [cout]. *)
Inductive Msg : Type :=
| ErrOppositeValue (var_id : nat)
| ErrEmptyClause (clause_id : nat)
| PrintGraph.

(** The graph together with the output written so far. *)
Record World : Type := mkWorld {
  fg : FactorGraph;
  cout : list Msg
}.

Definition say (msg : Msg) (w : World) : World :=
  mkWorld (fg w) (cout w ++ [msg]).

Definition onGraph (f : FactorGraph → FactorGraph) (w : World) : World :=
  mkWorld (f (fg w)) (cout w).

(** Modelled from the spec: [Clause::GetEnabledEdges] is not part of the
    sources; it enumerates the enabled edges of the clause. *)
Definition GetEnabledEdges (g : FactorGraph) (c : nat) : list nat :=
  List.filter (fun e => Edge.enabled (getEdge g e))
              (Clause.allNeighbourEdges (getClause g c)).

(** Modelled from the spec: [Clause::Dissable] is not part of the sources;
    it marks the clause disabled.  Whether it also clears its edges is left
    open by the specification and is a parameter here. *)
Definition ClauseDissable (P : Params) (c : nat) (g : FactorGraph)
  : FactorGraph :=
  let g1 := updClause (Clause.set_enabled false) c g in
  if clauseDissableClearsEdges P
  then fold_left (fun g' e => updEdge Edge.Dissable e g')
                 (Clause.allNeighbourEdges (getClause g c)) g1
  else g1.

Definition Assign : Type := World → nat → bool → option (bool * World).

Definition unitPropagation_ (assign : Assign) (w : World) (c : nat)
  : option (bool * World) :=
  let enabledEdges := GetEnabledEdges (fg w) c in
  match enabledEdges with
  | [] => Some (false, say (ErrEmptyClause (Clause.id (getClause (fg w) c))) w)
  | [e] =>
      let edge := getEdge (fg w) e in
      assign w (Edge.variable edge) (Edge.type edge)
  | _ => Some (true, w)
  end.

(** The loop of [cleanGraph] over the remaining edges [es] of [var]. *)
Fixpoint cleanGraph_ (P : Params) (assign : Assign) (es : list nat)
    (w : World) (var : nat) : option (bool * World) :=
  match es with
  | [] => Some (true, w)
  | e :: es' =>
      let edge := getEdge (fg w) e in
      if Edge.enabled edge then
        if Bool.eqb (Edge.type edge) (Var.value (getVar (fg w) var)) then
          cleanGraph_ P assign es'
            (onGraph (ClauseDissable P (Edge.clause edge)) w) var
        else
          let w1 := onGraph (updEdge Edge.Dissable e) w in
          match unitPropagation_ assign w1 (Edge.clause edge) with
          | None => None
          | Some (false, w2) => Some (false, w2)
          | Some (true, w2) => cleanGraph_ P assign es' w2 var
          end
      else cleanGraph_ P assign es' w var
  end.

(** [fuel] bounds the depth of the recursion
    [assignVariable -> cleanGraph -> unitPropagation -> assignVariable];
    [None] means that the bound was hit. *)
Fixpoint assignVariable (P : Params) (fuel : nat) (w : World) (var : nat)
    (value : bool) : option (bool * World) :=
  match fuel with
  | O => None
  | S fuel' =>
      let v := getVar (fg w) var in
      if Var.assigned v && negb (Bool.eqb (Var.value v) value) then
        Some (false, say (ErrOppositeValue (Var.id v)) w)
      else
        cleanGraph_ P (assignVariable P fuel') (Var.allNeighbourEdges v)
          (onGraph (updVar (Var.AssignValue value) var) w) var
  end.

Definition cleanGraph (P : Params) (fuel : nat) (w : World) (var : nat)
  : option (bool * World) :=
  cleanGraph_ P (assignVariable P fuel)
    (Var.allNeighbourEdges (getVar (fg w) var)) w var.

Definition unitPropagation (P : Params) (fuel : nat) (w : World) (c : nat)
  : option (bool * World) :=
  unitPropagation_ (assignVariable P fuel) w c.

(** What a terminating sub-call leaves: a result and no more enabled
    edges than before. *)
Definition terminates (bound : nat) (assign : Assign) : Prop :=
  ∀ w v b, (length (List.filter Edge.enabled (edges (fg w))) < bound)%nat →
    ∃ r w', assign w v b = Some (r, w')
            ∧ (length (List.filter Edge.enabled (edges (fg w')))
               <= length (List.filter Edge.enabled (edges (fg w))))%nat.

(** The number of enabled edges: it bounds the recursion. *)
Definition enabledCount (g : FactorGraph) : nat :=
  length (List.filter Edge.enabled (edges g)).

(** ** Well-formed graphs and what the simplifier preserves *)

(** The back pointers of an edge agree with the lists that hold it, every
    listed edge exists, and no list of a variable holds an edge twice. *)
Definition wellFormed (g : FactorGraph) : Prop :=
  (∀ v e, e ∈ Var.allNeighbourEdges (getVar g v) →
     (e < length (edges g))%nat ∧ Edge.variable (getEdge g e) = v)
  ∧ (∀ c e, e ∈ Clause.allNeighbourEdges (getClause g c) →
       (e < length (edges g))%nat ∧ Edge.clause (getEdge g e) = c)
  ∧ (∀ v, NoDup (Var.allNeighbourEdges (getVar g v)))
  ∧ (∀ e, (e < length (edges g))%nat →
       e ∈ Var.allNeighbourEdges (getVar g (Edge.variable (getEdge g e)))
       ∧ e ∈ Clause.allNeighbourEdges (getClause g (Edge.clause (getEdge g e)))).

(** Same arenas, same lists, same literals. *)
Definition sameShape (g g' : FactorGraph) : Prop :=
  length (variables g') = length (variables g)
  ∧ length (clauses g') = length (clauses g)
  ∧ length (edges g') = length (edges g)
  ∧ (∀ v, Var.allNeighbourEdges (getVar g' v)
          = Var.allNeighbourEdges (getVar g v))
  ∧ (∀ c, Clause.allNeighbourEdges (getClause g' c)
          = Clause.allNeighbourEdges (getClause g c))
  ∧ (∀ e, Edge.type (getEdge g' e) = Edge.type (getEdge g e)
          ∧ Edge.variable (getEdge g' e) = Edge.variable (getEdge g e)
          ∧ Edge.clause (getEdge g' e) = Edge.clause (getEdge g e)).

(** How the simplifier moves from [g] to [g']: disabled clauses stay
    disabled, assigned variables keep their value, and an edge is disabled
    only when its clause is disabled or its literal is false. *)
Definition simplifies (g g' : FactorGraph) : Prop :=
  sameShape g g'
  ∧ (∀ c, Clause.enabled (getClause g c) = false →
          Clause.enabled (getClause g' c) = false)
  ∧ (∀ v, Var.assigned (getVar g v) = true →
          Var.assigned (getVar g' v) = true
          ∧ Var.value (getVar g' v) = Var.value (getVar g v))
  ∧ (∀ e, Edge.enabled (getEdge g e) = true →
          Edge.enabled (getEdge g' e) = false →
          Clause.enabled (getClause g' (Edge.clause (getEdge g e))) = false
          ∨ (Var.assigned (getVar g' (Edge.variable (getEdge g e))) = true
             ∧ Var.value (getVar g' (Edge.variable (getEdge g e)))
               ≠ Edge.type (getEdge g e))).

Definition isError (msg : Msg) : bool :=
  match msg with
  | ErrOppositeValue _ | ErrEmptyClause _ => true
  | PrintGraph => false
  end.

(** No survey is negative. *)
Definition surveysNonneg (g : FactorGraph) : Prop :=
  ∀ e, nonneg (Edge.survey (getEdge g e)).

(** The enabled edges of an enabled clause lead to unassigned variables:
    the simplifier disables the clause of a true literal and the edge of a
    false one. *)
Definition liveEdgesUnassigned (g : FactorGraph) : Prop :=
  ∀ c e, Clause.enabled (getClause g c) = true →
    e ∈ Clause.allNeighbourEdges (getClause g c) →
    Edge.enabled (getEdge g e) = true →
    Var.assigned (getVar g (Edge.variable (getEdge g e))) = false.

(** What survey propagation maintains between two clause updates. *)
Definition spInvariant (P : Params) (g : FactorGraph) : Prop :=
  wellFormed g ∧ surveysNonneg g ∧ liveEdgesUnassigned g
  ∧ ∀ v, Var.assigned (getVar g v) = false → I1 P g v.

(** What a call adds to [cout]: nothing when it returns [true], one error
    message when it returns [false]. *)
Definition coutGrows (r : bool) (w w' : World) : Prop :=
  if r then cout w' = cout w
  else ∃ msg, cout w' = cout w ++ [msg] ∧ isError msg = true.

Definition sound (assign : Assign) : Prop :=
  ∀ w v b r w', wellFormed (fg w) → assign w v b = Some (r, w') →
    simplifies (fg w) (fg w') ∧ coutGrows r w w'.

(** A decision procedure for [wellFormed]. *)
Definition wellFormedb (g : FactorGraph) : bool :=
  forallb (fun v =>
             forallb (fun e => (e <? length (edges g))%nat
                               && (Edge.variable (getEdge g e) =? v)%nat)
                     (Var.allNeighbourEdges (getVar g v))
             && bool_decide (NoDup (Var.allNeighbourEdges (getVar g v))))
          (seq 0 (length (variables g)))
  && forallb (fun c =>
                forallb (fun e => (e <? length (edges g))%nat
                                  && (Edge.clause (getEdge g e) =? c)%nat)
                        (Clause.allNeighbourEdges (getClause g c)))
             (seq 0 (length (clauses g)))
  && forallb (fun e =>
                bool_decide
                  (e ∈ Var.allNeighbourEdges
                         (getVar g (Edge.variable (getEdge g e))))
                && bool_decide
                     (e ∈ Clause.allNeighbourEdges
                            (getClause g (Edge.clause (getEdge g e)))))
             (seq 0 (length (edges g))).

(** ** [Solver::Solver] *)

Record Solver (G : Type) : Type := mkSolver {
  initialSeed : Z;
  randomGenerator : G;
  N : Z;
  alpha : dbl;
  wsMaxFlips : Z
}.
Arguments mkSolver {G}.
Arguments initialSeed {G}.
Arguments randomGenerator {G}.
Arguments N {G}.
Arguments alpha {G}.
Arguments wsMaxFlips {G}.

(** The constructor.  [rd] is the value that [std::random_device] would
    deliver if it were asked.  The condition of line 17 is the assignment
    [seed = 0]: it stores 0 in the parameter and tests the stored value. *)
Definition Solver_new {G} `{RandomGenerator G} (N : Z) (a : dbl) (seed : Z)
    (rd : Z) : Solver G :=
  let initialSeed := seed in
  let seed := 0%Z in
  let initialSeed := if nz seed then rd else initialSeed in
  mkSolver initialSeed (rng_seed initialSeed) N a (100 * N)%Z.

(** ** [Solver::SID] *)

(** How a call of [SID] ends.  Reading [unassignedVariables[i]] past the
    end of the vector and converting a non-finite [double] to [int] are
    undefined behaviour in C++; the model stops there. *)
Inductive Outcome : Type :=
| Returned (r : AlgorithmResult)
| OutOfRange (i : nat)
| BadCast
| OutOfFuel.

Inductive Flow : Type :=
| Next (w : World)
| Stop (o : Outcome) (w : World).

(** The loop of lines 31-33. *)
Fixpoint randomizeSurveys {G} `{RandomGenerator G} (es : list Edge.t)
    (rng : G) : list Edge.t * G :=
  match es with
  | [] => ([], rng)
  | edge :: es' =>
      let '(x, rng1) := getRandomReal01 rng in
      let '(es'', rng2) := randomizeSurveys es' rng1 in
      (Edge.set_survey x edge :: es'', rng2)
  end.

(** The loop of lines 51-56. *)
Fixpoint evaluateAll (vars : list Var.t) (sumMaxBias : dbl)
  : list Var.t * dbl :=
  match vars with
  | [] => ([], sumMaxBias)
  | var :: rest =>
      if Var.assigned var then
        let '(rest', s) := evaluateAll rest sumMaxBias in (var :: rest', s)
      else
        let var' := evaluateVar var in
        let bias := if (Var.Hp var' >? Var.Hm var')%D then Var.Hp var'
                    else Var.Hm var' in
        let '(rest', s) := evaluateAll rest (sumMaxBias + bias)%D in
        (var' :: rest', s)
  end.

(** [std::sort] with the comparator of lines 70-72, as an insertion sort. *)
Definition evalValueGt (g : FactorGraph) (l r : nat) : bool :=
  (Dbl.abs (Var.evalValue (getVar g l))
   >? Dbl.abs (Var.evalValue (getVar g r)))%D.

Fixpoint insertByEvalValue (g : FactorGraph) (x : nat) (l : list nat)
  : list nat :=
  match l with
  | [] => [x]
  | y :: l' => if evalValueGt g y x then y :: insertByEvalValue g x l'
               else x :: y :: l'
  end.

Definition sortByEvalValue (g : FactorGraph) (l : list nat) : list nat :=
  foldr (insertByEvalValue g) [] l.

(** Modelled from the spec: [FactorGraph::IsSAT] is not part of the
    sources; the graph is satisfied when all clauses are disabled. *)
Definition IsSAT (g : FactorGraph) : bool :=
  forallb (fun c => negb (Clause.enabled c)) (clauses g).

(** The loop of lines 77-99.  A skipped variable decrements [i] before the
    increment of the [for] statement. *)
Fixpoint fixVariables (P : Params) (fuel : nat)
    (unassignedVariables : list nat) (assignFraction : Z) (i : Z)
    (w : World) : Flow :=
  match fuel with
  | O => Stop OutOfFuel w
  | S fuel' =>
      if (i <? assignFraction)%Z then
        match unassignedVariables !! Z.to_nat i with
        | None => Stop (OutOfRange (Z.to_nat i)) w
        | Some var =>
            if Var.assigned (getVar (fg w) var) then
              fixVariables P fuel' unassignedVariables assignFraction
                           (i - 1 + 1)%Z w
            else
              let w1 := onGraph (updVar evaluateVar var) w in
              let v := getVar (fg w1) var in
              let newValue := (Var.Hp v >? Var.Hm v)%D in
              match assignVariable P fuel' w1 var newValue with
              | None => Stop OutOfFuel w1
              | Some (false, w2) => Stop (Returned CONTRADICTION) w2
              | Some (true, w2) =>
                  fixVariables P fuel' unassignedVariables assignFraction
                               (i + 1)%Z w2
              end
        end
      else Next w
  end.

(** The [while (true)] loop of lines 36-110. *)
Fixpoint sidLoop {G} `{RandomGenerator G} (P : Params) (fuel : nat)
    (fraction : dbl) (w : World) (rng : G) : Outcome * World * G :=
  match fuel with
  | O => (OutOfFuel, w, rng)
  | S fuel' =>
      let '(spResult, g1, rng1) := surveyPropagation P (fg w) rng in
      let w1 := mkWorld g1 (cout w) in
      if negb (AlgorithmResult_eqb spResult CONVERGE)
      then (Returned spResult, w1, rng1)
      else
        let unassignedVariables : list nat := [] in
        let '(vars, sumMaxBias) := evaluateAll (variables g1) zero in
        let w2 := mkWorld (mkFG vars (clauses g1) (edges g1)) (cout w1) in
        let size := of_Z (Z.of_nat (length unassignedVariables)) in
        if (sumMaxBias / size <? paramagneticState P)%D
        then (Returned WALKSAT, w2, rng1)
        else
          match to_int (size * fraction)%D with
          | None => (BadCast, w2, rng1)
          | Some n =>
              let assignFraction := if (n <? 1)%Z then 1%Z else n in
              let sorted := sortByEvalValue (fg w2) unassignedVariables in
              match fixVariables P fuel' sorted assignFraction 0 w2 with
              | Stop o w3 => (o, w3, rng1)
              | Next w3 =>
                  let w4 := say PrintGraph w3 in
                  if IsSAT (fg w4) then (Returned SAT, w4, rng1)
                  else sidLoop P fuel' fraction w4 rng1
              end
          end
  end.

Definition SID {G} `{RandomGenerator G} (P : Params) (fuel : nat)
    (s : Solver G) (graph : FactorGraph) (fraction : dbl)
  : Outcome * World * G :=
  let '(es, rng1) := randomizeSurveys (edges graph) (randomGenerator s) in
  sidLoop P fuel fraction
          (mkWorld (mkFG (variables graph) (clauses graph) es) []) rng1.

(** ** Worked inputs *)

(** A scripted random source: the draws are a given list (a draw outside
    the unit interval is replaced by 0) and the shuffle keeps the order. *)
Definition scriptedReal01 (draws : list dbl) : dbl * list dbl :=
  match draws with
  | [] => (zero, [])
  | x :: rest => (if in01 x then x else zero, rest)
  end.

#[export] Instance scripted : RandomGenerator (list dbl) := {|
  rng_seed := fun _ => [];
  rng_shuffle := fun l rng => (l, rng);
  getRandomReal01 := scriptedReal01
|}.

(** The defaults of the specification. *)
Definition defaults (cascade : bool) : Params :=
  mkParams (Fin (1 # 10000000000000000)) 1000 (Fin (1 # 100)) (Fin (1 # 100))
           cascade.

Definition freshVar (id : nat) (es : list nat) : Var.t :=
  Var.mk id false false one one 0 0 zero zero zero zero es.

Definition literal (ty : bool) (s : dbl) (var clause : nat) : Edge.t :=
  Edge.mk ty true s var clause.

(** The generator after [n] calls of [getRandomReal01], and the value of
    the call that follows. *)
Fixpoint afterDraws {G} `{RandomGenerator G} (n : nat) (rng : G) : G :=
  match n with
  | O => rng
  | S n' => afterDraws n' (snd (getRandomReal01 rng))
  end.

Definition nthDraw {G} `{RandomGenerator G} (n : nat) (rng : G) : dbl :=
  fst (getRandomReal01 (afterDraws n rng)).

(** Clause [(x)] alone. *)
Definition unitClause (s : dbl) : FactorGraph :=
  mkFG [freshVar 0 [0%nat]] [Clause.mk 0 true [0%nat]] [literal true s 0 0].

(** Clause [(x \/ y)] alone. *)
Definition binaryClause (s0 s1 : dbl) : FactorGraph :=
  mkFG [freshVar 0 [0%nat]; freshVar 1 [1%nat]]
       [Clause.mk 0 true [0%nat; 1%nat]]
       [literal true s0 0 0; literal true s1 1 0].

(** Clauses [(~x)] and [(~x)]. *)
Definition twiceNegated (s0 s1 : dbl) : FactorGraph :=
  mkFG [freshVar 0 [0%nat; 1%nat]]
       [Clause.mk 0 true [0%nat]; Clause.mk 1 true [1%nat]]
       [literal false s0 0 0; literal false s1 0 1].

(** Clauses [(~x \/ y)] and [(~x \/ ~y)]. *)
Definition implication : FactorGraph :=
  mkFG [freshVar 0 [0%nat; 1%nat]; freshVar 1 [2%nat; 3%nat]]
       [Clause.mk 0 true [0%nat; 2%nat]; Clause.mk 1 true [1%nat; 3%nat]]
       [literal false zero 0 0; literal false zero 0 1;
        literal true zero 1 0; literal false zero 1 1].

(** Clauses [(x)] and [(~x)]. *)
Definition contradictoryUnits (s0 s1 : dbl) : FactorGraph :=
  mkFG [freshVar 0 [0%nat; 1%nat]]
       [Clause.mk 0 true [0%nat]; Clause.mk 1 true [1%nat]]
       [literal true s0 0 0; literal false s1 0 1].

Definition half : dbl := Fin (1 # 2).

(** Clauses [(~x \/ y)], [(x)] and [(~x)]. *)
Definition skewed (s0 s1 s2 s3 : dbl) : FactorGraph :=
  mkFG [freshVar 0 [0%nat; 1%nat; 2%nat]; freshVar 1 [3%nat]]
       [Clause.mk 0 true [0%nat; 3%nat]; Clause.mk 1 true [1%nat];
        Clause.mk 2 true [2%nat]]
       [literal false s0 0 0; literal true s1 0 1; literal false s2 0 2;
        literal true s3 1 0].

(** Clauses [(x)], [(x)] and [(~x)]. *)
Definition threeUnits (s0 s1 s2 : dbl) : FactorGraph :=
  mkFG [freshVar 0 [0%nat; 1%nat; 2%nat]]
       [Clause.mk 0 true [0%nat]; Clause.mk 1 true [1%nat];
        Clause.mk 2 true [2%nat]]
       [literal true s0 0 0; literal true s1 0 1; literal false s2 0 2].

(** Clauses [(~x \/ y)], [(~y \/ z)] and [(~z \/ ~y)]. *)
Definition chain : FactorGraph :=
  mkFG [freshVar 0 [0%nat]; freshVar 1 [1%nat; 2%nat; 5%nat];
        freshVar 2 [3%nat; 4%nat]]
       [Clause.mk 0 true [0%nat; 1%nat]; Clause.mk 1 true [2%nat; 3%nat];
        Clause.mk 2 true [4%nat; 5%nat]]
       [literal false zero 0 0; literal true zero 1 0; literal false zero 1 1;
        literal true zero 2 1; literal false zero 2 2; literal false zero 1 2].

(** The formula [(x)] after [x] has been assigned. *)
Definition assignedUnit : World :=
  mkWorld (mkFG [Var.mk 0 true true one one 0 0 zero zero zero zero [0%nat]]
                [Clause.mk 0 false [0%nat]] [literal true zero 0 0]) [].

(** ** Frames, probabilities and the state of a simplified graph *)

(** [g'] differs from [g] at most in the surveys of the edges and in the
    cached sub-products of the variables. *)
Definition sameButSurveys (g g' : FactorGraph) : Prop :=
  clauses g' = clauses g
  ∧ length (variables g') = length (variables g)
  ∧ length (edges g') = length (edges g)
  ∧ (∀ v, Var.set_cache one one 0 0 (getVar g' v)
          = Var.set_cache one one 0 0 (getVar g v))
  ∧ (∀ e, Edge.set_survey zero (getEdge g' e)
          = Edge.set_survey zero (getEdge g e)).

(** [g'] has the clauses, the literals, the enabled flags and the
    assignment of [g]: at most surveys, cached sub-products and biases
    differ. *)
Definition sameAssignment (g g' : FactorGraph) : Prop :=
  clauses g' = clauses g
  ∧ (∀ e, Edge.set_survey zero (getEdge g' e)
          = Edge.set_survey zero (getEdge g e))
  ∧ ∀ v, Var.assigned (getVar g' v) = Var.assigned (getVar g v)
         ∧ Var.value (getVar g' v) = Var.value (getVar g v)
         ∧ Var.id (getVar g' v) = Var.id (getVar g v)
         ∧ Var.allNeighbourEdges (getVar g' v)
           = Var.allNeighbourEdges (getVar g v).

(** The formula [(x)] with its clause and its edge disabled, [x] not
    assigned. *)
Definition clearedUnit : FactorGraph :=
  mkFG [freshVar 0 [0%nat]] [Clause.mk 0 false [0%nat]]
       [Edge.mk true false half 0 0].

(** A sub-survey below [ZERO_EPSILON] counts as 0 in the product. *)
Definition clipped (ε q : Q) : Q := if Qltb q ε then 0 else q.

(** The change [|old - new|] of the survey of edge [e] between [g] and
    [g']. *)
Definition surveyChange (g g' : FactorGraph) (e : nat) : dbl :=
  Dbl.abs (Edge.survey (getEdge g e) - Edge.survey (getEdge g' e))%D.

(** What the simplifier may change from [g] to [g']: an enabled edge or
    clause may be disabled and a variable may be assigned; nothing else
    is written and nothing is enabled again. *)
Definition onlyDisables (g g' : FactorGraph) : Prop :=
  length (variables g') = length (variables g)
  ∧ length (clauses g') = length (clauses g)
  ∧ length (edges g') = length (edges g)
  ∧ (∀ e, Edge.Dissable (getEdge g' e) = Edge.Dissable (getEdge g e)
          ∧ (Edge.enabled (getEdge g e) = false →
             Edge.enabled (getEdge g' e) = false))
  ∧ (∀ c, Clause.set_enabled false (getClause g' c)
          = Clause.set_enabled false (getClause g c)
          ∧ (Clause.enabled (getClause g c) = false →
             Clause.enabled (getClause g' c) = false))
  ∧ (∀ v, Var.AssignValue false (getVar g' v)
          = Var.AssignValue false (getVar g v)
          ∧ (Var.assigned (getVar g v) = true →
             Var.assigned (getVar g' v) = true)).

(** Clause [c] holds under the recorded assignment: one of its literals
    belongs to an assigned variable whose value is the literal's
    polarity. *)
Definition satisfied (g : FactorGraph) (c : nat) : Prop :=
  ∃ e, e ∈ Clause.allNeighbourEdges (getClause g c)
       ∧ Var.assigned (getVar g (Edge.variable (getEdge g e))) = true
       ∧ Var.value (getVar g (Edge.variable (getEdge g e)))
         = Edge.type (getEdge g e).

(** Every disabled clause holds. *)
Definition disabledSatisfied (g : FactorGraph) : Prop :=
  ∀ c, (c < length (clauses g))%nat →
       Clause.enabled (getClause g c) = false → satisfied g c.

(** Every clause disabled between [g] and [g'] holds in [g']. *)
Definition newlySatisfied (g g' : FactorGraph) : Prop :=
  ∀ c, (c < length (clauses g))%nat →
       Clause.enabled (getClause g c) = true →
       Clause.enabled (getClause g' c) = false → satisfied g' c.

(** A sub-call disables only clauses that hold afterwards. *)
Definition soundN (assign : Assign) : Prop :=
  ∀ w v b r w', wellFormed (fg w) → assign w v b = Some (r, w') →
    newlySatisfied (fg w) (fg w').

(** The enabled edges of enabled clauses that lead to an assigned variable
    are among the edges [X]. *)
Definition liveExcept (X : nat → Prop) (g : FactorGraph) : Prop :=
  ∀ c e, Clause.enabled (getClause g c) = true →
    e ∈ Clause.allNeighbourEdges (getClause g c) →
    Edge.enabled (getEdge g e) = true →
    Var.assigned (getVar g (Edge.variable (getEdge g e))) = true →
    X e.

(** A successful sub-call leaves no new live edge at an assigned
    variable. *)
Definition soundL (assign : Assign) : Prop :=
  ∀ (X : nat → Prop) w v b w', wellFormed (fg w) → liveExcept X (fg w) →
    assign w v b = Some (true, w') → liveExcept X (fg w').

(** A probability, or not a number. *)
Definition prob (x : dbl) : Prop :=
  match x with
  | Fin q => 0 <= q <= 1
  | NaN => True
  | _ => False
  end.

(** Every survey is a probability or not a number. *)
Definition surveysProb (g : FactorGraph) : Prop :=
  ∀ e, prob (Edge.survey (getEdge g e)).

(** What the first loop of [updateSurveys] maintains: the sub-surveys and
    their product are probabilities, the product is at most every
    sub-survey that it contains, and a zero counter means that no
    sub-survey is below [ZERO_EPSILON]. *)
Definition collectInv (P : Params) (acc : SubSurveys) : Prop :=
  prob (allSubSurveys acc)
  ∧ Forall prob (subSurveys acc)
  ∧ (0 <= zeros acc)%Z
  ∧ (zeros acc = 0%Z →
     Forall (fun s => (s <? ZERO_EPSILON P)%D = false) (subSurveys acc))
  ∧ Forall (fun s => (s <? ZERO_EPSILON P)%D = false →
              ∀ a q, allSubSurveys acc = Fin a → s = Fin q → a <= q)
           (subSurveys acc).

(** The literal of edge [e] is true, respectively false, under the
    recorded assignment. *)
Definition litTrue (g : FactorGraph) (e : nat) : Prop :=
  Var.assigned (getVar g (Edge.variable (getEdge g e))) = true
  ∧ Var.value (getVar g (Edge.variable (getEdge g e)))
    = Edge.type (getEdge g e).

Definition litFalse (g : FactorGraph) (e : nat) : Prop :=
  Var.assigned (getVar g (Edge.variable (getEdge g e))) = true
  ∧ Var.value (getVar g (Edge.variable (getEdge g e)))
    ≠ Edge.type (getEdge g e).

(** Clause [c] is violated: every one of its literals is false. *)
Definition falsified (g : FactorGraph) (c : nat) : Prop :=
  ∀ e, e ∈ Clause.allNeighbourEdges (getClause g c) → litFalse g e.

(** Every disabled edge is accounted for. *)
Definition edgesJustified (g : FactorGraph) : Prop :=
  ∀ e, (e < length (edges g))%nat → Edge.enabled (getEdge g e) = false →
    Clause.enabled (getClause g (Edge.clause (getEdge g e))) = false
    ∨ litFalse g e.

(** Every disabled clause has lost all its edges or holds an enabled true
    literal. *)
Definition clausesJustified (g : FactorGraph) : Prop :=
  ∀ c, (c < length (clauses g))%nat →
    Clause.enabled (getClause g c) = false →
    (∀ e, e ∈ Clause.allNeighbourEdges (getClause g c) →
          Edge.enabled (getEdge g e) = false)
    ∨ ∃ e, e ∈ Clause.allNeighbourEdges (getClause g c)
           ∧ Edge.enabled (getEdge g e) = true ∧ litTrue g e.

(** The state of a graph that the simplifier has worked on: it holds in
    particular when every edge and every clause is enabled. *)
Definition consistent (g : FactorGraph) : Prop :=
  edgesJustified g ∧ clausesJustified g.

(** Some enabled clause is violated. *)
Definition violated (g : FactorGraph) : Prop :=
  ∃ c, (c < length (clauses g))%nat
       ∧ Clause.enabled (getClause g c) = true
       ∧ falsified g c.

(** How a call that returns [false] ends when it was started in [w]: the
    call itself found its variable assigned to the opposite value and
    left the graph as it was, or some enabled clause is violated. *)
Definition conflict (w : World) (v : nat) (b : bool) (w' : World) : Prop :=
  (Var.assigned (getVar (fg w) v) = true
   ∧ Var.value (getVar (fg w) v) ≠ b ∧ fg w' = fg w)
  ∨ violated (fg w').

(** A sub-call keeps the graph consistent and explains its failures. *)
Definition soundC (assign : Assign) : Prop :=
  ∀ w v b r w', wellFormed (fg w) → consistent (fg w) →
    assign w v b = Some (r, w') →
    consistent (fg w') ∧ (r = false → conflict w v b w').

(** ** Properties *)

(** *** Doubles: finite arithmetic is rational arithmetic *)

Lemma Qltb_lt (a b : Q) : Qltb a b = true ↔ a < b.
Proof.
  unfold Qltb. rewrite negb_true_iff, <- not_true_iff_false, Qle_bool_iff.
  split; [apply Qnot_le_lt | apply Qlt_not_le].
Qed.

Lemma Qltb_ge (a b : Q) : Qltb a b = false ↔ b <= a.
Proof.
  unfold Qltb. rewrite negb_false_iff. apply Qle_bool_iff.
Qed.

Lemma Qeq_bool_false (a b : Q) : ¬ a == b → Qeq_bool a b = false.
Proof.
  intros Hne. apply not_true_iff_false. rewrite Qeq_bool_iff. exact Hne.
Qed.

Lemma add_fin (a b : Q) : (Fin a + Fin b)%D = Fin (a + b).
Proof. reflexivity. Qed.

Lemma sub_fin (a b : Q) : (Fin a - Fin b)%D = Fin (a - b).
Proof. reflexivity. Qed.

Lemma mul_fin (a b : Q) : (Fin a * Fin b)%D = Fin (a * b).
Proof. reflexivity. Qed.

Lemma div_fin (a b : Q) : ¬ b == 0 → (Fin a / Fin b)%D = Fin (a / b).
Proof.
  intros Hb. unfold Dbl.div. now rewrite (Qeq_bool_false b 0 Hb).
Qed.

Lemma gtb_fin (a b : Q) : (Fin a >? Fin b)%D = true ↔ b < a.
Proof. apply Qltb_lt. Qed.

Lemma eqv_refl (x : dbl) : (x ≈ x)%D.
Proof. destruct x; simpl; auto with qarith. Qed.

(** A zero-over-zero division is the only way two finite operands give
    [NaN]. *)
Lemma div_fin_nan (a b : Q) : (Fin a / Fin b)%D = NaN → a == 0 ∧ b == 0.
Proof.
  unfold Dbl.div. destruct (Qeq_bool b 0) eqn:Hb; [|discriminate].
  apply Qeq_bool_iff in Hb. destruct (a ?= 0) eqn:Ha; try discriminate.
  apply Qeq_alt in Ha. auto.
Qed.

(** *** The constructor and the seed *)

(** C7: the specification says that a caller-supplied seed of 0 makes the
    solver draw its seed from the entropy source.  The constructor never does:
    whatever the entropy source would deliver, the solver is seeded with
    the seed it was given, 0 included. *)
Theorem Solver_new_ignores_entropy {G} `{RandomGenerator G}
    (N : Z) (a : dbl) (seed rd : Z) :
  initialSeed (Solver_new N a seed rd) = seed
  ∧ randomGenerator (Solver_new N a seed rd) = rng_seed seed
  ∧ ∀ rd', Solver_new N a seed rd' = Solver_new N a seed rd.
Proof. repeat split. Qed.

(** Two runs from the same solver state, graph and fraction agree: [SID]
    is a function of them. *)
Lemma SID_deterministic {G} `{RandomGenerator G} (P : Params) (fuel : nat)
    (s1 s2 : Solver G) (g1 g2 : FactorGraph) (f1 f2 : dbl) :
  randomGenerator s1 = randomGenerator s2 → g1 = g2 → f1 = f2 →
  SID P fuel s1 g1 f1 = SID P fuel s2 g2 f2.
Proof. unfold SID. intros -> -> ->. reflexivity. Qed.

(** *** Random initialisation of the surveys *)

Lemma randomizeSurveys_spec {G} `{RandomGenerator G} (es : list Edge.t)
    (rng : G) :
  randomizeSurveys es rng
  = (imap (fun i edge => Edge.set_survey (nthDraw i rng) edge) es,
     afterDraws (length es) rng).
Proof.
  revert rng. induction es as [|edge es IH]; intros rng; [reflexivity|].
  simpl. destruct (getRandomReal01 rng) as [x rng1] eqn:Hx.
  rewrite IH. unfold nthDraw at 2. simpl. rewrite Hx. simpl.
  f_equal. f_equal. apply imap_ext. intros i e _. simpl.
  unfold nthDraw. simpl. now rewrite Hx.
Qed.

(** C10: [SID] starts by overwriting the survey of every edge, enabled or
    not, with the next draw of the solver's generator; the other fields of
    the edge stay, the previous survey is not read, and the loop then runs
    on that graph.  The draws lie in [[0, 1)] when the distribution
    delivers such values. *)
Theorem SID_randomizes_every_survey {G} `{RandomGenerator G} (P : Params)
    (fuel : nat) (s : Solver G) (graph : FactorGraph) (fraction : dbl) :
  (∀ rng, in01 (fst (getRandomReal01 rng)) = true) →
  ∃ es,
    SID P fuel s graph fraction
    = sidLoop P fuel fraction
        (mkWorld (mkFG (variables graph) (clauses graph) es) [])
        (afterDraws (length (edges graph)) (randomGenerator s))
    ∧ length es = length (edges graph)
    ∧ ∀ i edge, edges graph !! i = Some edge →
        ∃ edge', es !! i = Some edge'
          ∧ Edge.survey edge' = nthDraw i (randomGenerator s)
          ∧ in01 (Edge.survey edge') = true
          ∧ Edge.type edge' = Edge.type edge
          ∧ Edge.enabled edge' = Edge.enabled edge
          ∧ Edge.variable edge' = Edge.variable edge
          ∧ Edge.clause edge' = Edge.clause edge.
Proof.
  intros Hrange.
  exists (imap (fun i edge => Edge.set_survey (nthDraw i (randomGenerator s))
                               edge) (edges graph)).
  split; [|split].
  - unfold SID. now rewrite randomizeSurveys_spec.
  - apply length_imap.
  - intros i edge Hi. eexists. split.
    + rewrite list_lookup_imap, Hi. reflexivity.
    + simpl. repeat split. apply Hrange.
Qed.

Lemma SID_randomizes_every_survey_witness :
  ∃ es,
    SID (defaults false) 5 (mkSolver 0 [Fin (1 # 200); Fin (1 # 200)] 2 one 200)
        (binaryClause one NaN) (Fin (1 # 10))
    = sidLoop (defaults false) 5 (Fin (1 # 10))
        (mkWorld (mkFG (variables (binaryClause one NaN))
                       (clauses (binaryClause one NaN)) es) [])
        []
    ∧ es !! 1%nat = Some (literal true (Fin (1 # 200)) 1 0).
Proof.
  destruct (SID_randomizes_every_survey (defaults false) 5
              (mkSolver 0 [Fin (1 # 200); Fin (1 # 200)] 2 one 200)
              (binaryClause one NaN) (Fin (1 # 10))) as (es & Hrun & Hlen & Hes).
  - intros [|x rng]; [reflexivity|]. simpl.
    destruct (in01 x) eqn:Hx; [exact Hx | reflexivity].
  - exists es. split; [exact Hrun|].
    destruct (Hes 1%nat (literal true NaN 1 0) eq_refl)
      as (edge' & Hlook & Hs & _ & Ht & Hen & Hv & Hc).
    rewrite Hlook. f_equal. destruct edge'; simpl in *. subst. reflexivity.
Defined.

(** *** The sub-survey weights *)

(** C2: at a negative edge the code takes [wt] from the negative side
    again ([wt = m], as in the positive branch) instead of the positive
    side.  In [(~x \/ y) /\ (x) /\ (~x)] with surveys 0, 1/2, 3/4 and 1/2
    the variable [x] has [p = 1/2] and [m = 1/4]; at its edge in the first
    clause the specification asks for [wn = 1/8], [wt = 1/2] and a
    sub-survey of [1/5]; the code computes [wt = 1/4] and a sub-survey of
    [1/3], which the update of the first clause stores as the new survey of
    [y]. *)
Theorem subSurveyWeights_negative_edge :
  let P := defaults false in
  let g := computeSubProducts P (skewed zero half (Fin (3 # 4)) half) in
  let w := subSurveyWeights P (getVar g 0) (getEdge g 0) in
  let w' := subSurveyWeightsSpec P (getVar g 0) (getEdge g 0) in
  Edge.type (getEdge g 0) = false
  ∧ Dbl.eqb (Var.p (getVar g 0)) half = true
  ∧ Dbl.eqb (Var.m (getVar g 0)) (Fin (1 # 4)) = true
  ∧ Dbl.eqb (fst w') (Fin (1 # 8)) = true
  ∧ Dbl.eqb (snd w') half = true
  ∧ Dbl.eqb (fst w' / (fst w' + snd w'))%D (Fin (1 # 5)) = true
  ∧ Dbl.eqb (fst w) (Fin (1 # 8)) = true
  ∧ Dbl.eqb (snd w) (Fin (1 # 4)) = true
  ∧ Dbl.eqb (subSurveyOf P (getVar g 0) (getEdge g 0)) (Fin (1 # 3)) = true
  ∧ Dbl.eqb (Edge.survey (getEdge (snd (updateSurveys P g 0)) 3))
            (Fin (1 # 3)) = true.
Proof. vm_compute. repeat split. Qed.

(** In both branches [wt] is the local [m]. *)
Lemma subSurveyWeights_wt (P : Params) (var : Var.t) (edge : Edge.t) :
  ∃ p m,
    subSurveyWeights P var edge
    = (if Edge.type edge then (p * (one - m))%D else (m * (one - p))%D, m).
Proof.
  unfold subSurveyWeights. destruct (Edge.type edge); eauto.
Qed.

(** *** Bias evaluation *)




(** *** The survey-propagation driver *)

Lemma spLoop_first_threshold {G} `{RandomGenerator G} (P : Params) (n : nat)
    (g : FactorGraph) (rng : G) (d : dbl) :
  (spLoop P n g rng d
   = (UNCONVERGE, fst (fst (afterSweeps P n g rng d)),
      snd (fst (afterSweeps P n g rng d)))
   ∧ ∀ k, (1 <= k <= n)%nat →
       thresholdMet P (afterSweeps P k g rng d) = false)
  ∨ ∃ k, (1 <= k <= n)%nat
      ∧ (∀ j, (1 <= j < k)%nat →
           thresholdMet P (afterSweeps P j g rng d) = false)
      ∧ thresholdMet P (afterSweeps P k g rng d) = true
      ∧ spLoop P n g rng d
        = (verdict P (snd (afterSweeps P k g rng d)),
           fst (fst (afterSweeps P k g rng d)),
           snd (fst (afterSweeps P k g rng d))).
Proof.
  revert g rng d. induction n as [|n IH]; intros g rng d.
  - left. split; [reflexivity|]. intros k Hk. lia.
  - simpl spLoop.
    destruct (rng_shuffle (GetEnabledClauses g) rng) as [cs rng1] eqn:Hsh.
    destruct (sweep P cs g d) as [g1 d1] eqn:Hsw.
    assert (Hstep : ∀ k, afterSweeps P (S k) g rng d
                         = afterSweeps P k g1 rng1 d1).
    { intros k. simpl. now rewrite Hsh, Hsw. }
    destruct (d1 <=? spEpsilon P)%D eqn:Hmet.
    + right. exists 1%nat. rewrite !Hstep. simpl.
      repeat split; try lia; try exact Hmet.
      unfold verdict. now destruct (d1 <? ZERO_EPSILON P)%D.
    + destruct (IH g1 rng1 d1) as [[Hun Hall] | (k & Hk & Hbefore & Hat & Hres)].
      * left. rewrite Hstep. split; [exact Hun|].
        intros [|k] Hk; [lia|]. rewrite Hstep.
        destruct k as [|k]; [exact Hmet|]. apply Hall. lia.
      * right. exists (S k). rewrite Hstep.
        repeat split; try lia; try assumption.
        intros [|j] Hj; [lia|]. rewrite Hstep.
        destruct j as [|j]; [exact Hmet|]. apply Hbefore. lia.
Qed.




(** [maxConvergeDiff] is declared outside the loop over the sweeps and is
    never reset, so it only grows: once a sweep has missed the threshold,
    every later sweep misses it too. *)
Lemma ltb_leb_trans (x y z : dbl) :
  (x <? y)%D = true → (y <=? z)%D = true → (x <=? z)%D = true.
Proof.
  destruct x as [a| | |], y as [b| | |], z as [c| | |]; simpl;
    try discriminate; auto.
  intros Hab Hbc. apply Qltb_lt in Hab. apply Qle_bool_iff in Hbc.
  apply Qle_bool_iff. lra.
Qed.

Lemma sweep_keeps_miss (P : Params) (cs : list nat) (g : FactorGraph)
    (d : dbl) :
  (d <=? spEpsilon P)%D = false →
  (snd (sweep P cs g d) <=? spEpsilon P)%D = false.
Proof.
  unfold sweep. revert g d. induction cs as [|c cs IH]; intros g d Hmiss;
    [exact Hmiss|].
  cbn [fold_left]. unfold sweepStep at 2. cbn [fst snd].
  destruct (updateSurveys P g c) as [mx g1]. apply IH.
  destruct (mx >? d)%D eqn:Hgt; [|exact Hmiss].
  destruct (mx <=? spEpsilon P)%D eqn:Hle; [|reflexivity].
  unfold Dbl.gtb in Hgt. rewrite (ltb_leb_trans _ _ _ Hgt Hle) in Hmiss.
  discriminate.
Qed.

Lemma spLoop_never_recovers {G} `{RandomGenerator G} (P : Params) (n : nat)
    (g : FactorGraph) (rng : G) (d : dbl) :
  (d <=? spEpsilon P)%D = false →
  fst (fst (spLoop P n g rng d)) = UNCONVERGE.
Proof.
  revert g rng d. induction n as [|n IH]; intros g rng d Hmiss;
    [reflexivity|].
  cbn [spLoop].
  destruct (rng_shuffle (GetEnabledClauses g) rng) as [cs rng1].
  pose proof (sweep_keeps_miss P cs g d Hmiss) as Hmiss1.
  destruct (sweep P cs g d) as [g1 d1]. cbn [snd] in Hmiss1.
  rewrite Hmiss1. now apply IH.
Qed.

(** Hence survey propagation converges in its first sweep or not at all. *)
Lemma surveyPropagation_first_sweep_or_never {G} `{RandomGenerator G}
    (P : Params) (g : FactorGraph) (rng : G) :
  fst (fst (surveyPropagation P g rng)) ≠ UNCONVERGE →
  thresholdMet P (afterSweeps P 1 (computeSubProducts P g) rng zero) = true.
Proof.
  unfold surveyPropagation, thresholdMet.
  destruct (Z.to_nat (spMaxIt P)) as [|n]; [intros Hne; now destruct Hne|].
  cbn [spLoop afterSweeps].
  destruct (rng_shuffle _ rng) as [cs rng1].
  destruct (sweep P cs (computeSubProducts P g) zero) as [g1 d1].
  cbn [snd]. destruct (d1 <=? spEpsilon P)%D eqn:Hmet; [reflexivity|].
  intros Hne. destruct Hne. now apply spLoop_never_recovers.
Qed.

(** *** The decimation driver *)

Lemma spLoop_result {G} `{RandomGenerator G} (P : Params) (n : nat)
    (g : FactorGraph) (rng : G) (d : dbl) :
  fst (fst (spLoop P n g rng d)) ≠ SAT
  ∧ fst (fst (spLoop P n g rng d)) ≠ CONTRADICTION.
Proof.
  revert g rng d. induction n as [|n IH]; intros g rng d; simpl.
  - split; discriminate.
  - destruct (rng_shuffle (GetEnabledClauses g) rng) as [cs rng1].
    destruct (sweep P cs g d) as [g1 d1].
    destruct (d1 <=? spEpsilon P)%D; [|apply IH].
    destruct (d1 <? ZERO_EPSILON P)%D; split; discriminate.
Qed.

Lemma fixVariables_empty_list (P : Params) (fuel : nat) (n : Z) (w : World) :
  fixVariables P fuel [] (if (n <? 1)%Z then 1%Z else n) 0 w
  = match fuel with
    | O => Stop OutOfFuel w
    | S _ => Stop (OutOfRange 0) w
    end.
Proof.
  destruct fuel as [|fuel]; [reflexivity|]. simpl.
  destruct (n <? 1)%Z eqn:Hn; [reflexivity|].
  apply Z.ltb_ge in Hn.
  destruct (0 <? n)%Z eqn:H0; [reflexivity|]. apply Z.ltb_ge in H0. lia.
Qed.

(** The vector [unassignedVariables] is declared and never filled, so the
    loop that fixes variables reads it past its end at once: no call of
    [SID] ever assigns a variable, and none returns [SAT] or
    [CONTRADICTION]. *)
Lemma sidLoop_never_decimates {G} `{RandomGenerator G} (P : Params)
    (fuel : nat) (fraction : dbl) (w : World) (rng : G) :
  match fst (fst (sidLoop P fuel fraction w rng)) with
  | Returned r => r = WALKSAT ∨ r = UNCONVERGE
  | OutOfRange i => i = 0%nat
  | BadCast | OutOfFuel => True
  end.
Proof.
  destruct fuel as [|fuel]; [exact I|].
  pose proof (spLoop_result P (Z.to_nat (spMaxIt P))
                (computeSubProducts P (fg w)) rng zero) as [Hsat Hcon].
  cbn [sidLoop]. unfold surveyPropagation.
  destruct (spLoop P (Z.to_nat (spMaxIt P)) (computeSubProducts P (fg w))
                   rng zero) as [[r g1] rng1].
  cbn [fst] in Hsat, Hcon.
  destruct (AlgorithmResult_eqb r CONVERGE) eqn:Hr; cbn [negb].
  2:{ destruct r; cbn in *; auto; congruence. }
  destruct (evaluateAll (variables g1) zero) as [vars s].
  match goal with |- context [if ?b then _ else _] => destruct b end;
    [cbn; auto|].
  match goal with |- context [to_int ?x] => destruct (to_int x) as [n|] end;
    [|exact I].
  rewrite fixVariables_empty_list. now destruct fuel.
Qed.

(** C4: on the formula [(x)], with a first draw of 199/200, survey
    propagation converges and the mean bias is 1, so the specification asks for one
    fresh assignment ([x] true, then [SAT]).  The list of unassigned
    variables is empty when the loop reads its first element: the call ends
    there and [x] stays unassigned. *)
Theorem SID_unit_clause_reads_empty_list (cascade : bool) :
  let P := defaults cascade in
  let s := mkSolver 0 [Fin (199 # 200)] 1 one 100 in
  let '(o, w, _) := SID P 5 s (unitClause zero) (Fin (1 # 10)) in
  o = OutOfRange 0
  ∧ Var.assigned (getVar (fg w) 0) = false
  ∧ IsSAT (fg w) = false
  ∧ Dbl.eqb (Var.Hp (getVar (fg w) 0)) one = true.
Proof. destruct cascade; vm_compute; repeat split. Qed.

(** C5: on the formula [(x \/ y)], with both first draws 1/200, survey
    propagation converges and both variables have maximal bias 0, so the
    mean over the two unassigned variables is 0, below the threshold, and
    the specification asks for [WALKSAT].  The code divides the sum by the size of
    the empty list: the quotient is not a number, the comparison fails and
    the call goes on to read the empty list. *)
Theorem SID_paramagnetic_mean_over_empty_list (cascade : bool) :
  let P := defaults cascade in
  let s := mkSolver 0 [Fin (1 # 200); Fin (1 # 200)] 2 one 200 in
  let g := binaryClause zero zero in
  let '(es, rng) := randomizeSurveys (edges g) (randomGenerator s) in
  let '(r, g1, _) :=
    surveyPropagation P (mkFG (variables g) (clauses g) es) rng in
  let '(_, sumMaxBias) := evaluateAll (variables g1) zero in
  r = CONVERGE
  ∧ map Var.assigned (variables g1) = [false; false]
  ∧ (sumMaxBias / of_Z 2 <? paramagneticState P)%D = true
  ∧ (sumMaxBias / of_Z (Z.of_nat (length (@nil nat))))%D = NaN
  ∧ fst (fst (SID P 5 s g (Fin (1 # 10)))) = OutOfRange 0.
Proof. destruct cascade; vm_compute; repeat split. Qed.

(** X18: The skip of line 80-83 does not advance: a variable of the list that
    is already assigned is examined again and again. *)
Lemma fixVariables_spins_on_assigned (P : Params) (fuel : nat)
    (l : list nat) (n i : Z) (var : nat) (w : World) :
  (0 <= i < n)%Z → l !! Z.to_nat i = Some var →
  Var.assigned (getVar (fg w) var) = true →
  fixVariables P fuel l n i w = Stop OutOfFuel w.
Proof.
  intros Hi Hl Ha. induction fuel as [|fuel IH]; [reflexivity|].
  cbn [fixVariables]. destruct (i <? n)%Z eqn:Hlt.
  - rewrite Hl, Ha. replace (i - 1 + 1)%Z with i by lia. exact IH.
  - apply Z.ltb_ge in Hlt. lia.
Qed.

Lemma fixVariables_spins_on_assigned_witness :
  fixVariables (defaults false) 1000 [0%nat] 1 0 assignedUnit
  = Stop OutOfFuel assignedUnit.
Proof.
  apply (fixVariables_spins_on_assigned _ _ _ _ _ 0%nat);
    [lia|reflexivity|reflexivity].
Defined.


Local Close Scope Q_scope.

(** In this section the parameters of the solver are fixed. *)
Section Simplifier.

Context (P : Params).

(** *** Reading the arenas after an update *)

Lemma getEdge_updEdge_ne f e e' g :
  e ≠ e' → getEdge (updEdge f e g) e' = getEdge g e'.
Proof.
  intros Hne. unfold getEdge, updEdge. simpl.
  now rewrite list_lookup_alter_ne.
Qed.

Lemma getEdge_Dissable e e' g :
  getEdge (updEdge Edge.Dissable e g) e'
  = if decide (e = e') then Edge.Dissable (getEdge g e') else getEdge g e'.
Proof.
  destruct (decide (e = e')) as [->|Hne]; [|now apply getEdge_updEdge_ne].
  unfold getEdge, updEdge. simpl. rewrite list_lookup_alter_eq.
  now destruct (edges g !! e').
Qed.

Lemma getEdge_set_survey s e e' g :
  e < length (edges g) →
  getEdge (updEdge (Edge.set_survey s) e g) e'
  = if decide (e = e') then Edge.set_survey s (getEdge g e') else getEdge g e'.
Proof.
  intros Hlt.
  destruct (decide (e = e')) as [->|Hne]; [|now apply getEdge_updEdge_ne].
  unfold getEdge, updEdge. simpl. rewrite list_lookup_alter_eq.
  destruct (edges g !! e') eqn:Hl; [reflexivity|].
  apply lookup_ge_None in Hl. lia.
Qed.

Lemma getVar_updVar_ne f v v' g :
  v ≠ v' → getVar (updVar f v g) v' = getVar g v'.
Proof.
  intros Hne. unfold getVar, updVar. simpl.
  now rewrite list_lookup_alter_ne.
Qed.

Lemma getVar_updVar_eq f v g :
  v < length (variables g) → getVar (updVar f v g) v = f (getVar g v).
Proof.
  intros Hlt. unfold getVar, updVar. simpl. rewrite list_lookup_alter_eq.
  destruct (variables g !! v) eqn:Hl; [reflexivity|].
  apply lookup_ge_None in Hl. lia.
Qed.

Lemma getVar_updVar_ge f v g :
  length (variables g) <= v → updVar f v g = g.
Proof.
  intros Hge. unfold updVar. destruct g as [vs cs es]. simpl in *. f_equal.
  apply list_eq. intros i. destruct (decide (v = i)) as [->|Hne].
  - rewrite list_lookup_alter_eq.
    now rewrite (proj2 (lookup_ge_None vs i) Hge).
  - now rewrite list_lookup_alter_ne.
Qed.

Lemma getClause_disabled c c' g :
  getClause (updClause (Clause.set_enabled false) c g) c'
  = if decide (c = c') then Clause.set_enabled false (getClause g c')
    else getClause g c'.
Proof.
  unfold getClause, updClause. simpl.
  destruct (decide (c = c')) as [->|Hne].
  - rewrite list_lookup_alter_eq. now destruct (clauses g !! c').
  - now rewrite list_lookup_alter_ne.
Qed.

(** *** The enabled edges bound the recursion of the simplifier *)

Lemma enabled_after_Dissable (l : list Edge.t) (i : nat) :
  (length (List.filter Edge.enabled (alter Edge.Dissable i l))
   <= length (List.filter Edge.enabled l))%nat
  ∧ ∀ x, l !! i = Some x → Edge.enabled x = true →
      S (length (List.filter Edge.enabled (alter Edge.Dissable i l)))
      = length (List.filter Edge.enabled l).
Proof.
  revert i. induction l as [|y l IH]; intros i.
  - split; [simpl; lia|]. intros x Hx. destruct i; discriminate.
  - destruct i as [|i].
    + simpl. split.
      * destruct (Edge.enabled y); simpl; lia.
      * intros x Hx Hen. injection Hx as <-. now rewrite Hen.
    + destruct (IH i) as [Hle Heq].
      change (alter Edge.Dissable (S i) (y :: l))
        with (y :: alter Edge.Dissable i l).
      change ((y :: l) !! S i) with (l !! i).
      cbn [List.filter].
      destruct (Edge.enabled y); cbn [length]; split; try lia.
      * intros x Hx Hen. f_equal. eapply Heq; eauto.
      * intros x Hx Hen. eapply Heq; eauto.
Qed.

Lemma enabledCount_Dissable_le e g :
  (enabledCount (updEdge Edge.Dissable e g) <= enabledCount g)%nat.
Proof. apply enabled_after_Dissable. Qed.

Lemma enabledCount_Dissable_lt e g :
  Edge.enabled (getEdge g e) = true →
  (enabledCount (updEdge Edge.Dissable e g) < enabledCount g)%nat.
Proof.
  unfold getEdge, enabledCount, updEdge. simpl. intros Hen.
  destruct (edges g !! e) as [x|] eqn:Hl; [|discriminate].
  destruct (enabled_after_Dissable (edges g) e) as [_ Heq].
  specialize (Heq x Hl Hen). lia.
Qed.

Lemma enabledCount_cascade es g :
  (enabledCount (fold_left (fun g' e => updEdge Edge.Dissable e g') es g)
   <= enabledCount g)%nat.
Proof.
  revert g. induction es as [|e es IH]; intros g; simpl; [lia|].
  etransitivity; [apply IH|apply enabledCount_Dissable_le].
Qed.

Lemma enabledCount_ClauseDissable c g :
  (enabledCount (ClauseDissable P c g) <= enabledCount g)%nat.
Proof.
  unfold ClauseDissable. destruct (clauseDissableClearsEdges P).
  - etransitivity; [apply enabledCount_cascade|]. reflexivity.
  - reflexivity.
Qed.

Lemma unitPropagation_terminates (bound : nat) (assign : Assign) w c :
  terminates bound assign → (enabledCount (fg w) < bound)%nat →
  ∃ r w', unitPropagation_ assign w c = Some (r, w')
          ∧ (enabledCount (fg w') <= enabledCount (fg w))%nat.
Proof.
  intros Hassign Hlt. unfold unitPropagation_.
  destruct (GetEnabledEdges (fg w) c) as [|e [|e' l]].
  - eexists _, _. split; [reflexivity|]. simpl. lia.
  - apply Hassign, Hlt.
  - eexists _, _. split; [reflexivity|]. lia.
Qed.

Lemma cleanGraph_terminates (bound : nat) (assign : Assign) es w var :
  terminates bound assign → (enabledCount (fg w) <= bound)%nat →
  ∃ r w', cleanGraph_ P assign es w var = Some (r, w')
          ∧ (enabledCount (fg w') <= enabledCount (fg w))%nat.
Proof.
  intros Hassign. revert w. induction es as [|e es IH]; intros w Hle.
  - eexists _, _. split; [reflexivity|]. lia.
  - simpl. destruct (Edge.enabled (getEdge (fg w) e)) eqn:Hen; [|now apply IH].
    destruct (Bool.eqb _ _).
    + pose proof (enabledCount_ClauseDissable
                    (Edge.clause (getEdge (fg w) e)) (fg w)) as Hc.
      destruct (IH (onGraph (ClauseDissable P (Edge.clause (getEdge (fg w) e)))
                            w)) as (r & w' & Hrun & Hcount).
      { simpl. lia. }
      exists r, w'. split; [exact Hrun|]. simpl in Hcount. lia.
    + pose proof (enabledCount_Dissable_lt e (fg w) Hen) as Hlt.
      destruct (unitPropagation_terminates bound assign
                  (onGraph (updEdge Edge.Dissable e) w)
                  (Edge.clause (getEdge (fg w) e)) Hassign)
        as (r & w2 & Hup & Hcount).
      { simpl. lia. }
      rewrite Hup. simpl in Hcount. destruct r.
      * destruct (IH w2) as (r & w' & Hrun & Hcount'); [lia|].
        exists r, w'. split; [exact Hrun|]. lia.
      * exists false, w2. split; [reflexivity|]. lia.
Qed.

(** More fuel does not change a result. *)
Lemma cleanGraph_fuel_mono (assign assign' : Assign) :
  (∀ w v b r, assign w v b = Some r → assign' w v b = Some r) →
  ∀ es w var r,
    cleanGraph_ P assign es w var = Some r →
    cleanGraph_ P assign' es w var = Some r.
Proof.
  intros Hmono. induction es as [|e es IH]; intros w var r; [auto|].
  cbn [cleanGraph_].
  destruct (Edge.enabled (getEdge (fg w) e)); [|apply IH].
  destruct (Bool.eqb _ _); [apply IH|].
  unfold unitPropagation_.
  destruct (GetEnabledEdges _ _) as [|e1 [|e2 l]]; try apply IH.
  - auto.
  - destruct (assign _ _ _) as [[[|] w2]|] eqn:Hrun; try discriminate;
      rewrite (Hmono _ _ _ _ Hrun); [apply IH|auto].
Qed.

Lemma assignVariable_fuel_mono fuel fuel' w v b r :
  fuel <= fuel' → assignVariable P fuel w v b = Some r →
  assignVariable P fuel' w v b = Some r.
Proof.
  revert fuel' w v b r. induction fuel as [|fuel IH]; intros fuel' w v b r Hle;
    [discriminate|].
  destruct fuel' as [|fuel']; [lia|]. cbn [assignVariable].
  destruct (_ && _); [auto|].
  apply cleanGraph_fuel_mono. intros w1 v1 b1 r1. apply IH. lia.
Qed.

Lemma assignVariable_terminates fuel :
  terminates fuel (assignVariable P fuel).
Proof.
  induction fuel as [|fuel IH]; intros w v b Hlt; [lia|].
  simpl. destruct (_ && _).
  - eexists _, _. split; [reflexivity|]. simpl. lia.
  - destruct (cleanGraph_terminates fuel (assignVariable P fuel)
                (Var.allNeighbourEdges (getVar (fg w) v))
                (onGraph (updVar (Var.AssignValue b) v) w) v IH)
      as (r & w' & Hrun & Hcount).
    + simpl. unfold enabledCount in *. simpl. lia.
    + exists r, w'. split; [exact Hrun|]. exact Hcount.
Qed.

(** *** What each step of the simplifier preserves *)

Lemma sameShape_refl g : sameShape g g.
Proof. unfold sameShape. auto 10. Qed.

Lemma sameShape_trans g1 g2 g3 :
  sameShape g1 g2 → sameShape g2 g3 → sameShape g1 g3.
Proof.
  intros (Hv & Hc & He & Hvl & Hcl & Hel) (Hv' & Hc' & He' & Hvl' & Hcl' & Hel').
  unfold sameShape. repeat split; try congruence;
    destruct (Hel e) as (H1 & H2 & H3), (Hel' e) as (H1' & H2' & H3');
    congruence.
Qed.

Lemma wellFormed_sameShape g g' :
  wellFormed g → sameShape g g' → wellFormed g'.
Proof.
  intros (W1 & W2 & W3 & W4) (Hv & Hc & He & Hvl & Hcl & Hel).
  unfold wellFormed. split; [|split; [|split]].
  - intros v e Hin. rewrite He. rewrite Hvl in Hin.
    destruct (Hel e) as (_ & -> & _). now apply W1.
  - intros c e Hin. rewrite He. rewrite Hcl in Hin.
    destruct (Hel e) as (_ & _ & ->). now apply W2.
  - intros v. rewrite Hvl. apply W3.
  - intros e Hlt. rewrite He in Hlt.
    destruct (Hel e) as (_ & -> & ->). rewrite Hvl, Hcl. now apply W4.
Qed.

Lemma simplifies_refl g : simplifies g g.
Proof.
  split; [apply sameShape_refl|]. repeat split; auto. congruence.
Qed.

Lemma simplifies_trans g1 g2 g3 :
  simplifies g1 g2 → simplifies g2 g3 → simplifies g1 g3.
Proof.
  intros (Hs & Hb & Hc & Hd) (Hs' & Hb' & Hc' & Hd').
  split; [eapply sameShape_trans; eauto|]. repeat split.
  - auto.
  - now apply Hc', Hc.
  - destruct (Hc v H) as [Ha Hval]. destruct (Hc' v Ha) as [_ ->]. exact Hval.
  - intros e Hen Hdis.
    destruct Hs as (_ & _ & _ & _ & _ & Hel).
    destruct (Hel e) as (Hty & Hvar & Hcl).
    destruct (Edge.enabled (getEdge g2 e)) eqn:Hmid.
    + rewrite <- Hty, <- Hvar, <- Hcl. now apply Hd'.
    + destruct (Hd e Hen Hmid) as [Hcd | [Ha Hval]].
      * left. now apply Hb'.
      * right. destruct (Hc' _ Ha) as [Ha' Hval']. split; [exact Ha'|].
        now rewrite Hval'.
Qed.

Lemma cascade_variables es g :
  variables (fold_left (fun g' e => updEdge Edge.Dissable e g') es g)
  = variables g.
Proof. revert g. induction es; intros g; simpl; [|rewrite IHes]; auto. Qed.

Lemma cascade_clauses es g :
  clauses (fold_left (fun g' e => updEdge Edge.Dissable e g') es g)
  = clauses g.
Proof. revert g. induction es; intros g; simpl; [|rewrite IHes]; auto. Qed.

Lemma cascade_length es g :
  length (edges (fold_left (fun g' e => updEdge Edge.Dissable e g') es g))
  = length (edges g).
Proof.
  revert g. induction es; intros g; simpl; [|rewrite IHes]; auto.
  simpl. apply length_alter.
Qed.

Lemma cascade_getEdge es g e :
  getEdge (fold_left (fun g' e => updEdge Edge.Dissable e g') es g) e
  = if decide (e ∈ es) then Edge.Dissable (getEdge g e) else getEdge g e.
Proof.
  revert g. induction es as [|a es IH]; intros g; simpl.
  - destruct (decide (e ∈ [])) as [Hin|]; [|reflexivity].
    now apply elem_of_nil in Hin.
  - rewrite IH, getEdge_Dissable.
    destruct (decide (e ∈ es)) as [Hin|Hnin], (decide (a = e)) as [->|Hne];
      destruct (decide (e ∈ _ :: es)) as [Hin'|Hnin']; try reflexivity;
      try (exfalso; apply Hnin'; apply elem_of_cons; auto).
    apply elem_of_cons in Hin'. destruct Hin'; congruence.
Qed.

Lemma simplifies_AssignValue g var b :
  Var.assigned (getVar g var) && negb (Bool.eqb (Var.value (getVar g var)) b)
  = false →
  simplifies g (updVar (Var.AssignValue b) var g).
Proof.
  intros Hcheck.
  assert (Hget : ∀ v, getVar (updVar (Var.AssignValue b) var g) v
                      = if decide (var = v ∧ var < length (variables g))
                        then Var.AssignValue b (getVar g v) else getVar g v).
  { intros v. destruct (decide _) as [[-> Hlt]|Hno].
    - now apply getVar_updVar_eq.
    - destruct (decide (var = v)) as [->|Hne];
        [|now apply getVar_updVar_ne].
      rewrite getVar_updVar_ge; [reflexivity|lia]. }
  split; [|repeat split]; try (intros; assumption).
  - unfold sameShape. repeat split; try reflexivity.
    + simpl. apply length_alter.
    + intros v. rewrite Hget. now destruct (decide _).
  - rewrite Hget. destruct (decide _); [reflexivity|assumption].
  - rewrite Hget. destruct (decide _) as [[-> _]|]; [|reflexivity].
    rewrite H in Hcheck. simpl in *.
    apply negb_false_iff, eqb_prop in Hcheck. now rewrite Hcheck.
  - intros e Hen Hdis. unfold getEdge in *. simpl in *. congruence.
Qed.

Lemma getClause_ClauseDissable c c' g :
  getClause (ClauseDissable P c g) c'
  = if decide (c = c') then Clause.set_enabled false (getClause g c')
    else getClause g c'.
Proof.
  unfold ClauseDissable. destruct (clauseDissableClearsEdges P).
  - unfold getClause at 1. rewrite cascade_clauses.
    apply getClause_disabled.
  - apply getClause_disabled.
Qed.

Lemma getVar_ClauseDissable c g v :
  getVar (ClauseDissable P c g) v = getVar g v.
Proof.
  unfold ClauseDissable. destruct (clauseDissableClearsEdges P);
    [|reflexivity].
  unfold getVar. now rewrite cascade_variables.
Qed.

Lemma getEdge_ClauseDissable c g e :
  getEdge (ClauseDissable P c g) e = getEdge g e
  ∨ (getEdge (ClauseDissable P c g) e = Edge.Dissable (getEdge g e)
     ∧ e ∈ Clause.allNeighbourEdges (getClause g c)).
Proof.
  unfold ClauseDissable. destruct (clauseDissableClearsEdges P);
    [|left; reflexivity].
  rewrite cascade_getEdge. destruct (decide _); [right|left]; auto.
Qed.

Lemma simplifies_ClauseDissable g c :
  wellFormed g → simplifies g (ClauseDissable P c g).
Proof.
  intros (_ & W2 & _).
  split; [|repeat split].
  - unfold sameShape. repeat split.
    + unfold ClauseDissable. destruct (clauseDissableClearsEdges P);
        [rewrite cascade_variables|]; reflexivity.
    + unfold ClauseDissable. destruct (clauseDissableClearsEdges P);
        [rewrite cascade_clauses|]; simpl; apply length_alter.
    + unfold ClauseDissable. destruct (clauseDissableClearsEdges P);
        [rewrite cascade_length|]; reflexivity.
    + intros v. now rewrite getVar_ClauseDissable.
    + intros c'. rewrite getClause_ClauseDissable. now destruct (decide _).
    + destruct (getEdge_ClauseDissable c g e) as [-> | [-> _]]; reflexivity.
    + destruct (getEdge_ClauseDissable c g e) as [-> | [-> _]]; reflexivity.
    + destruct (getEdge_ClauseDissable c g e) as [-> | [-> _]]; reflexivity.
  - intros c' Hdis. rewrite getClause_ClauseDissable.
    destruct (decide _); [reflexivity|assumption].
  - now rewrite getVar_ClauseDissable.
  - now rewrite getVar_ClauseDissable.
  - intros e Hen Hdis. left.
    destruct (getEdge_ClauseDissable c g e) as [Heq | [_ Hin]];
      [congruence|].
    destruct (W2 c e Hin) as [_ ->]. rewrite getClause_ClauseDissable.
    now destruct (decide _).
Qed.

Lemma simplifies_Dissable g var e :
  wellFormed g → e ∈ Var.allNeighbourEdges (getVar g var) →
  Var.assigned (getVar g var) = true →
  Bool.eqb (Edge.type (getEdge g e)) (Var.value (getVar g var)) = false →
  simplifies g (updEdge Edge.Dissable e g).
Proof.
  intros (W1 & _) Hin Hassigned Hfalse.
  split; [|repeat split]; try (intros; assumption).
  - unfold sameShape. repeat split; try reflexivity.
    + simpl. apply length_alter.
    + rewrite getEdge_Dissable. now destruct (decide _).
    + rewrite getEdge_Dissable. now destruct (decide _).
    + rewrite getEdge_Dissable. now destruct (decide _).
  - intros e' Hen Hdis. right. rewrite getEdge_Dissable in Hdis.
    destruct (decide (e = e')) as [<-|]; [|congruence].
    destruct (W1 var e Hin) as [_ ->].
    change (getVar (updEdge Edge.Dissable e g) var) with (getVar g var).
    split; [assumption|]. intros Heq. rewrite Heq, eqb_reflx in Hfalse.
    discriminate.
Qed.

Lemma wellFormedb_sound g : wellFormedb g = true → wellFormed g.
Proof.
  unfold wellFormedb. rewrite !andb_true_iff, !forallb_forall.
  intros [[Hv Hc] He].
  assert (Hvdummy : ∀ v, length (variables g) <= v →
                         Var.allNeighbourEdges (getVar g v) = []).
  { intros v Hge. unfold getVar.
    now rewrite (proj2 (lookup_ge_None (variables g) v) Hge). }
  assert (Hcdummy : ∀ c, length (clauses g) <= c →
                         Clause.allNeighbourEdges (getClause g c) = []).
  { intros c Hge. unfold getClause.
    now rewrite (proj2 (lookup_ge_None (clauses g) c) Hge). }
  split; [|split; [|split]].
  - intros v e Hin. destruct (decide (v < length (variables g))) as [Hlt|Hge].
    + specialize (Hv v). rewrite in_seq in Hv.
      destruct (andb_prop _ _ (Hv ltac:(lia))) as [Hall _].
      rewrite forallb_forall in Hall.
      specialize (Hall e (proj1 (list_elem_of_In _ _) Hin)).
      apply andb_prop in Hall as [H1 H2].
      apply Nat.ltb_lt in H1. apply Nat.eqb_eq in H2. auto.
    + rewrite Hvdummy in Hin by lia. now apply elem_of_nil in Hin.
  - intros c e Hin. destruct (decide (c < length (clauses g))) as [Hlt|Hge].
    + specialize (Hc c). rewrite in_seq in Hc.
      specialize (Hc ltac:(lia)). rewrite forallb_forall in Hc.
      specialize (Hc e (proj1 (list_elem_of_In _ _) Hin)).
      apply andb_prop in Hc as [H1 H2].
      apply Nat.ltb_lt in H1. apply Nat.eqb_eq in H2. auto.
    + rewrite Hcdummy in Hin by lia. now apply elem_of_nil in Hin.
  - intros v. destruct (decide (v < length (variables g))) as [Hlt|Hge].
    + specialize (Hv v). rewrite in_seq in Hv.
      destruct (andb_prop _ _ (Hv ltac:(lia))) as [_ Hnd].
      now apply bool_decide_eq_true in Hnd.
    + rewrite Hvdummy by lia. constructor.
  - intros e Hlt. specialize (He e). rewrite in_seq in He.
    apply andb_prop in He as [H1 H2]; [|lia].
    apply bool_decide_eq_true in H1. apply bool_decide_eq_true in H2. auto.
Qed.

Lemma wellFormed_implication : wellFormed implication.
Proof. apply wellFormedb_sound. vm_compute. reflexivity. Qed.

(** *** The recursion of the simplifier *)

(** An enabled true literal of an assigned variable either stays as it is
    or sees its clause disabled. *)
Lemma true_literal_survives g g1 var e :
  wellFormed g → simplifies g g1 →
  e ∈ Var.allNeighbourEdges (getVar g var) →
  Var.assigned (getVar g var) = true →
  Edge.enabled (getEdge g e) = true →
  Edge.type (getEdge g e) = Var.value (getVar g var) →
  Clause.enabled (getClause g1 (Edge.clause (getEdge g e))) = false
  ∨ (Edge.enabled (getEdge g1 e) = true
     ∧ Edge.type (getEdge g1 e) = Var.value (getVar g1 var)).
Proof.
  intros (W1 & _) (Hs & Hb & Hc & Hd) Hin Ha Hen Hty.
  destruct (Hc var Ha) as [Ha1 Hval].
  destruct Hs as (_ & _ & _ & _ & _ & Hel). destruct (Hel e) as (Hty1 & _).
  destruct (Edge.enabled (getEdge g1 e)) eqn:Hen1.
  - right. split; [reflexivity|]. congruence.
  - left. destruct (Hd e Hen Hen1) as [Hdis | [_ Hne]]; [exact Hdis|].
    destruct (W1 var e Hin) as [_ Hvar]. rewrite Hvar in Hne. congruence.
Qed.

Lemma coutGrows_trans r w w1 w' :
  cout w1 = cout w → coutGrows r w1 w' → coutGrows r w w'.
Proof. unfold coutGrows. intros ->. auto. Qed.

Lemma unitPropagation_sound (assign : Assign) w c r w' :
  sound assign → wellFormed (fg w) →
  unitPropagation_ assign w c = Some (r, w') →
  simplifies (fg w) (fg w') ∧ coutGrows r w w'.
Proof.
  intros Hassign Hwf. unfold unitPropagation_.
  destruct (GetEnabledEdges (fg w) c) as [|e [|e' l]].
  - intros [= <- <-]. split; [apply simplifies_refl|].
    simpl. eexists. split; reflexivity.
  - intros Hrun. exact (Hassign _ _ _ _ _ Hwf Hrun).
  - intros [= <- <-]. split; [apply simplifies_refl|reflexivity].
Qed.

Lemma cleanGraph_sound (assign : Assign) :
  sound assign →
  ∀ es w var r w',
    wellFormed (fg w) →
    (∀ e, e ∈ es → e ∈ Var.allNeighbourEdges (getVar (fg w) var)) →
    Var.assigned (getVar (fg w) var) = true →
    cleanGraph_ P assign es w var = Some (r, w') →
    simplifies (fg w) (fg w') ∧ coutGrows r w w'
    ∧ (r = true → ∀ e, e ∈ es →
         Edge.enabled (getEdge (fg w) e) = true →
         Edge.type (getEdge (fg w) e) = Var.value (getVar (fg w) var) →
         Clause.enabled (getClause (fg w') (Edge.clause (getEdge (fg w) e)))
         = false).
Proof.
  intros Hassign. induction es as [|e es IH]; intros w var r w' Hwf Hsub Ha.
  - intros [= <- <-]. split; [apply simplifies_refl|].
    split; [reflexivity|]. intros _ e Hin. now apply elem_of_nil in Hin.
  - assert (Hsub' : ∀ e', e' ∈ es →
                      e' ∈ Var.allNeighbourEdges (getVar (fg w) var)).
    { intros e' Hin. apply Hsub, elem_of_cons. auto. }
    (* what is left to show for the edges of the tail *)
    assert (Htail : ∀ w1 r w',
              simplifies (fg w) (fg w1) → cout w1 = cout w →
              cleanGraph_ P assign es w1 var = Some (r, w') →
              simplifies (fg w1) (fg w')
              ∧ simplifies (fg w) (fg w') ∧ coutGrows r w w'
              ∧ (r = true → ∀ e', e' ∈ es →
                   Edge.enabled (getEdge (fg w) e') = true →
                   Edge.type (getEdge (fg w) e')
                   = Var.value (getVar (fg w) var) →
                   Clause.enabled
                     (getClause (fg w') (Edge.clause (getEdge (fg w) e')))
                   = false)).
    { intros w1 r1 w1' Hs1 Hcout Hrun.
      pose proof (wellFormed_sameShape _ _ Hwf (proj1 Hs1)) as Hwf1.
      pose proof Hs1 as (Hshape & Hb & Hc & Hd).
      destruct (IH w1 var r1 w1' Hwf1) as (Hs2 & Hgrow & Hlit); auto.
      { intros e' Hin. pose proof Hshape as (_ & _ & _ & Hvl & _).
        rewrite Hvl. auto. }
      { now apply Hc. }
      split; [exact Hs2|].
      split; [exact (simplifies_trans _ _ _ Hs1 Hs2)|].
      split; [exact (coutGrows_trans _ _ _ _ Hcout Hgrow)|].
      intros -> e' Hin Hen Hty.
      destruct (true_literal_survives (fg w) (fg w1) var e' Hwf
                  Hs1 (Hsub' e' Hin) Ha Hen Hty)
        as [Hdis | [Hen1 Hty1]].
      - destruct Hs2 as (_ & Hb2 & _). now apply Hb2.
      - pose proof Hshape as (_ & _ & _ & _ & _ & Hel).
        destruct (Hel e') as (_ & _ & Hcl). rewrite <- Hcl. now apply Hlit. }
    simpl. destruct (Edge.enabled (getEdge (fg w) e)) eqn:Hen.
    + destruct (Bool.eqb _ _) eqn:Hty.
      * intros Hrun.
        pose proof (simplifies_ClauseDissable (fg w)
                      (Edge.clause (getEdge (fg w) e)) Hwf) as Hs1.
        destruct (Htail (onGraph (ClauseDissable P
                                    (Edge.clause (getEdge (fg w) e))) w)
                        _ _ Hs1 eq_refl Hrun) as (Hs' & Hs & Hgrow & Hlit).
        split; [exact Hs|]. split; [exact Hgrow|].
        intros -> e' Hin Hen' Hty'. apply elem_of_cons in Hin as [->|Hin];
          [|now apply Hlit].
        destruct Hs' as (_ & Hb2 & _).
        apply Hb2. simpl. rewrite getClause_ClauseDissable.
        now destruct (decide _).
      * destruct (unitPropagation_ assign (onGraph (updEdge Edge.Dissable e) w)
                    (Edge.clause (getEdge (fg w) e))) as [[r2 w2]|] eqn:Hup;
          [|discriminate].
        pose proof (simplifies_Dissable (fg w) var e Hwf
                      (Hsub e ltac:(apply elem_of_cons; auto)) Ha Hty) as Hs1.
        destruct (unitPropagation_sound assign
                    (onGraph (updEdge Edge.Dissable e) w) _ _ _ Hassign
                    (wellFormed_sameShape _ _ Hwf (proj1 Hs1)) Hup)
          as (Hs2 & Hgrow2).
        pose proof (simplifies_trans _ _ _ Hs1 Hs2) as Hs12.
        destruct r2.
        -- intros Hrun.
           destruct (Htail w2 _ _ Hs12 Hgrow2 Hrun)
             as (_ & Hs & Hgrow & Hlit).
           split; [exact Hs|]. split; [exact Hgrow|].
           intros -> e' Hin Hen' Hty'.
           apply elem_of_cons in Hin as [->|Hin]; [|now apply Hlit].
           rewrite Hty', eqb_reflx in Hty. discriminate.
        -- intros [= <- <-]. split; [exact Hs12|].
           split; [exact Hgrow2|discriminate].
    + intros Hrun.
      destruct (Htail w _ _ (simplifies_refl _) eq_refl Hrun)
        as (_ & Hs & Hgrow & Hlit).
      split; [exact Hs|]. split; [exact Hgrow|].
      intros -> e' Hin Hen' Hty'.
      apply elem_of_cons in Hin as [->|Hin]; [congruence|now apply Hlit].
Qed.

Lemma assignVariable_sound fuel : sound (assignVariable P fuel).
Proof.
  induction fuel as [|fuel IH]; intros w v b r w' Hwf; [discriminate|].
  simpl. destruct (_ && _) eqn:Hcheck.
  - intros [= <- <-]. split; [apply simplifies_refl|].
    simpl. eexists. split; reflexivity.
  - intros Hrun.
    pose proof (simplifies_AssignValue (fg w) v b Hcheck) as Hs0.
    destruct (cleanGraph_sound _ IH _
                (onGraph (updVar (Var.AssignValue b) v) w) _ _ _
                (wellFormed_sameShape _ _ Hwf (proj1 Hs0))
                ltac:(intros e He; simpl;
                      pose proof Hs0 as ((_ & _ & _ & Hvl & _) & _);
                      rewrite Hvl; exact He)
                ltac:(simpl;
                      destruct (decide (v < length (variables (fg w))));
                      [rewrite getVar_updVar_eq by assumption; reflexivity
                      |rewrite getVar_updVar_ge by lia; unfold getVar;
                       rewrite (proj2 (lookup_ge_None _ _)) by lia;
                       reflexivity])
                Hrun) as (Hs & Hgrow & _).
    split; [eapply simplifies_trans; eauto|exact Hgrow].
Qed.

End Simplifier.




Local Open Scope Q_scope.

(** *** Invariant I1: from-scratch recomputation *)

Lemma eqv_sym (x y : dbl) : (x ≈ y)%D → (y ≈ x)%D.
Proof. destruct x, y; simpl; auto. intros H. now symmetry. Qed.

Lemma eqv_trans (x y z : dbl) : (x ≈ y)%D → (y ≈ z)%D → (x ≈ z)%D.
Proof.
  destruct x, y, z; simpl; auto; try contradiction.
  intros H1 H2. now rewrite H1.
Qed.

Lemma eqv_fin (x : dbl) (a : Q) : (x ≈ Fin a)%D → ∃ a', x = Fin a' ∧ a' == a.
Proof. destruct x; simpl; try contradiction. eauto. Qed.

Lemma one_sub_fin (q : Q) : (one - Fin q)%D = Fin (1 - q).
Proof. reflexivity. Qed.

(** In this section [ZERO_EPSILON] is a finite number from 0 on. *)
Section SubProductCache.

Context (P : Params) (ε : Q).
Hypothesis Heps : ZERO_EPSILON P = Fin ε.
Hypothesis Hε : 0 <= ε.

Lemma unsaturated_fin s :
  unsaturated P s = true → s ≠ NInf →
  ∃ q, s = Fin q ∧ ε < 1 - q.
Proof.
  unfold unsaturated, Dbl.gtb. rewrite Heps. intros Hs Hn.
  destruct s as [q| | |]; simpl in Hs; try discriminate; [|contradiction].
  exists q. split; [reflexivity|]. now apply Qltb_lt in Hs.
Qed.

Lemma saturated_fin q :
  unsaturated P (Fin q) = false → 1 - q <= ε.
Proof.
  unfold unsaturated, Dbl.gtb. rewrite Heps. intros Hs. simpl in Hs.
  now apply Qltb_ge in Hs.
Qed.

Lemma Qprod_app (l1 l2 : list Q) : Qprod (l1 ++ l2) == Qprod l1 * Qprod l2.
Proof.
  induction l1 as [|x l1 IH]; simpl; [ring|]. rewrite IH. ring.
Qed.

Lemma Qprod_cons (x : Q) (l : list Q) : Qprod (x :: l) = x * Qprod l.
Proof. reflexivity. Qed.

Lemma factorsOf_app g t l1 l2 :
  factorsOf P g t (l1 ++ l2) = factorsOf P g t l1 ++ factorsOf P g t l2.
Proof. unfold factorsOf. now rewrite List.filter_app, map_app. Qed.

Lemma saturatedOf_app g t l1 l2 :
  saturatedOf P g t (l1 ++ l2) = saturatedOf P g t l1 ++ saturatedOf P g t l2.
Proof. unfold saturatedOf. now rewrite List.filter_app. Qed.

Lemma subProductStep_fields g acc e a b :
  Edge.survey (getEdge g e) ≠ NInf →
  Var.p acc = Fin a → Var.m acc = Fin b →
  let r := subProductStep P g acc e in
  ∃ a' b',
    Var.p r = Fin a' ∧ a' == a * Qprod (factorsOf P g true [e])
    ∧ Var.m r = Fin b' ∧ b' == b * Qprod (factorsOf P g false [e])
    ∧ Var.pzero r
      = (Var.pzero acc + Z.of_nat (length (saturatedOf P g true [e])))%Z
    ∧ Var.mzero r
      = (Var.mzero acc + Z.of_nat (length (saturatedOf P g false [e])))%Z
    ∧ Var.allNeighbourEdges r = Var.allNeighbourEdges acc
    ∧ Var.assigned r = Var.assigned acc.
Proof.
  intros He Hp Hm. unfold subProductStep, factorsOf, saturatedOf, onSide.
  cbn [List.filter].
  fold (unsaturated P (Edge.survey (getEdge g e))).
  destruct (Edge.enabled (getEdge g e)); cbn [andb];
    [destruct (Edge.type (getEdge g e)); cbn [Bool.eqb andb];
     destruct (unsaturated P (Edge.survey (getEdge g e))) eqn:Hu;
     cbn [negb map length]|].
  - destruct (unsaturated_fin _ Hu He) as (q & Hq & Hlt).
    rewrite Hq, Hp, one_sub_fin, mul_fin. cbn [qval].
    exists (a * (1 - q)), b. rewrite Qprod_cons. cbn [Qprod fold_right].
    repeat split; auto; try ring; simpl; lia.
  - exists a, b. cbn [Qprod fold_right].
    repeat split; auto; try ring; simpl; lia.
  - destruct (unsaturated_fin _ Hu He) as (q & Hq & Hlt).
    rewrite Hq, Hm, one_sub_fin, mul_fin. cbn [qval].
    exists a, (b * (1 - q)). rewrite Qprod_cons. cbn [Qprod fold_right].
    repeat split; auto; try ring; simpl; lia.
  - exists a, b. cbn [Qprod fold_right].
    repeat split; auto; try ring; simpl; lia.
  - exists a, b. cbn [Qprod fold_right map length].
    repeat split; auto; try ring; simpl; lia.
Qed.

Lemma subProduct_fold g L :
  (∀ e, e ∈ L → Edge.survey (getEdge g e) ≠ NInf) →
  ∀ acc a b, Var.p acc = Fin a → Var.m acc = Fin b →
    let r := fold_left (subProductStep P g) L acc in
    ∃ a' b',
      Var.p r = Fin a' ∧ a' == a * Qprod (factorsOf P g true L)
      ∧ Var.m r = Fin b' ∧ b' == b * Qprod (factorsOf P g false L)
      ∧ Var.pzero r
        = (Var.pzero acc + Z.of_nat (length (saturatedOf P g true L)))%Z
      ∧ Var.mzero r
        = (Var.mzero acc + Z.of_nat (length (saturatedOf P g false L)))%Z
      ∧ Var.allNeighbourEdges r = Var.allNeighbourEdges acc
      ∧ Var.assigned r = Var.assigned acc.
Proof.
  induction L as [|e L IH]; intros Hsurv acc a b Hp Hm.
  - simpl. exists a, b. unfold factorsOf, saturatedOf. simpl.
    repeat split; auto; try ring; lia.
  - assert (Hsurv' : ∀ e', e' ∈ L → Edge.survey (getEdge g e') ≠ NInf).
    { intros e' Hin. apply Hsurv, elem_of_cons. auto. }
    assert (He : Edge.survey (getEdge g e) ≠ NInf).
    { apply Hsurv, elem_of_cons. auto. }
    destruct (subProductStep_fields g acc e a b He Hp Hm)
      as (a1 & b1 & Hp1 & Ha1 & Hm1 & Hb1 & Hz1 & Hz1' & Hl1 & Has1).
    destruct (IH Hsurv' _ a1 b1 Hp1 Hm1)
      as (a' & b' & H1 & H2 & H3 & H4 & H5 & H6 & H7 & H8).
    exists a', b'. cbn [fold_left].
    change (e :: L) with ([e] ++ L).
    rewrite !factorsOf_app, !saturatedOf_app, !length_app.
    repeat split; try congruence.
    + rewrite H2, Ha1, Qprod_app. ring.
    + rewrite H4, Hb1, Qprod_app. ring.
    + rewrite H5, Hz1. lia.
    + rewrite H6, Hz1'. lia.
Qed.
Lemma recomputeVar_sideOK g var :
  (∀ e, e ∈ Var.allNeighbourEdges var → Edge.survey (getEdge g e) ≠ NInf) →
  let r := recomputeVar P g var in
  sideOK P g true (Var.p r) (Var.pzero r) (Var.allNeighbourEdges var)
  ∧ sideOK P g false (Var.m r) (Var.mzero r) (Var.allNeighbourEdges var)
  ∧ Var.allNeighbourEdges r = Var.allNeighbourEdges var
  ∧ Var.assigned r = Var.assigned var.
Proof.
  intros Hsurv. unfold recomputeVar.
  destruct (subProduct_fold g (Var.allNeighbourEdges var) Hsurv
              (Var.set_cache one one 0 0 var) 1 1 eq_refl eq_refl)
    as (a' & b' & H1 & H2 & H3 & H4 & H5 & H6 & H7 & H8).
  simpl in *. unfold sideOK. rewrite H1, H3, H5, H6.
  repeat split; auto; simpl.
  - rewrite H2. ring.
  - rewrite H4. ring.
Qed.

(** The cache of [v] satisfies I1 exactly when it agrees with what
    [computeSubProducts] would store. *)
Lemma I1_iff_recompute g v :
  (∀ e, Edge.survey (getEdge g e) ≠ NInf) →
  I1 P g v ↔ cacheEq (getVar g v) (recomputeVar P g (getVar g v)).
Proof.
  intros Hsurv.
  destruct (recomputeVar_sideOK g (getVar g v))
    as ((Hp & Hpz) & (Hm & Hmz) & _); [auto|].
  unfold I1, sideOK, cacheEq. rewrite <- Hpz, <- Hmz. split.
  - intros ((Hp' & ->) & (Hm' & ->)). repeat split; auto.
    + eapply eqv_trans; [exact Hp'|now apply eqv_sym].
    + eapply eqv_trans; [exact Hm'|now apply eqv_sym].
  - intros (Hp' & -> & Hm' & ->). repeat split; auto.
    + eapply eqv_trans; eauto.
    + eapply eqv_trans; eauto.
Qed.

Lemma side_frame g g1 t L :
  (∀ e, e ∈ L → getEdge g1 e = getEdge g e) →
  factorsOf P g1 t L = factorsOf P g t L
  ∧ saturatedOf P g1 t L = saturatedOf P g t L.
Proof.
  induction L as [|e L IH]; intros Hsame; [split; reflexivity|].
  destruct IH as [IHf IHs].
  { intros e' Hin. apply Hsame, elem_of_cons. auto. }
  unfold factorsOf, saturatedOf, onSide in *. cbn [List.filter].
  rewrite (Hsame e) by (apply elem_of_cons; auto).
  split.
  - destruct (_ && _); cbn [map]; rewrite ?(Hsame e), IHf; auto;
      apply elem_of_cons; auto.
  - destruct (_ && _); rewrite IHs; auto.
Qed.

Lemma computeSubProducts_getVar g v :
  getVar (computeSubProducts P g) v
  = if Var.assigned (getVar g v) then getVar g v
    else recomputeVar P g (getVar g v).
Proof.
  unfold getVar, computeSubProducts. simpl.
  change (map ?f ?l) with (f <$> l). rewrite list_lookup_fmap.
  destruct (variables g !! v); reflexivity.
Qed.

(** [computeSubProducts] establishes I1 for every unassigned variable. *)
Lemma computeSubProducts_I1 g v :
  (∀ e, Edge.survey (getEdge g e) ≠ NInf) →
  Var.assigned (getVar g v) = false →
  I1 P (computeSubProducts P g) v.
Proof.
  intros Hsurv Hun. unfold I1.
  rewrite computeSubProducts_getVar, Hun.
  destruct (recomputeVar_sideOK g (getVar g v))
    as (Hp & Hm & Hl & _); [auto|].
  rewrite Hl.
  destruct (side_frame g (computeSubProducts P g) true
              (Var.allNeighbourEdges (getVar g v))) as [Hf Hs];
    [reflexivity|].
  destruct (side_frame g (computeSubProducts P g) false
              (Var.allNeighbourEdges (getVar g v))) as [Hf' Hs'];
    [reflexivity|].
  unfold sideOK in *. rewrite Hf, Hs, Hf', Hs'. auto.
Qed.

(** *** Invariant I1: the in-place patch *)

Lemma patchSubProduct_side ty old new var :
  let var' := patchSubProduct P ty old new var in
  Var.allNeighbourEdges var' = Var.allNeighbourEdges var
  ∧ Var.assigned var' = Var.assigned var
  ∧ if ty
    then (Var.p var', Var.pzero var')
         = patchSide P old new (Var.p var) (Var.pzero var)
         ∧ Var.m var' = Var.m var ∧ Var.mzero var' = Var.mzero var
    else (Var.m var', Var.mzero var')
         = patchSide P old new (Var.m var) (Var.mzero var)
         ∧ Var.p var' = Var.p var ∧ Var.pzero var' = Var.pzero var.
Proof.
  unfold patchSubProduct, patchSide, unsaturated.
  destruct ty, (one - old >? ZERO_EPSILON P)%D,
    (one - new >? ZERO_EPSILON P)%D; simpl; auto.
Qed.

(** The four cases of the patch, on one side: the product and the counter
    follow the change of one factor. *)
Lemma patchSide_correct old new x z (A1 A2 : Q) (c1 c2 : nat) :
  old ≠ NInf → new ≠ NInf →
  (x ≈ Fin (A1 * ((if unsaturated P old then 1 - qval old else 1) * A2)))%D →
  z = Z.of_nat (c1 + ((if unsaturated P old then 0 else 1) + c2)) →
  let '(x', z') := patchSide P old new x z in
  (x' ≈ Fin (A1 * ((if unsaturated P new then 1 - qval new else 1) * A2)))%D
  ∧ z' = Z.of_nat (c1 + ((if unsaturated P new then 0 else 1) + c2)).
Proof.
  intros Ho Hn Hx ->. unfold patchSide.
  apply eqv_fin in Hx as (a & -> & Ha).
  destruct (unsaturated P old) eqn:Hso, (unsaturated P new) eqn:Hsn.
  - destruct (unsaturated_fin _ Hso Ho) as (qo & -> & Hqo).
    destruct (unsaturated_fin _ Hsn Hn) as (qn & -> & Hqn).
    rewrite !one_sub_fin, div_fin, mul_fin by lra. simpl in *.
    split; [|reflexivity]. rewrite Ha. field. lra.
  - destruct (unsaturated_fin _ Hso Ho) as (qo & -> & Hqo).
    rewrite !one_sub_fin, div_fin by lra. simpl in *.
    split; [|lia]. rewrite Ha. field. lra.
  - destruct (unsaturated_fin _ Hsn Hn) as (qn & -> & Hqn).
    rewrite !one_sub_fin, mul_fin. simpl in *.
    split; [|lia]. rewrite Ha. ring.
  - simpl. split; [exact Ha|reflexivity].
Qed.
Lemma eqv_fin_eq (x : dbl) (a b : Q) : a == b → (x ≈ Fin a)%D → (x ≈ Fin b)%D.
Proof. destruct x; simpl; auto. intros H1 H2. now rewrite H2. Qed.

Lemma sideOK_split g t x z l1 e l2 :
  sideOK P g t x z (l1 ++ e :: l2)
  ↔ (x ≈ Fin (Qprod (factorsOf P g t l1)
               * ((if onSide g t e
                      && unsaturated P (Edge.survey (getEdge g e))
                   then 1 - qval (Edge.survey (getEdge g e)) else 1)
                  * Qprod (factorsOf P g t l2))))%D
    ∧ z = Z.of_nat (length (saturatedOf P g t l1)
                    + ((if onSide g t e
                           && unsaturated P (Edge.survey (getEdge g e))
                        then 0 else if onSide g t e then 1 else 0)
                       + length (saturatedOf P g t l2))).
Proof.
  unfold sideOK. change (e :: l2) with ([e] ++ l2).
  rewrite !factorsOf_app, !saturatedOf_app, !length_app.
  assert (Hf : Qprod (factorsOf P g t l1 ++ factorsOf P g t [e]
                      ++ factorsOf P g t l2)
               == Qprod (factorsOf P g t l1)
                  * ((if onSide g t e
                         && unsaturated P (Edge.survey (getEdge g e))
                      then 1 - qval (Edge.survey (getEdge g e)) else 1)
                     * Qprod (factorsOf P g t l2))).
  { rewrite !Qprod_app. unfold factorsOf at 2. cbn [List.filter].
    destruct (_ && _); cbn [map Qprod fold_right]; ring. }
  assert (Hs : length (saturatedOf P g t [e])
               = if onSide g t e && unsaturated P (Edge.survey (getEdge g e))
                 then 0%nat else if onSide g t e then 1%nat else 0%nat).
  { unfold saturatedOf. cbn [List.filter].
    destruct (onSide g t e), (unsaturated P _); reflexivity. }
  rewrite Hs. split; intros [Hx Hz]; (split; [|exact Hz]).
  - eapply eqv_fin_eq; [exact Hf|exact Hx].
  - eapply eqv_fin_eq; [symmetry; exact Hf|exact Hx].
Qed.

(** One iteration of the write-back loop keeps I1 at every variable. *)
Lemma writeBack_edge_I1 g e n v :
  wellFormed g →
  (e < length (edges g))%nat →
  Edge.enabled (getEdge g e) = true →
  Edge.survey (getEdge g e) ≠ NInf → n ≠ NInf →
  I1 P g v →
  I1 P (updEdge (Edge.set_survey n) e
          (updVar (patchSubProduct P (Edge.type (getEdge g e))
                     (Edge.survey (getEdge g e)) n)
                  (Edge.variable (getEdge g e)) g)) v.
Proof.
  intros (W1 & W2 & W3 & W4) He Hen Ho Hn HI.
  set (w := Edge.variable (getEdge g e)).
  set (ty := Edge.type (getEdge g e)).
  set (o := Edge.survey (getEdge g e)).
  set (g0 := updVar (patchSubProduct P ty o n) w g).
  set (g1 := updEdge (Edge.set_survey n) e g0).
  assert (Hedge : ∀ e', getEdge g1 e'
                        = if decide (e = e')
                          then Edge.set_survey n (getEdge g e')
                          else getEdge g e').
  { intros e'. unfold g1. rewrite getEdge_set_survey by exact He.
    reflexivity. }
  destruct (W4 e He) as [Hin _]. fold w in Hin.
  assert (Hw : (w < length (variables g))%nat).
  { destruct (decide (w < length (variables g))%nat) as [|Hge]; [assumption|].
    unfold getVar in Hin.
    rewrite (proj2 (lookup_ge_None (variables g) w)) in Hin by lia.
    now apply elem_of_nil in Hin. }
  assert (Hframe : ∀ t L, e ∉ L →
            factorsOf P g1 t L = factorsOf P g t L
            ∧ saturatedOf P g1 t L = saturatedOf P g t L).
  { intros t L HnotIn. apply side_frame. intros e' Hin'. rewrite Hedge.
    destruct (decide (e = e')) as [->|]; [contradiction|reflexivity]. }
  destruct (decide (w = v)) as [<-|Hne].
  - (* the variable of the edge *)
    assert (Hvar : getVar g1 w = patchSubProduct P ty o n (getVar g w)).
    { unfold g1, g0. now apply getVar_updVar_eq. }
    destruct (patchSubProduct_side ty o n (getVar g w))
      as (Hl & _ & Hside).
    unfold I1 in *. rewrite Hvar, Hl.
    destruct (list_elem_of_split _ _ Hin) as (l1 & l2 & HL).
    pose proof (W3 w) as Hnd. rewrite HL in Hnd |- *. rewrite HL in HI.
    apply NoDup_app in Hnd as (_ & Hl1 & Hnd2).
    apply NoDup_cons in Hnd2 as [Hl2 _].
    assert (Hnot1 : e ∉ l1).
    { intros Hin1. apply (Hl1 e Hin1), elem_of_cons. auto. }
    destruct HI as [HIp HIm].
    rewrite sideOK_split in HIp, HIm. rewrite !sideOK_split.
    destruct (Hframe true l1 Hnot1) as [-> ->].
    destruct (Hframe true l2 Hl2) as [-> ->].
    destruct (Hframe false l1 Hnot1) as [-> ->].
    destruct (Hframe false l2 Hl2) as [-> ->].
    assert (Hon : ∀ t, onSide g1 t e = Bool.eqb ty t
                       ∧ onSide g t e = Bool.eqb ty t).
    { intros t. unfold onSide. rewrite Hedge.
      destruct (decide (e = e)); [|contradiction]. simpl.
      fold ty. rewrite Hen. auto. }
    assert (Hs1 : Edge.survey (getEdge g1 e) = n).
    { rewrite Hedge. now destruct (decide (e = e)). }
    rewrite Hs1. fold o in HIp, HIm.
    destruct (Hon true) as [-> Hont], (Hon false) as [-> Honf].
    rewrite Hont in HIp. rewrite Honf in HIm.
    destruct ty; simpl in Hside, HIp, HIm |- *;
      destruct Hside as (Hpatch & Hkeep1 & Hkeep2).
    + rewrite Hkeep1, Hkeep2. split; [|exact HIm].
      destruct HIp as [Hx Hz].
      pose proof (patchSide_correct o n _ _ _ _ _ _ Ho Hn
                    ltac:(destruct (unsaturated P o); exact Hx)
                    ltac:(destruct (unsaturated P o); exact Hz)) as Hpc.
      rewrite <- Hpatch in Hpc. destruct Hpc as [Hx' Hz'].
      destruct (unsaturated P n); auto.
    + rewrite Hkeep1, Hkeep2. split; [exact HIp|].
      destruct HIm as [Hx Hz].
      pose proof (patchSide_correct o n _ _ _ _ _ _ Ho Hn
                    ltac:(destruct (unsaturated P o); exact Hx)
                    ltac:(destruct (unsaturated P o); exact Hz)) as Hpc.
      rewrite <- Hpatch in Hpc. destruct Hpc as [Hx' Hz'].
      destruct (unsaturated P n); auto.
  - (* any other variable *)
    assert (Hvar : getVar g1 v = getVar g v).
    { unfold g1, g0. now apply getVar_updVar_ne. }
    unfold I1 in *. rewrite Hvar.
    assert (HnotIn : e ∉ Var.allNeighbourEdges (getVar g v)).
    { intros Hin'. destruct (W1 v e Hin') as [_ Hv]. now apply Hne. }
    unfold sideOK in *.
    destruct (Hframe true _ HnotIn) as [-> ->].
    destruct (Hframe false _ HnotIn) as [-> ->]. exact HI.
Qed.
(** *** The new surveys are never negative *)

Lemma sgn_nonneg (a : Q) : 0 <= a → (a ?= 0) ≠ Lt.
Proof. intros Ha Hlt. apply Qlt_alt in Hlt. lra. Qed.

Lemma nonneg_of_sgn (a : Q) : 0 <= a → nonneg (of_sgn (a ?= 0)).
Proof.
  intros Ha. pose proof (sgn_nonneg a Ha). now destruct (a ?= 0).
Qed.

Lemma nonneg_add (x y : dbl) : nonneg x → nonneg y → nonneg (x + y)%D.
Proof. destruct x, y; simpl; auto. intros. lra. Qed.

Lemma nonneg_mul (x y : dbl) : nonneg x → nonneg y → nonneg (x * y)%D.
Proof.
  destruct x as [a| | |], y as [b| | |]; simpl; auto; try contradiction.
  - intros. nra.
  - intros Ha _. pose proof (sgn_nonneg a Ha). now destruct (a ?= 0).
  - intros _ Hb. pose proof (sgn_nonneg b Hb). now destruct (b ?= 0).
Qed.

Lemma nonneg_div (x y : dbl) : nonneg x → nonneg y → nonneg (x / y)%D.
Proof.
  destruct x as [a| | |], y as [b| | |]; simpl; auto; try contradiction.
  - intros Ha Hb. destruct (Qeq_bool b 0) eqn:Hb0.
    + now apply nonneg_of_sgn.
    + simpl. apply Qeq_bool_neq in Hb0.
      apply Qle_shift_div_l; lra.
  - intros. lra.
  - intros _ Hb. destruct (Qltb b 0) eqn:Hlt; [|exact I].
    apply Qltb_lt in Hlt. lra.
Qed.

Lemma nonneg_one_sub (c : Q) : c <= 1 → nonneg (one - Fin c)%D.
Proof. rewrite one_sub_fin. simpl. lra. Qed.

Lemma nonneg_not_NInf (x : dbl) : nonneg x → x ≠ NInf.
Proof. now destruct x. Qed.

Create HintDb nonneg.
#[local] Hint Resolve nonneg_add nonneg_mul nonneg_div nonneg_one_sub : nonneg.
#[local] Hint Extern 1 (nonneg (Fin _)) => simpl; lra : nonneg.
#[local] Hint Extern 1 (nonneg zero) => simpl; lra : nonneg.
#[local] Hint Extern 1 (_ <= _) => lra : nonneg.

Lemma Qprod_unit (l : list Q) :
  (∀ x, In x l → 0 < x ∧ x <= 1) → 0 < Qprod l ∧ Qprod l <= 1.
Proof.
  induction l as [|x l IH]; intros Hall; simpl; [lra|].
  destruct (Hall x (or_introl eq_refl)) as [Hx0 Hx1].
  destruct IH as [H0 H1]; [intros y Hy; apply Hall; now right|].
  unfold Qprod in *. split; nra.
Qed.

Lemma factorsOf_unit g t L :
  (∀ e, nonneg (Edge.survey (getEdge g e))) →
  ∀ x, In x (factorsOf P g t L) → 0 < x ∧ x <= 1.
Proof.
  intros Hsurv x Hin. unfold factorsOf in Hin.
  apply in_map_iff in Hin as (e & <- & Hin).
  apply List.filter_In in Hin as [_ Hcond].
  apply andb_prop in Hcond as [_ Hu].
  pose proof (Hsurv e) as Hnn.
  destruct (unsaturated_fin _ Hu (nonneg_not_NInf _ Hnn))
    as (q & Hq & Hlt).
  rewrite Hq in Hnn |- *. simpl in *. lra.
Qed.

(** Under I1 the cached products are finite and in [(0, 1]]. *)
Lemma I1_cache_range g v :
  (∀ e, nonneg (Edge.survey (getEdge g e))) → I1 P g v →
  ∃ a b, Var.p (getVar g v) = Fin a ∧ 0 < a ∧ a <= 1
         ∧ Var.m (getVar g v) = Fin b ∧ 0 < b ∧ b <= 1.
Proof.
  intros Hsurv ((Hp & _) & (Hm & _)).
  apply eqv_fin in Hp as (a & Ha & Hae). apply eqv_fin in Hm as (b & Hb & Hbe).
  pose proof (Qprod_unit _ (factorsOf_unit g true
                (Var.allNeighbourEdges (getVar g v)) Hsurv)) as [? ?].
  pose proof (Qprod_unit _ (factorsOf_unit g false
                (Var.allNeighbourEdges (getVar g v)) Hsurv)) as [? ?].
  exists a, b. repeat split; auto; lra.
Qed.

(** Under I1 a zero counter means that no enabled edge of that side is
    saturated. *)
Lemma I1_zero_counter g t L e :
  Z.of_nat (length (saturatedOf P g t L)) = 0%Z → e ∈ L →
  onSide g t e = true → unsaturated P (Edge.survey (getEdge g e)) = true.
Proof.
  intros Hlen Hin Hon.
  destruct (unsaturated P (Edge.survey (getEdge g e))) eqn:Hu; [reflexivity|].
  assert (Hmem : In e (saturatedOf P g t L)).
  { unfold saturatedOf. apply List.filter_In. split.
    - now apply list_elem_of_In.
    - now rewrite Hon, Hu. }
  destruct (saturatedOf P g t L); [contradiction|simpl in Hlen; lia].
Qed.

Lemma subSurveyOf_nonneg g e :
  wellFormed g →
  (∀ e, nonneg (Edge.survey (getEdge g e))) →
  Edge.enabled (getEdge g e) = true →
  I1 P g (Edge.variable (getEdge g e)) →
  nonneg (subSurveyOf P (getVar g (Edge.variable (getEdge g e)))
                      (getEdge g e)).
Proof.
  intros (_ & _ & _ & W4) Hsurv Hen HI.
  assert (He : (e < length (edges g))%nat).
  { destruct (decide (e < length (edges g))%nat) as [|Hge]; [assumption|].
    unfold getEdge in Hen.
    rewrite (proj2 (lookup_ge_None (edges g) e)) in Hen by lia.
    discriminate. }
  destruct (W4 e He) as [Hin _].
  destruct (I1_cache_range g _ Hsurv HI)
    as (a & b & Hp & Ha0 & Ha1 & Hm & Hb0 & Hb1).
  destruct HI as ((_ & Hpz) & (_ & Hmz)).
  set (var := getVar g (Edge.variable (getEdge g e))) in *.
  assert (Hdiv : ∀ t c, 0 < c →
            Edge.type (getEdge g e) = t →
            Z.of_nat (length (saturatedOf P g t (Var.allNeighbourEdges var)))
            = 0%Z →
            nonneg (Fin c / (one - Edge.survey (getEdge g e)))%D).
  { intros t c Hc Hty Hzero.
    assert (Hu : unsaturated P (Edge.survey (getEdge g e)) = true).
    { eapply I1_zero_counter; eauto. unfold onSide.
      rewrite Hen, Hty. now destruct t. }
    destruct (unsaturated_fin _ Hu (nonneg_not_NInf _ (Hsurv e)))
      as (q & -> & Hq).
    apply nonneg_div; [simpl; lra|apply nonneg_one_sub].
    pose proof (Hsurv e) as Hnn. lra. }
  unfold subSurveyOf, subSurveyWeights. rewrite Hp, Hm.
  destruct (Edge.type (getEdge g e)) eqn:Hty.
  - assert (Hm' : ∃ c, (if nz (Var.mzero var) then zero else Fin b) = Fin c
                       ∧ 0 <= c ∧ c <= 1).
    { destruct (nz (Var.mzero var)); eexists; split;
        try reflexivity; lra. }
    destruct Hm' as (c & -> & Hc0 & Hc1).
    assert (Hp' : nonneg
              (if (Var.pzero var =? 0)%Z
               then (Fin a / (one - Edge.survey (getEdge g e)))%D
               else if (Var.pzero var =? 1)%Z
                       && (one - Edge.survey (getEdge g e)
                           <? ZERO_EPSILON P)%D
                    then Fin a else zero)).
    { destruct (Var.pzero var =? 0)%Z eqn:Hz.
      - apply Z.eqb_eq in Hz. apply (Hdiv true); auto. congruence.
      - destruct (_ && _); auto with nonneg. }
    auto 6 with nonneg.
  - assert (Hp' : ∃ c, (if nz (Var.pzero var) then zero else Fin a) = Fin c
                       ∧ 0 <= c ∧ c <= 1).
    { destruct (nz (Var.pzero var)); eexists; split;
        try reflexivity; lra. }
    destruct Hp' as (c & -> & Hc0 & Hc1).
    assert (Hm' : nonneg
              (if (Var.mzero var =? 0)%Z
               then (Fin b / (one - Edge.survey (getEdge g e)))%D
               else if (Var.mzero var =? 1)%Z
                       && (one - Edge.survey (getEdge g e)
                           <? ZERO_EPSILON P)%D
                    then Fin b else zero)).
    { destruct (Var.mzero var =? 0)%Z eqn:Hz.
      - apply Z.eqb_eq in Hz. apply (Hdiv false); auto. congruence.
      - destruct (_ && _); auto with nonneg. }
    auto 6 with nonneg.
Qed.
Lemma enabled_valid g e :
  Edge.enabled (getEdge g e) = true → (e < length (edges g))%nat.
Proof.
  intros Hen. destruct (decide (e < length (edges g))%nat) as [|Hge];
    [assumption|].
  unfold getEdge in Hen.
  rewrite (proj2 (lookup_ge_None (edges g) e)) in Hen by lia. discriminate.
Qed.

Lemma collect_nonneg g es :
  wellFormed g → surveysNonneg g →
  (∀ e, e ∈ es → Edge.enabled (getEdge g e) = true →
        I1 P g (Edge.variable (getEdge g e))) →
  ∀ acc, nonneg (allSubSurveys acc) → Forall nonneg (subSurveys acc) →
    let r := fold_left (collectStep P g) es acc in
    nonneg (allSubSurveys r) ∧ Forall nonneg (subSurveys r).
Proof.
  intros Hwf Hsurv. induction es as [|e es IH]; intros HI acc Hall Hsubs.
  - simpl. auto.
  - cbn [fold_left]. apply IH.
    + intros e' Hin. apply HI, elem_of_cons. auto.
    + unfold collectStep.
      destruct (Edge.enabled (getEdge g e)) eqn:Hen; [|exact Hall].
      pose proof (subSurveyOf_nonneg g e Hwf Hsurv Hen
                    (HI e ltac:(apply elem_of_cons; auto) Hen)) as Hs.
      destruct (_ <? _)%D; simpl; auto with nonneg.
    + unfold collectStep.
      destruct (Edge.enabled (getEdge g e)) eqn:Hen; [|exact Hsubs].
      pose proof (subSurveyOf_nonneg g e Hwf Hsurv Hen
                    (HI e ltac:(apply elem_of_cons; auto) Hen)) as Hs.
      destruct (_ <? _)%D; simpl; apply Forall_app; auto.
Qed.

Lemma newSurveyOf_nonneg acc i :
  nonneg (allSubSurveys acc) → Forall nonneg (subSurveys acc) →
  nonneg (newSurveyOf P acc i).
Proof.
  intros Hall Hsubs. unfold newSurveyOf.
  assert (Hs : nonneg (default NaN (subSurveys acc !! i))).
  { destruct (subSurveys acc !! i) as [s|] eqn:Hl; [|exact I].
    simpl. eapply Forall_lookup_1; eauto. }
  destruct (zeros acc =? 0)%Z; [|destruct (_ && _)]; auto with nonneg.
Qed.

(** *** Invariant I1: the write-back loop *)

Lemma writeBackStep_frame acc st e :
  let g := wb_graph st in
  let g' := wb_graph (writeBackStep P acc st e) in
  sameShape g g'
  ∧ (∀ v, Var.assigned (getVar g' v) = Var.assigned (getVar g v))
  ∧ (∀ e', Edge.enabled (getEdge g' e') = Edge.enabled (getEdge g e'))
  ∧ (∀ c, getClause g' c = getClause g c)
  ∧ (∀ e', Edge.survey (getEdge g' e') = Edge.survey (getEdge g e')
           ∨ Edge.survey (getEdge g' e') = newSurveyOf P acc (wb_i st)).
Proof.
  unfold writeBackStep. cbn zeta.
  destruct (Edge.enabled (getEdge (wb_graph st) e)) eqn:Hen.
  2:{ split; [apply sameShape_refl|]. auto. }
  cbn [wb_graph].
  set (g := wb_graph st).
  set (f := patchSubProduct P (Edge.type (getEdge g e))
              (Edge.survey (getEdge g e)) (newSurveyOf P acc (wb_i st))).
  set (w := Edge.variable (getEdge g e)).
  assert (Hvar : ∀ v, getVar (updVar f w g) v = getVar g v
                      ∨ getVar (updVar f w g) v = f (getVar g v)).
  { intros v. destruct (decide (w = v)) as [<-|Hne].
    - destruct (decide (w < length (variables g))%nat).
      + right. now apply getVar_updVar_eq.
      + left. rewrite getVar_updVar_ge by lia. reflexivity.
    - left. now apply getVar_updVar_ne. }
  assert (Hedge : ∀ e', getEdge (updEdge (Edge.set_survey
                                   (newSurveyOf P acc (wb_i st))) e
                                 (updVar f w g)) e'
                        = if decide (e = e')
                          then Edge.set_survey (newSurveyOf P acc (wb_i st))
                                               (getEdge g e')
                          else getEdge g e').
  { intros e'. rewrite getEdge_set_survey; [reflexivity|].
    exact (enabled_valid g e Hen). }
  split; [|split; [|split; [|split]]].
  - unfold sameShape. repeat split; try (simpl; apply length_alter).
    + intros v. change (getVar (updEdge _ e (updVar f w g)) v)
        with (getVar (updVar f w g) v).
      destruct (Hvar v) as [-> | ->]; [reflexivity|].
      apply (patchSubProduct_side _ _ _ (getVar g v)).
    + rewrite Hedge. now destruct (decide _).
    + rewrite Hedge. now destruct (decide _).
    + rewrite Hedge. now destruct (decide _).
  - intros v. change (getVar (updEdge _ e (updVar f w g)) v)
      with (getVar (updVar f w g) v).
    destruct (Hvar v) as [-> | ->]; [reflexivity|].
    apply (patchSubProduct_side _ _ _ (getVar g v)).
  - intros e'. rewrite Hedge. now destruct (decide _).
  - reflexivity.
  - intros e'. rewrite Hedge. destruct (decide _); auto.
Qed.

Lemma writeBack_fold_I1 acc es :
  (∀ i, nonneg (newSurveyOf P acc i)) →
  ∀ st, wellFormed (wb_graph st) → surveysNonneg (wb_graph st) →
    let g := wb_graph st in
    let g' := wb_graph (fold_left (writeBackStep P acc) es st) in
    wellFormed g' ∧ surveysNonneg g'
    ∧ (∀ v, Var.assigned (getVar g' v) = Var.assigned (getVar g v))
    ∧ (∀ e, Edge.enabled (getEdge g' e) = Edge.enabled (getEdge g e))
    ∧ (∀ e, Edge.variable (getEdge g' e) = Edge.variable (getEdge g e))
    ∧ (∀ c, getClause g' c = getClause g c)
    ∧ ∀ v, I1 P g v → I1 P g' v.
Proof.
  intros Hnew. induction es as [|e es IH]; intros st Hwf Hsurv.
  - simpl. auto 10.
  - cbn [fold_left].
    destruct (writeBackStep_frame acc st e)
      as (Hshape & Has & Hen & Hcl & Hsv).
    pose proof (wellFormed_sameShape _ _ Hwf Hshape) as Hwf1.
    assert (Hsurv1 : surveysNonneg (wb_graph (writeBackStep P acc st e))).
    { intros e'. destruct (Hsv e') as [-> | ->]; auto. }
    destruct (IH _ Hwf1 Hsurv1) as (Hwf' & Hsurv' & Has' & Hen' & Hv' & Hcl' & HI').
    cbn zeta. split; [exact Hwf'|]. split; [exact Hsurv'|].
    split; [intros v; now rewrite Has', Has|].
    split; [intros e'; now rewrite Hen', Hen|].
    split; [intros e'; rewrite Hv';
            now destruct Hshape as (_ & _ & _ & _ & _ & Hel);
            destruct (Hel e') as (_ & -> & _)|].
    split; [intros c; now rewrite Hcl', Hcl|].
    intros v HI. apply HI'. unfold writeBackStep. cbn zeta.
    destruct (Edge.enabled (getEdge (wb_graph st) e)) eqn:Hene; [|exact HI].
    cbn [wb_graph].
    apply writeBack_edge_I1; auto.
    + exact (enabled_valid _ _ Hene).
    + apply nonneg_not_NInf, Hsurv.
    + apply nonneg_not_NInf, Hnew.
Qed.

(** [updateSurveys] keeps what survey propagation maintains. *)
Lemma updateSurveys_spInvariant g c :
  spInvariant P g →
  Clause.enabled (getClause g c) = true →
  spInvariant P (snd (updateSurveys P g c)).
Proof.
  intros (Hwf & Hsurv & Hlive & HI) Hc.
  unfold updateSurveys. cbn [snd].
  set (es := Clause.allNeighbourEdges (getClause g c)).
  assert (Hnew : ∀ i, nonneg (newSurveyOf P (collectSubSurveys P g c) i)).
  { intros i. unfold collectSubSurveys. fold es.
    destruct (collect_nonneg g es Hwf Hsurv) with
      (acc := mkSubSurveys 0 one []) as [Hall Hsubs].
    - intros e Hin Hen. apply HI. now apply (Hlive c).
    - simpl. lra.
    - constructor.
    - now apply newSurveyOf_nonneg. }
  destruct (writeBack_fold_I1 (collectSubSurveys P g c) es Hnew
              (mkWriteBack g 0 zero) Hwf Hsurv)
    as (Hwf' & Hsurv' & Has' & Hen' & Hv' & Hcl' & HI').
  cbn [wb_graph] in *.
  split; [exact Hwf'|]. split; [exact Hsurv'|]. split.
  - intros c' e Hc' Hin Hen. rewrite Hcl' in Hc', Hin.
    rewrite Hen' in Hen. rewrite Has', Hv'. now apply (Hlive c').
  - intros v Hun. apply HI', HI. now rewrite <- Has'.
Qed.

End SubProductCache.

Lemma computeSubProducts_sameShape P ε g :
  ZERO_EPSILON P = Fin ε → surveysNonneg g →
  sameShape g (computeSubProducts P g)
  ∧ ∀ v, Var.assigned (getVar (computeSubProducts P g) v)
         = Var.assigned (getVar g v).
Proof.
  intros Heps Hsurv.
  assert (Hv : ∀ v, Var.allNeighbourEdges (getVar (computeSubProducts P g) v)
                    = Var.allNeighbourEdges (getVar g v)
                    ∧ Var.assigned (getVar (computeSubProducts P g) v)
                      = Var.assigned (getVar g v)).
  { intros v. rewrite computeSubProducts_getVar.
    destruct (Var.assigned (getVar g v)) eqn:Ha; [auto|].
    destruct (recomputeVar_sideOK P ε Heps g (getVar g v))
      as (_ & _ & Hl & Has).
    - intros e _. apply nonneg_not_NInf, Hsurv.
    - split; [exact Hl|]. now rewrite Has. }
  split; [|intros v; apply Hv].
  unfold sameShape. repeat split; try reflexivity.
  - simpl. apply length_map.
  - intros v. apply Hv.
Qed.

(** [computeSubProducts] sets up what survey propagation maintains. *)
Lemma computeSubProducts_spInvariant P ε g :
  ZERO_EPSILON P = Fin ε → wellFormed g → surveysNonneg g →
  liveEdgesUnassigned g → spInvariant P (computeSubProducts P g).
Proof.
  intros Heps Hwf Hsurv Hlive.
  destruct (computeSubProducts_sameShape P ε g Heps Hsurv) as [Hshape Has].
  split; [exact (wellFormed_sameShape _ _ Hwf Hshape)|].
  split; [exact Hsurv|]. split.
  - intros c e Hc Hin Hen. rewrite Has. now apply (Hlive c).
  - intros v Hun. rewrite Has in Hun.
    apply (computeSubProducts_I1 P ε Heps); auto.
    intros e. apply nonneg_not_NInf, Hsurv.
Qed.

Lemma spInvariant_recompute P ε g v :
  ZERO_EPSILON P = Fin ε → spInvariant P g →
  Var.assigned (getVar g v) = false →
  cacheEq (getVar g v) (getVar (computeSubProducts P g) v).
Proof.
  intros Heps (_ & Hsurv & _ & HI) Hun.
  rewrite computeSubProducts_getVar, Hun.
  apply (I1_iff_recompute P ε Heps g v); [|now apply HI].
  intros e. apply nonneg_not_NInf, Hsurv.
Qed.


Lemma spInvariant_binaryClause :
  spInvariant (defaults false)
              (computeSubProducts (defaults false) (binaryClause half half)).
Proof.
  apply (computeSubProducts_spInvariant _ (1 # 10000000000000000));
    [reflexivity| | |].
  - apply wellFormedb_sound. vm_compute. reflexivity.
  - intros [|[|e]]; vm_compute; try exact I; discriminate.
  - intros [|c] e Hc Hin Hen; [|discriminate].
    apply elem_of_cons in Hin as [->|Hin]; [reflexivity|].
    apply elem_of_cons in Hin as [->|Hin]; [reflexivity|].
    now apply elem_of_nil in Hin.
Qed.


(** *** Invariant I1 along a run of survey propagation *)

Lemma updateSurveys_clauses P g c c' :
  getClause (snd (updateSurveys P g c)) c' = getClause g c'.
Proof.
  assert (H : ∀ acc es st,
            getClause (wb_graph (fold_left (writeBackStep P acc) es st)) c'
            = getClause (wb_graph st) c').
  { intros acc. induction es as [|e es IH]; intros st; [reflexivity|].
    cbn [fold_left]. rewrite IH.
    now destruct (writeBackStep_frame P acc st e) as (_ & _ & _ & Hcl & _). }
  unfold updateSurveys. cbn [snd]. apply (H _ _ (mkWriteBack g 0 zero)).
Qed.

Lemma sweep_spInvariant P ε cs :
  ZERO_EPSILON P = Fin ε → 0 <= ε →
  ∀ g d, spInvariant P g →
    (∀ c, c ∈ cs → Clause.enabled (getClause g c) = true) →
    spInvariant P (fst (sweep P cs g d)).
Proof.
  intros Heps Hε. unfold sweep.
  induction cs as [|c cs IH]; intros g d Hinv Hen; [exact Hinv|].
  cbn [fold_left]. unfold sweepStep at 2. cbn [fst snd].
  destruct (updateSurveys P g c) as [mx g1] eqn:Hup.
  assert (Hg1 : g1 = snd (updateSurveys P g c)) by now rewrite Hup.
  apply IH.
  - rewrite Hg1. apply (updateSurveys_spInvariant P ε); auto.
    apply Hen, elem_of_cons. auto.
  - intros c' Hin. rewrite Hg1, updateSurveys_clauses.
    apply Hen, elem_of_cons. auto.
Qed.

(** P1 along a whole run: when the shuffle returns clauses of the list it
    was given, the graph that [surveyPropagation] leaves satisfies I1 at
    every unassigned variable. *)
Lemma surveyPropagation_spInvariant {G} `{RandomGenerator G} P ε g rng :
  (∀ l (r : G) c, c ∈ fst (rng_shuffle l r) → c ∈ l) →
  ZERO_EPSILON P = Fin ε → 0 <= ε →
  wellFormed g → surveysNonneg g → liveEdgesUnassigned g →
  spInvariant P (snd (fst (surveyPropagation P g rng))).
Proof.
  intros Hshuffle Heps Hε Hwf Hsurv Hlive. unfold surveyPropagation.
  pose proof (computeSubProducts_spInvariant P ε g Heps Hwf Hsurv Hlive)
    as Hinv.
  generalize dependent (computeSubProducts P g). generalize zero as d.
  generalize dependent rng.
  induction (Z.to_nat (spMaxIt P)) as [|n IH]; intros rng d g0 Hinv;
    [exact Hinv|].
  cbn [spLoop].
  destruct (rng_shuffle (GetEnabledClauses g0) rng) as [cs rng1] eqn:Hsh.
  destruct (sweep P cs g0 d) as [g1 d1] eqn:Hsw.
  assert (Hinv1 : spInvariant P g1).
  { replace g1 with (fst (sweep P cs g0 d)) by now rewrite Hsw.
    apply (sweep_spInvariant P ε); auto.
    intros c Hin. specialize (Hshuffle (GetEnabledClauses g0) rng c).
    rewrite Hsh in Hshuffle. specialize (Hshuffle Hin).
    unfold GetEnabledClauses in Hshuffle.
    apply list_elem_of_In, List.filter_In in Hshuffle. tauto. }
  destruct (d1 <=? spEpsilon P)%D; [|now apply IH].
  now destruct (d1 <? ZERO_EPSILON P)%D.
Qed.

(** *** The sub-survey denominator *)



(** ** Further properties of the solver *)

(** *** Further properties of the survey-propagation driver *)

(** X1: [surveyPropagation] is decided by its first sweep.  When [spMaxIt] is
    positive and the largest change of the first sweep is at most
    [spEpsilon], it returns after that sweep: [WALKSAT] when the change is
    below [ZERO_EPSILON], [CONVERGE] otherwise.  In every other case it
    returns [UNCONVERGE]: the compared value is never reset, so a later
    sweep cannot meet the threshold. *)
Theorem surveyPropagation_decided_by_first_sweep {G} `{RandomGenerator G}
    (P : Params) (g : FactorGraph) (rng : G) :
  let g0 := computeSubProducts P g in
  let '(cs, rng1) := rng_shuffle (GetEnabledClauses g0) rng in
  let '(g1, d1) := sweep P cs g0 zero in
  if (0 <? spMaxIt P)%Z && (d1 <=? spEpsilon P)%D
  then surveyPropagation P g rng = (verdict P d1, g1, rng1)
  else fst (fst (surveyPropagation P g rng)) = UNCONVERGE.
Proof.
  intros g0. unfold surveyPropagation. fold g0.
  destruct (rng_shuffle (GetEnabledClauses g0) rng) as [cs rng1] eqn:Hsh.
  destruct (sweep P cs g0 zero) as [g1 d1] eqn:Hsw.
  destruct (0 <? spMaxIt P)%Z eqn:Hpos; cbn [andb].
  - destruct (Z.to_nat (spMaxIt P)) as [|n] eqn:Hn.
    { apply Z.ltb_lt in Hpos. lia. }
    cbn [spLoop]. rewrite Hsh, Hsw.
    destruct (d1 <=? spEpsilon P)%D eqn:Hmet.
    + unfold verdict. now destruct (d1 <? ZERO_EPSILON P)%D.
    + now apply spLoop_never_recovers.
  - apply Z.ltb_ge in Hpos.
    replace (Z.to_nat (spMaxIt P)) with 0%nat by lia. reflexivity.
Qed.
Local Close Scope Q_scope.

(** *** What survey propagation leaves untouched *)

Lemma getVar_updVar f v v' g :
  getVar (updVar f v g) v'
  = if decide (v = v' ∧ v < length (variables g)) then f (getVar g v')
    else getVar g v'.
Proof.
  destruct (decide _) as [[-> Hlt]|Hno].
  - now apply getVar_updVar_eq.
  - destruct (decide (v = v')) as [->|Hne]; [|now apply getVar_updVar_ne].
    rewrite getVar_updVar_ge; [reflexivity|lia].
Qed.

Lemma getEdge_updEdge f e e' g :
  getEdge (updEdge f e g) e'
  = if decide (e = e' ∧ e < length (edges g)) then f (getEdge g e')
    else getEdge g e'.
Proof.
  unfold getEdge, updEdge. cbn [edges].
  destruct (decide _) as [[-> Hlt]|Hno].
  - rewrite list_lookup_alter_eq.
    destruct (edges g !! e') eqn:Hl; [reflexivity|].
    apply lookup_ge_None in Hl. lia.
  - destruct (decide (e = e')) as [->|Hne].
    + rewrite list_lookup_alter_eq.
      rewrite (proj2 (lookup_ge_None (edges g) e')); [reflexivity|lia].
    + now rewrite list_lookup_alter_ne.
Qed.

Lemma sameButSurveys_refl g : sameButSurveys g g.
Proof. unfold sameButSurveys. auto. Qed.

Lemma sameButSurveys_trans g1 g2 g3 :
  sameButSurveys g1 g2 → sameButSurveys g2 g3 → sameButSurveys g1 g3.
Proof.
  intros (Hc & Hv & He & Hvs & Hes) (Hc' & Hv' & He' & Hvs' & Hes').
  unfold sameButSurveys. repeat split; congruence.
Qed.

Lemma patchSubProduct_frame P ty old new var :
  Var.set_cache one one 0 0 (patchSubProduct P ty old new var)
  = Var.set_cache one one 0 0 var.
Proof.
  unfold patchSubProduct.
  repeat match goal with |- context [if ?b then _ else _] => destruct b end;
    reflexivity.
Qed.

Lemma writeBackStep_sameButSurveys P acc st e :
  let g := wb_graph st in
  let g' := wb_graph (writeBackStep P acc st e) in
  sameButSurveys g g'
  ∧ (∀ e', (e' = e → Edge.enabled (getEdge g e) = false) →
       getEdge g' e' = getEdge g e')
  ∧ (∀ v, (Edge.enabled (getEdge g e) = true →
           Edge.variable (getEdge g e) ≠ v) →
       getVar g' v = getVar g v).
Proof.
  intros g g'. subst g'. unfold writeBackStep. fold g.
  destruct (Edge.enabled (getEdge g e)) eqn:Hen.
  2:{ split; [apply sameButSurveys_refl|]. split; reflexivity. }
  cbn [wb_graph]. split; [|split].
  - unfold sameButSurveys. cbn [clauses variables edges updEdge updVar].
    rewrite !length_alter. repeat split.
    + intros v.
      change (getVar _ v)
        with (getVar (updVar (patchSubProduct P (Edge.type (getEdge g e))
                                (Edge.survey (getEdge g e))
                                (newSurveyOf P acc (wb_i st)))
                             (Edge.variable (getEdge g e)) g) v) at 1.
      rewrite getVar_updVar. destruct (decide _); [|reflexivity].
      apply patchSubProduct_frame.
    + intros e'.
      change (getEdge _ e')
        with (getEdge (updEdge (Edge.set_survey (newSurveyOf P acc (wb_i st)))
                               e g) e') at 1.
      rewrite getEdge_updEdge. now destruct (decide _).
  - intros e' Hne.
    change (getEdge _ e')
      with (getEdge (updEdge (Edge.set_survey (newSurveyOf P acc (wb_i st)))
                             e g) e') at 1.
    rewrite getEdge_updEdge. destruct (decide _) as [[<- _]|]; [|reflexivity].
    specialize (Hne eq_refl). congruence.
  - intros v Hne. specialize (Hne eq_refl).
    change (getVar _ v)
      with (getVar (updVar (patchSubProduct P (Edge.type (getEdge g e))
                              (Edge.survey (getEdge g e))
                              (newSurveyOf P acc (wb_i st)))
                           (Edge.variable (getEdge g e)) g) v) at 1.
    rewrite getVar_updVar. destruct (decide _) as [[Heq _]|]; [|reflexivity].
    contradiction.
Qed.

Lemma sameButSurveys_edge g g' e :
  sameButSurveys g g' →
  Edge.enabled (getEdge g' e) = Edge.enabled (getEdge g e)
  ∧ Edge.type (getEdge g' e) = Edge.type (getEdge g e)
  ∧ Edge.variable (getEdge g' e) = Edge.variable (getEdge g e)
  ∧ Edge.clause (getEdge g' e) = Edge.clause (getEdge g e).
Proof.
  intros (_ & _ & _ & _ & Hes). specialize (Hes e).
  repeat split.
  - exact (f_equal Edge.enabled Hes).
  - exact (f_equal Edge.type Hes).
  - exact (f_equal Edge.variable Hes).
  - exact (f_equal Edge.clause Hes).
Qed.

Lemma sameButSurveys_var g g' v :
  sameButSurveys g g' →
  Var.id (getVar g' v) = Var.id (getVar g v)
  ∧ Var.assigned (getVar g' v) = Var.assigned (getVar g v)
  ∧ Var.value (getVar g' v) = Var.value (getVar g v)
  ∧ Var.allNeighbourEdges (getVar g' v) = Var.allNeighbourEdges (getVar g v)
  ∧ Var.Hp (getVar g' v) = Var.Hp (getVar g v)
  ∧ Var.Hm (getVar g' v) = Var.Hm (getVar g v)
  ∧ Var.Hz (getVar g' v) = Var.Hz (getVar g v)
  ∧ Var.evalValue (getVar g' v) = Var.evalValue (getVar g v).
Proof.
  intros (_ & _ & _ & Hvs & _). specialize (Hvs v).
  repeat split.
  - exact (f_equal Var.id Hvs).
  - exact (f_equal Var.assigned Hvs).
  - exact (f_equal Var.value Hvs).
  - exact (f_equal Var.allNeighbourEdges Hvs).
  - exact (f_equal Var.Hp Hvs).
  - exact (f_equal Var.Hm Hvs).
  - exact (f_equal Var.Hz Hvs).
  - exact (f_equal Var.evalValue Hvs).
Qed.

Lemma writeBack_fold_frame P acc es :
  ∀ st,
    let g := wb_graph st in
    let g' := wb_graph (fold_left (writeBackStep P acc) es st) in
    sameButSurveys g g'
    ∧ (∀ e, (e ∈ es → Edge.enabled (getEdge g e) = false) →
         getEdge g' e = getEdge g e)
    ∧ (∀ v, (∀ e, e ∈ es → Edge.enabled (getEdge g e) = true →
                  Edge.variable (getEdge g e) ≠ v) →
         getVar g' v = getVar g v).
Proof.
  induction es as [|e es IH]; intros st g g'.
  - split; [apply sameButSurveys_refl|]. split; reflexivity.
  - subst g'. cbn [fold_left].
    destruct (writeBackStep_sameButSurveys P acc st e) as (Hs1 & He1 & Hv1).
    destruct (IH (writeBackStep P acc st e)) as (Hs2 & He2 & Hv2).
    fold g in Hs1, He1, Hv1.
    set (st1 := writeBackStep P acc st e) in *.
    split; [exact (sameButSurveys_trans _ _ _ Hs1 Hs2)|]. split.
    + intros e' Hdis. rewrite He2, He1; [reflexivity| |].
      * intros ->. apply Hdis, elem_of_cons. auto.
      * intros Hin.
        destruct (sameButSurveys_edge g (wb_graph st1) e' Hs1) as (-> & _).
        apply Hdis, elem_of_cons. auto.
    + intros v Hne. rewrite Hv2, Hv1; [reflexivity| |].
      * intros Hen. apply Hne; [apply elem_of_cons; auto|exact Hen].
      * intros e' Hin.
        destruct (sameButSurveys_edge g (wb_graph st1) e' Hs1)
          as (-> & _ & -> & _).
        apply Hne, elem_of_cons. auto.
Qed.

Lemma elem_of_GetEnabledEdges g c e :
  e ∈ GetEnabledEdges g c
  ↔ e ∈ Clause.allNeighbourEdges (getClause g c)
    ∧ Edge.enabled (getEdge g e) = true.
Proof.
  unfold GetEnabledEdges. rewrite !list_elem_of_In. apply filter_In.
Qed.

(** X7: [updateSurveys] on a clause writes nothing but the surveys of the
    enabled edges of that clause and the cached sub-products of their
    variables: the clauses, the assignment, the biases, the literals and
    the enabled flags stay, every other edge keeps its survey and every
    other variable its cache. *)
Theorem updateSurveys_frame (P : Params) (g : FactorGraph) (c : nat) :
  let g' := snd (updateSurveys P g c) in
  sameButSurveys g g'
  ∧ (∀ e, e ∉ GetEnabledEdges g c → getEdge g' e = getEdge g e)
  ∧ (∀ v, (∀ e, e ∈ GetEnabledEdges g c → Edge.variable (getEdge g e) ≠ v) →
       getVar g' v = getVar g v).
Proof.
  intros g'. subst g'. unfold updateSurveys. cbn [snd].
  destruct (writeBack_fold_frame P (collectSubSurveys P g c)
              (Clause.allNeighbourEdges (getClause g c))
              (mkWriteBack g 0 zero)) as (Hs & He & Hv).
  cbn [wb_graph] in Hs, He, Hv.
  split; [exact Hs|]. split.
  - intros e Hnot. apply He. intros Hin.
    destruct (Edge.enabled (getEdge g e)) eqn:Hen; [|reflexivity].
    destruct Hnot. now apply elem_of_GetEnabledEdges.
  - intros v Hne. apply Hv. intros e Hin Hen.
    apply Hne. now apply elem_of_GetEnabledEdges.
Qed.

Lemma recomputeVar_frame P g var :
  Var.set_cache one one 0 0 (recomputeVar P g var)
  = Var.set_cache one one 0 0 var.
Proof.
  unfold recomputeVar.
  assert (H : ∀ es acc,
            Var.set_cache one one 0 0 (fold_left (subProductStep P g) es acc)
            = Var.set_cache one one 0 0 acc).
  { induction es as [|e es IH]; intros acc; [reflexivity|].
    cbn [fold_left]. rewrite IH. unfold subProductStep.
    repeat match goal with |- context [if ?b then _ else _] => destruct b end;
      reflexivity. }
  now rewrite H.
Qed.

Lemma computeSubProducts_frame P g :
  sameButSurveys g (computeSubProducts P g)
  ∧ edges (computeSubProducts P g) = edges g.
Proof.
  split; [|reflexivity]. unfold sameButSurveys. repeat split.
  - apply length_map.
  - intros v. rewrite computeSubProducts_getVar.
    destruct (Var.assigned (getVar g v)); [reflexivity|].
    apply recomputeVar_frame.
Qed.

Lemma sweep_frame P cs :
  ∀ g d, sameButSurveys g (fst (sweep P cs g d)).
Proof.
  unfold sweep. induction cs as [|c cs IH]; intros g d;
    [apply sameButSurveys_refl|].
  cbn [fold_left]. unfold sweepStep at 2. cbn [fst snd].
  destruct (updateSurveys_frame P g c) as (Hs & _).
  destruct (updateSurveys P g c) as [mx g1]. cbn [snd] in Hs.
  exact (sameButSurveys_trans _ _ _ Hs (IH g1 _)).
Qed.

Lemma spLoop_frame {G} `{RandomGenerator G} (P : Params) (n : nat) :
  ∀ (g : FactorGraph) (rng : G) (d : dbl),
    sameButSurveys g (snd (fst (spLoop P n g rng d))).
Proof.
  induction n as [|n IH]; intros g rng d; [apply sameButSurveys_refl|].
  cbn [spLoop].
  destruct (rng_shuffle (GetEnabledClauses g) rng) as [cs rng1].
  pose proof (sweep_frame P cs g d) as Hs.
  destruct (sweep P cs g d) as [g1 d1]. cbn [fst] in Hs.
  destruct (d1 <=? spEpsilon P)%D.
  - now destruct (d1 <? ZERO_EPSILON P)%D.
  - exact (sameButSurveys_trans _ _ _ Hs (IH g1 rng1 d1)).
Qed.

(** X2: Survey propagation writes surveys and cached sub-products and nothing
    else: whatever the parameters, the shuffle and the result, the graph
    it leaves has the clauses, the assignment, the biases, the literals and
    the enabled flags of the graph it was given. *)
Theorem surveyPropagation_frame {G} `{RandomGenerator G} (P : Params)
    (g : FactorGraph) (rng : G) :
  let g' := snd (fst (surveyPropagation P g rng)) in
  sameButSurveys g g'
  ∧ GetEnabledClauses g' = GetEnabledClauses g
  ∧ IsSAT g' = IsSAT g
  ∧ (∀ c, GetEnabledEdges g' c = GetEnabledEdges g c)
  ∧ ∀ v, Var.assigned (getVar g' v) = Var.assigned (getVar g v)
         ∧ Var.value (getVar g' v) = Var.value (getVar g v).
Proof.
  intros g'.
  assert (Hs : sameButSurveys g g').
  { subst g'. unfold surveyPropagation.
    eapply sameButSurveys_trans; [apply computeSubProducts_frame|].
    apply spLoop_frame. }
  split; [exact Hs|].
  pose proof Hs as (Hc & _).
  split; [|split; [|split]].
  - unfold GetEnabledClauses, getClause. now rewrite Hc.
  - unfold IsSAT. now rewrite Hc.
  - intros c. unfold GetEnabledEdges, getClause. rewrite Hc.
    apply List.filter_ext. intros e.
    now destruct (sameButSurveys_edge g g' e Hs) as (-> & _).
  - intros v. destruct (sameButSurveys_var g g' v Hs) as (_ & -> & -> & _).
    auto.
Qed.

(** *** What a call of [SID] can and cannot do *)

Lemma evaluateAll_fst (vars : list Var.t) (s : dbl) :
  fst (evaluateAll vars s)
  = map (fun var => if Var.assigned var then var else evaluateVar var) vars.
Proof.
  revert s. induction vars as [|var vars IH]; intros s; [reflexivity|].
  cbn [evaluateAll map]. destruct (Var.assigned var).
  - specialize (IH s). destruct (evaluateAll vars s). cbn [fst] in *.
    now rewrite IH.
  - match goal with |- context [evaluateAll vars ?s'] =>
      specialize (IH s'); destruct (evaluateAll vars s') end.
    cbn [fst] in *. now rewrite IH.
Qed.

(** The first round of the [while] loop always leaves it.  *)
Lemma sidLoop_first_round {G} `{RandomGenerator G} (P : Params)
    (fuel : nat) (fraction : dbl) (w : World) (rng : G) :
  sidLoop P (S (S fuel)) fraction w rng = sidLoop P 2 fraction w rng
  ∧ match fst (fst (sidLoop P (S (S fuel)) fraction w rng)) with
    | Returned r => r = WALKSAT ∨ r = UNCONVERGE
    | OutOfRange i => i = 0
    | BadCast => ∀ f, fraction ≠ Fin f
    | OutOfFuel => False
    end.
Proof.
  pose proof (spLoop_result P (Z.to_nat (spMaxIt P))
                (computeSubProducts P (fg w)) rng zero) as [Hsat Hcon].
  cbn [sidLoop]. unfold surveyPropagation.
  destruct (spLoop P (Z.to_nat (spMaxIt P)) (computeSubProducts P (fg w))
                   rng zero) as [[r g1] rng1].
  cbn [fst] in Hsat, Hcon.
  destruct (AlgorithmResult_eqb r CONVERGE) eqn:Hr; cbn [negb].
  2:{ split; [reflexivity|]. destruct r; cbn in *; auto; congruence. }
  destruct (evaluateAll (variables g1) zero) as [vars s].
  match goal with |- context [if ?b then _ else _] => destruct b end;
    [cbn; auto|].
  destruct (to_int _) as [n|] eqn:Hcast.
  - rewrite !fixVariables_empty_list. cbn. auto.
  - split; [reflexivity|]. cbn. intros f ->. discriminate.
Qed.

(** X14: [SID] never gets beyond the first round of its loop: it makes one run
    of survey propagation and then returns that run's [UNCONVERGE] or
    [WALKSAT], or returns [WALKSAT] from the paramagnetic test, or fails in
    the conversion of [size * fraction] (only when [fraction] is not
    finite), or reads [unassignedVariables[0]] of the empty vector.  It
    never returns [SAT] or [CONTRADICTION]. *)
Theorem SID_stops_in_first_round {G} `{RandomGenerator G} (P : Params)
    (fuel : nat) (s : Solver G) (graph : FactorGraph) (fraction : dbl) :
  2 <= fuel →
  SID P fuel s graph fraction = SID P 2 s graph fraction
  ∧ match fst (fst (SID P fuel s graph fraction)) with
    | Returned r => r = WALKSAT ∨ r = UNCONVERGE
    | OutOfRange i => i = 0
    | BadCast => ∀ f, fraction ≠ Fin f
    | OutOfFuel => False
    end.
Proof.
  intros Hfuel. destruct fuel as [|[|fuel]]; try lia.
  unfold SID. destruct (randomizeSurveys _ _) as [es rng1].
  apply sidLoop_first_round.
Qed.

Lemma SID_stops_in_first_round_witness :
  SID (defaults false) 7 (mkSolver 0 [Fin (199 # 200)] 1 one 100)
      (unitClause zero) (Fin (1 # 10))
  = SID (defaults false) 2 (mkSolver 0 [Fin (199 # 200)] 1 one 100)
        (unitClause zero) (Fin (1 # 10)).
Proof.
  apply (SID_stops_in_first_round (defaults false) 7). lia.
Defined.

Lemma randomizeSurveys_getEdge {G} `{RandomGenerator G} (g : FactorGraph)
    (rng : G) (e : nat) :
  Edge.set_survey zero
    (getEdge (mkFG (variables g) (clauses g)
                   (fst (randomizeSurveys (edges g) rng))) e)
  = Edge.set_survey zero (getEdge g e).
Proof.
  rewrite randomizeSurveys_spec. unfold getEdge. cbn [fst edges].
  rewrite list_lookup_imap. now destruct (edges g !! e).
Qed.

Lemma getVar_evaluated (g : FactorGraph) (s : dbl) (v : nat) :
  getVar (mkFG (fst (evaluateAll (variables g) s)) (clauses g) (edges g)) v
  = if Var.assigned (getVar g v) then getVar g v else evaluateVar (getVar g v).
Proof.
  rewrite evaluateAll_fst. unfold getVar. cbn [variables].
  rewrite list_lookup_fmap. now destruct (variables g !! v).
Qed.

(** X15: [SID] assigns nothing.  However it ends, the graph it leaves has the
    clauses, the enabled flags, the literals and the assignment of the
    graph it was given, and nothing has been printed: only surveys, cached
    sub-products and biases have been written. *)
Theorem SID_assigns_nothing {G} `{RandomGenerator G} (P : Params)
    (fuel : nat) (s : Solver G) (graph : FactorGraph) (fraction : dbl) :
  let w := snd (fst (SID P fuel s graph fraction)) in
  cout w = []
  ∧ IsSAT (fg w) = IsSAT graph
  ∧ sameAssignment graph (fg w).
Proof.
  intros w. subst w. unfold SID.
  pose proof (randomizeSurveys_getEdge graph (randomGenerator s)) as Hrand.
  destruct (randomizeSurveys (edges graph) (randomGenerator s)) as [es rng1].
  cbn [fst] in Hrand.
  set (g0 := mkFG (variables graph) (clauses graph) es) in *.
  assert (Hgoal : ∀ g1 : FactorGraph, sameAssignment graph g1 →
            cout (mkWorld g1 []) = []
            ∧ IsSAT (fg (mkWorld g1 [])) = IsSAT graph
            ∧ sameAssignment graph (fg (mkWorld g1 []))).
  { intros g1 Hs. cbn [cout fg]. repeat split; try apply Hs.
    unfold IsSAT. now rewrite (proj1 Hs). }
  assert (H0 : sameAssignment graph g0) by (repeat split; apply Hrand).
  destruct fuel as [|fuel]; [now apply Hgoal|].
  cbn [sidLoop]. cbn [fg cout].
  destruct (surveyPropagation_frame P g0 rng1) as (Hs & _).
  destruct (surveyPropagation P g0 rng1) as [[r g1] rng2]. cbn [fst snd] in Hs.
  assert (H1 : sameAssignment graph g1).
  { pose proof Hs as (Hc & _ & _ & _ & Hes).
    split; [exact Hc|]. split; [intros e; rewrite Hes; apply Hrand|].
    intros v.
    destruct (sameButSurveys_var g0 g1 v Hs) as (Hid & Ha & Hval & Hl & _).
    rewrite Hid, Ha, Hval, Hl. repeat split. }
  destruct (negb (AlgorithmResult_eqb r CONVERGE)); [now apply Hgoal|].
  pose proof (getVar_evaluated g1 zero) as Hev.
  destruct (evaluateAll (variables g1) zero) as [vars sum]. cbn [fst] in Hev.
  assert (H2 : sameAssignment graph (mkFG vars (clauses g1) (edges g1))).
  { destruct H1 as (Hc & He & Hv). split; [exact Hc|]. split; [exact He|].
    intros v. rewrite Hev. specialize (Hv v).
    destruct (Var.assigned (getVar g1 v)) eqn:Ha; [now rewrite Ha|].
    unfold evaluateVar. destruct (rawBias (getVar g1 v)) as [[hp hm] hz].
    cbn. now rewrite Ha. }
  match goal with |- context [if ?b then _ else _] => destruct b end;
    [now apply Hgoal|].
  destruct (to_int _) as [n|]; [|now apply Hgoal].
  rewrite fixVariables_empty_list. destruct fuel; now apply Hgoal.
Qed.

Local Open Scope Q_scope.

(** *** When survey propagation converges *)

Lemma in01_nonneg (x : dbl) : in01 x = true → nonneg x.
Proof.
  destruct x as [q| | |]; try discriminate. cbn.
  intros Hx. apply andb_prop in Hx as [Hx _]. now apply Qle_bool_iff.
Qed.

Lemma evaluateVar_bias_nonneg (var : Var.t) (a b : Q) :
  Var.p var = Fin a → Var.m var = Fin b → 0 <= a <= 1 → 0 <= b <= 1 →
  nonneg (Var.Hp (evaluateVar var)) ∧ nonneg (Var.Hm (evaluateVar var))
  ∧ nonneg (Var.Hz (evaluateVar var)).
Proof.
  intros Hp Hm Ha Hb. unfold evaluateVar, biasSum, rawBias. rewrite Hp, Hm.
  set (p' := if nz (Var.pzero var) then zero else Fin a).
  set (m' := if nz (Var.mzero var) then zero else Fin b).
  assert (Hp' : ∃ x, p' = Fin x ∧ 0 <= x <= 1).
  { subst p'. destruct (nz (Var.pzero var)); [exists 0|exists a];
      (split; [reflexivity|lra]). }
  assert (Hm' : ∃ x, m' = Fin x ∧ 0 <= x <= 1).
  { subst m'. destruct (nz (Var.mzero var)); [exists 0|exists b];
      (split; [reflexivity|lra]). }
  destruct Hp' as (x & -> & Hx), Hm' as (y & -> & Hy).
  cbn [Var.Hp Var.Hm Var.Hz Var.set_bias].
  rewrite !mul_fin, !sub_fin, !add_fin.
  repeat split; apply nonneg_div; cbn; nra.
Qed.

Lemma evaluateAll_sum_nonneg (vars : list Var.t) :
  Forall (fun var => Var.assigned var = false →
            ∃ a b, Var.p var = Fin a ∧ Var.m var = Fin b
                   ∧ 0 <= a <= 1 ∧ 0 <= b <= 1) vars →
  ∀ s, nonneg s → nonneg (snd (evaluateAll vars s)).
Proof.
  induction 1 as [|var vars Hvar _ IH]; intros s Hs; [exact Hs|].
  cbn [evaluateAll]. destruct (Var.assigned var).
  - specialize (IH s Hs). now destruct (evaluateAll vars s).
  - destruct (Hvar eq_refl) as (a & b & Hp & Hm & Ha & Hb).
    destruct (evaluateVar_bias_nonneg var a b Hp Hm Ha Hb) as (Hhp & Hhm & _).
    match goal with |- context [evaluateAll vars ?s'] =>
      assert (Hs' : nonneg s') end.
    { apply nonneg_add; [exact Hs|].
      now destruct (_ >? _)%D. }
    specialize (IH _ Hs'). now destruct (evaluateAll vars _).
Qed.

Lemma nonneg_over_zero (x y : dbl) :
  nonneg x → (x / of_Z (Z.of_nat 0) <? y)%D = false.
Proof.
  destruct x as [q| | |]; cbn; try contradiction; try reflexivity.
  - intros Hq. destruct (q ?= 0) eqn:Hc; cbn.
    + reflexivity.
    + apply Qlt_alt in Hc. lra.
    + now destruct y.
  - intros _. now destruct y.
Qed.

(** The graph with freshly drawn surveys is one on which survey
    propagation may start. *)
Lemma randomized_ready {G} `{RandomGenerator G} (g : FactorGraph) (rng : G) :
  (∀ r : G, in01 (fst (getRandomReal01 r)) = true) →
  wellFormed g → liveEdgesUnassigned g →
  let g0 := mkFG (variables g) (clauses g)
                 (fst (randomizeSurveys (edges g) rng)) in
  wellFormed g0 ∧ surveysNonneg g0 ∧ liveEdgesUnassigned g0.
Proof.
  intros Hdraw Hwf Hlive g0.
  assert (He : ∀ e, Edge.set_survey zero (getEdge g0 e)
                    = Edge.set_survey zero (getEdge g e))
    by apply randomizeSurveys_getEdge.
  assert (Hshape : sameShape g g0).
  { unfold sameShape. repeat split; try reflexivity.
    - subst g0. cbn [edges]. rewrite randomizeSurveys_spec. cbn [fst].
      apply length_imap.
    - exact (f_equal Edge.type (He e)).
    - exact (f_equal Edge.variable (He e)).
    - exact (f_equal Edge.clause (He e)). }
  split; [exact (wellFormed_sameShape _ _ Hwf Hshape)|]. split.
  - intros e. subst g0. unfold getEdge. cbn [edges].
    rewrite randomizeSurveys_spec. cbn [fst]. rewrite list_lookup_imap.
    destruct (edges g !! e); cbn; [|lra].
    apply in01_nonneg, Hdraw.
  - intros c e Hc Hin Hen.
    pose proof (f_equal Edge.enabled (He e)) as Hen'.
    pose proof (f_equal Edge.variable (He e)) as Hvar'.
    cbn in Hen', Hvar'. rewrite Hvar'. apply (Hlive c e Hc Hin). congruence.
Qed.


Lemma scripted_draws_in01 (r : list dbl) :
  in01 (fst (getRandomReal01 r)) = true.
Proof.
  destruct r as [|x r]; [reflexivity|]. cbn.
  destruct (in01 x) eqn:Hx; [exact Hx|reflexivity].
Qed.

Lemma unitClause_ready (s : dbl) :
  wellFormed (unitClause s) ∧ liveEdgesUnassigned (unitClause s).
Proof.
  split; [apply wellFormedb_sound; vm_compute; reflexivity|].
  intros [|c] e Hc Hin Hen; [|discriminate].
  apply elem_of_cons in Hin as [->|Hin]; [reflexivity|].
  now apply elem_of_nil in Hin.
Qed.


(** *** [computeSubProducts] from any cache *)

Lemma recomputeVar_edges P g g1 var :
  edges g1 = edges g → recomputeVar P g1 var = recomputeVar P g var.
Proof.
  intros He. unfold recomputeVar.
  generalize (Var.set_cache one one 0 0 var) as acc.
  induction (Var.allNeighbourEdges var) as [|e es IH]; intros acc;
    [reflexivity|].
  cbn [fold_left]. rewrite IH. f_equal.
  unfold subProductStep, getEdge. now rewrite He.
Qed.

Lemma recomputeVar_cache P g var a b c d :
  recomputeVar P g (Var.set_cache a b c d var) = recomputeVar P g var.
Proof. reflexivity. Qed.

(** X5: Running [computeSubProducts] twice is the same as running it once:
    the result does not depend on what the cache held. *)
Theorem computeSubProducts_idempotent (P : Params) (g : FactorGraph) :
  computeSubProducts P (computeSubProducts P g) = computeSubProducts P g.
Proof.
  unfold computeSubProducts at 1 3. cbn [variables clauses edges].
  f_equal. unfold computeSubProducts at 2. cbn [variables].
  rewrite List.map_map. apply List.map_ext. intros var.
  destruct (Var.assigned var) eqn:Ha; [now rewrite Ha|].
  pose proof (recomputeVar_frame P g var) as Hfr.
  pose proof (f_equal Var.assigned Hfr) as Has. cbn in Has.
  rewrite Has, Ha.
  rewrite (recomputeVar_edges P g (computeSubProducts P g)) by reflexivity.
  rewrite <- (recomputeVar_cache P g (recomputeVar P g var) one one 0 0), Hfr.
  reflexivity.
Qed.

(** X6: [computeSubProducts] establishes invariant I1 at every unassigned
    variable, whatever the cache held before, provided no survey is
    [-inf].  It writes nothing but the four cached fields of the unassigned
    variables. *)
Theorem computeSubProducts_establishes_I1 (P : Params) (ε : Q)
    (g : FactorGraph) :
  ZERO_EPSILON P = Fin ε →
  (∀ e, Edge.survey (getEdge g e) ≠ NInf) →
  let g' := computeSubProducts P g in
  edges g' = edges g ∧ clauses g' = clauses g
  ∧ (∀ v, Var.assigned (getVar g v) = true → getVar g' v = getVar g v)
  ∧ ∀ v, Var.assigned (getVar g v) = false →
      I1 P g' v
      ∧ Var.set_cache one one 0 0 (getVar g' v)
        = Var.set_cache one one 0 0 (getVar g v).
Proof.
  intros Heps Hsurv g'. split; [reflexivity|]. split; [reflexivity|]. split.
  - intros v Ha. subst g'. now rewrite computeSubProducts_getVar, Ha.
  - intros v Hun. split.
    + now apply (computeSubProducts_I1 P ε Heps).
    + subst g'. rewrite computeSubProducts_getVar, Hun.
      apply recomputeVar_frame.
Qed.

Lemma computeSubProducts_establishes_I1_witness :
  I1 (defaults false)
     (computeSubProducts (defaults false) (skewed zero half (Fin (3 # 4)) half))
     0.
Proof.
  refine (proj1 (proj2 (proj2 (proj2
            (computeSubProducts_establishes_I1 (defaults false)
               (1 # 10000000000000000)
               (skewed zero half (Fin (3 # 4)) half) eq_refl _))) 0%nat
            eq_refl)).
  intros [|[|[|[|e]]]]; discriminate.
Defined.

(** *** Bias evaluation: range, polarisation, free variables *)

(** The stored biases when the effective products [P] and [M] are finite
    and the normaliser is not zero. *)
Lemma evaluateVar_values (v : Var.t) (x y : Q) :
  (if nz (Var.pzero v) then zero else Var.p v) = Fin x →
  (if nz (Var.mzero v) then zero else Var.m v) = Fin y →
  let S := (x - x * y) + x * y + (y - x * y) in
  ¬ S == 0 →
  Var.Hp (evaluateVar v) = Fin ((y - x * y) / S)
  ∧ Var.Hm (evaluateVar v) = Fin ((x - x * y) / S)
  ∧ Var.Hz (evaluateVar v) = Fin (x * y / S)
  ∧ Var.evalValue (evaluateVar v)
    = Fin (Qabs ((y - x * y) / S - (x - x * y) / S)).
Proof.
  intros Hx Hy S HS. unfold evaluateVar, biasSum, rawBias. rewrite Hx, Hy.
  cbn [Var.Hp Var.Hm Var.Hz Var.evalValue Var.set_bias].
  rewrite !mul_fin, !sub_fin, !add_fin. fold S.
  rewrite !(div_fin _ S HS). repeat split.
Qed.

(** Ranges, sum and order of the stored biases under the conditions of
    normalisation. *)
Lemma evaluateVar_range (v : Var.t) (a b : Q) :
  Var.p v = Fin a → Var.m v = Fin b →
  0 < a ∧ a <= 1 → 0 < b ∧ b <= 1 →
  (Var.pzero v = 0 ∨ Var.mzero v = 0)%Z →
  let P := if nz (Var.pzero v) then 0 else a in
  let M := if nz (Var.mzero v) then 0 else b in
  ∃ hp hm hz ev,
    Var.Hp (evaluateVar v) = Fin hp ∧ 0 <= hp <= 1
    ∧ Var.Hm (evaluateVar v) = Fin hm ∧ 0 <= hm <= 1
    ∧ Var.Hz (evaluateVar v) = Fin hz ∧ 0 <= hz <= 1
    ∧ Var.evalValue (evaluateVar v) = Fin ev ∧ 0 <= ev <= 1
    ∧ hp + hm + hz == 1
    ∧ (hm < hp ↔ P < M).
Proof.
  intros Hp Hm [Ha0 Ha1] [Hb0 Hb1] Hsat P M.
  assert (HPM : 0 <= P ∧ P <= 1 ∧ 0 <= M ∧ M <= 1 ∧ (0 < P ∨ 0 < M)).
  { subst P M. unfold nz.
    destruct Hsat as [-> | ->]; simpl;
      repeat match goal with |- context [(?z =? 0)%Z] =>
               destruct (z =? 0)%Z end; simpl;
      repeat split; auto; lra. }
  destruct HPM as (HP0 & HP1 & HM0 & HM1 & Hpos).
  set (S := (P - P * M) + P * M + (M - P * M)).
  assert (HS : 0 < S) by (subst S; destruct Hpos; nra).
  assert (HS0 : ¬ S == 0) by lra.
  destruct (evaluateVar_values v P M) as (Hhp & Hhm & Hhz & Hev); auto.
  { subst P. rewrite Hp. unfold zero. now destruct (nz (Var.pzero v)). }
  { subst M. rewrite Hm. unfold zero. now destruct (nz (Var.mzero v)). }
  fold S in Hhp, Hhm, Hhz, Hev.
  assert (Hinv : 0 < / S) by now apply Qinv_lt_0_compat.
  assert (Hone : S * / S == 1) by now apply Qmult_inv_r.
  eexists _, _, _, _.
  split; [exact Hhp|]. split; [unfold Qdiv; subst S; nra|].
  split; [exact Hhm|]. split; [unfold Qdiv; subst S; nra|].
  split; [exact Hhz|]. split; [unfold Qdiv; subst S; nra|].
  split; [exact Hev|]. split; [|split].
  - split; [apply Qabs_nonneg|].
    apply Qabs_Qle_condition. unfold Qdiv. subst S. split; nra.
  - subst S. field. exact HS0.
  - unfold Qdiv. split; intros H; nra.
Qed.



(** X12: A variable with a saturated positive edge and no saturated negative
    edge is fully polarised: whatever the positive product holds, the
    biases are [Hp = 1], [Hm = 0], [Hz = 0], [evalValue] is 1 and
    decimation would choose [true].  Symmetrically a saturated negative
    edge alone gives [Hm = 1] and the choice [false]. *)
Theorem evaluateVar_saturated_side (v : Var.t) (c : Q) :
  ¬ c == 0 →
  (Var.pzero v ≠ 0%Z → Var.mzero v = 0%Z → Var.m v = Fin c →
   let v' := evaluateVar v in
   (Var.Hp v' ≈ one)%D ∧ (Var.Hm v' ≈ zero)%D ∧ (Var.Hz v' ≈ zero)%D
   ∧ (Var.evalValue v' ≈ one)%D ∧ (Var.Hp v' >? Var.Hm v')%D = true)
  ∧ (Var.mzero v ≠ 0%Z → Var.pzero v = 0%Z → Var.p v = Fin c →
     let v' := evaluateVar v in
     (Var.Hp v' ≈ zero)%D ∧ (Var.Hm v' ≈ one)%D ∧ (Var.Hz v' ≈ zero)%D
     ∧ (Var.evalValue v' ≈ one)%D ∧ (Var.Hp v' >? Var.Hm v')%D = false).
Proof.
  intros Hc. split.
  - intros Hpz Hmz Hm v'.
    destruct (evaluateVar_values v 0 c) as (Hhp & Hhm & Hhz & Hev).
    { unfold nz. apply Z.eqb_neq in Hpz. now rewrite Hpz. }
    { now rewrite Hmz. }
    { intros H. apply Hc. lra. }
    subst v'. rewrite Hhp, Hhm, Hhz, Hev. cbn [eqv one zero].
    assert (H1 : (c - 0 * c) / (0 - 0 * c + 0 * c + (c - 0 * c)) == 1)
      by (field; intros H; apply Hc; lra).
    assert (H0 : (0 - 0 * c) / (0 - 0 * c + 0 * c + (c - 0 * c)) == 0)
      by (field; intros H; apply Hc; lra).
    assert (Hz : 0 * c / (0 - 0 * c + 0 * c + (c - 0 * c)) == 0)
      by (field; intros H; apply Hc; lra).
    repeat split; auto.
    + rewrite H1, H0. reflexivity.
    + apply gtb_fin. rewrite H1, H0. reflexivity.
  - intros Hmz Hpz Hp v'.
    destruct (evaluateVar_values v c 0) as (Hhp & Hhm & Hhz & Hev).
    { now rewrite Hpz. }
    { unfold nz. apply Z.eqb_neq in Hmz. now rewrite Hmz. }
    { intros H. apply Hc. lra. }
    subst v'. rewrite Hhp, Hhm, Hhz, Hev. cbn [eqv one zero].
    assert (H1 : (c - c * 0) / (c - c * 0 + c * 0 + (0 - c * 0)) == 1)
      by (field; intros H; apply Hc; lra).
    assert (H0 : (0 - c * 0) / (c - c * 0 + c * 0 + (0 - c * 0)) == 0)
      by (field; intros H; apply Hc; lra).
    assert (Hz : c * 0 / (c - c * 0 + c * 0 + (0 - c * 0)) == 0)
      by (field; intros H; apply Hc; lra).
    repeat split; auto.
    + rewrite H1, H0. reflexivity.
    + apply not_true_iff_false. rewrite gtb_fin, H1, H0. intros H. lra.
Qed.

Lemma evaluateVar_saturated_side_witness :
  let v := Var.mk 0 false false NaN half 2 0 zero zero zero zero [0%nat] in
  (Var.Hp (evaluateVar v) ≈ one)%D
  ∧ (Var.Hp (evaluateVar v) >? Var.Hm (evaluateVar v))%D = true.
Proof.
  intros v.
  destruct (proj1 (evaluateVar_saturated_side v (1 # 2) ltac:(discriminate)))
    as (Hhp & _ & _ & _ & Hval).
  - discriminate.
  - reflexivity.
  - reflexivity.
  - split; [exact Hhp|exact Hval].
Defined.

(** X13: An unassigned variable none of whose edges is enabled is free: after
    [computeSubProducts] both products are 1 and both counters 0, and bias
    evaluation gives [Hz = 1], [Hp = Hm = 0] and [evalValue = 0], so
    decimation would rank it last and choose [false]. *)
Theorem free_variable_bias (P : Params) (g : FactorGraph) (v : nat) :
  Var.assigned (getVar g v) = false →
  (∀ e, e ∈ Var.allNeighbourEdges (getVar g v) →
        Edge.enabled (getEdge g e) = false) →
  let var := getVar (computeSubProducts P g) v in
  let var' := evaluateVar var in
  (Var.p var, Var.m var, Var.pzero var, Var.mzero var) = (one, one, 0%Z, 0%Z)
  ∧ (Var.Hp var' ≈ zero)%D ∧ (Var.Hm var' ≈ zero)%D ∧ (Var.Hz var' ≈ one)%D
  ∧ (Var.evalValue var' ≈ zero)%D
  ∧ (Var.Hp var' >? Var.Hm var')%D = false.
Proof.
  intros Hun Hdis var var'.
  assert (Hcache : (Var.p var, Var.m var, Var.pzero var, Var.mzero var)
                   = (one, one, 0%Z, 0%Z)).
  { subst var. rewrite computeSubProducts_getVar, Hun. unfold recomputeVar.
    generalize (eq_refl : Var.allNeighbourEdges
                            (Var.set_cache one one 0 0 (getVar g v))
                          = Var.allNeighbourEdges (getVar g v)).
    assert (H : ∀ es acc,
              (∀ e, e ∈ es → Edge.enabled (getEdge g e) = false) →
              fold_left (subProductStep P g) es acc = acc).
    { induction es as [|e es IH]; intros acc Hes; [reflexivity|].
      cbn [fold_left]. unfold subProductStep at 2.
      rewrite (Hes e) by (apply elem_of_cons; auto).
      apply IH. intros e' Hin. apply Hes, elem_of_cons. auto. }
    intros _. now rewrite H. }
  split; [exact Hcache|]. injection Hcache as Hp Hm Hpz Hmz.
  destruct (evaluateVar_values var 1 1) as (Hhp & Hhm & Hhz & Hev).
  { now rewrite Hpz, Hp. }
  { now rewrite Hmz, Hm. }
  { discriminate. }
  subst var'. rewrite Hhp, Hhm, Hhz, Hev. repeat split.
Qed.

Lemma free_variable_bias_witness :
  (Var.Hz (evaluateVar (getVar (computeSubProducts (defaults false)
                                                     clearedUnit) 0))
   ≈ one)%D.
Proof.
  refine (proj1 (proj2 (proj2 (proj2
            (free_variable_bias (defaults false) clearedUnit 0 eq_refl _))))).
  intros e Hin. apply elem_of_cons in Hin as [->|Hin]; [reflexivity|].
  now apply elem_of_nil in Hin.
Defined.

(** *** Survey propagation at the ends of its range *)

Lemma surveyPropagation_no_clause {G} `{RandomGenerator G} (P : Params)
    (g : FactorGraph) (rng : G) :
  (∀ l (r : G) c, c ∈ fst (rng_shuffle l r) → c ∈ l) →
  (∀ c, Clause.enabled (getClause g c) = false) →
  (0 < spMaxIt P)%Z →
  (zero <=? spEpsilon P)%D = true → (zero <? ZERO_EPSILON P)%D = true →
  surveyPropagation P g rng
  = (WALKSAT, computeSubProducts P g, snd (rng_shuffle [] rng)).
Proof.
  intros Hshuffle Hdis Hit Hsp Hzero. unfold surveyPropagation.
  destruct (Z.to_nat (spMaxIt P)) as [|n] eqn:Hn; [lia|]. cbn [spLoop].
  assert (Hnone : GetEnabledClauses (computeSubProducts P g) = []).
  { unfold GetEnabledClauses. cbn [clauses computeSubProducts].
    induction (seq 0 (length (clauses g))) as [|c cs IH]; [reflexivity|].
    cbn [List.filter].
    change (getClause (computeSubProducts P g) c) with (getClause g c).
    now rewrite Hdis. }
  rewrite Hnone.
  pose proof (Hshuffle [] rng) as Hsub.
  destruct (rng_shuffle [] rng) as [cs rng1]. cbn [fst snd] in *.
  destruct cs as [|c cs].
  - cbn [sweep fold_left]. now rewrite Hsp, Hzero.
  - specialize (Hsub c ltac:(apply elem_of_cons; auto)).
    now apply elem_of_nil in Hsub.
Qed.

(** X17: A formula without an enabled clause, the empty and the satisfied
    formula included, is not reported as [SAT]: the first sweep changes
    nothing, so survey propagation takes the state for the trivial one
    and [SID] returns [WALKSAT]. *)
Theorem SID_without_enabled_clause {G} `{RandomGenerator G} (P : Params)
    (fuel : nat) (s : Solver G) (graph : FactorGraph) (fraction : dbl) :
  (∀ l (r : G) c, c ∈ fst (rng_shuffle l r) → c ∈ l) →
  (∀ c, Clause.enabled (getClause graph c) = false) →
  (0 < spMaxIt P)%Z →
  (zero <=? spEpsilon P)%D = true → (zero <? ZERO_EPSILON P)%D = true →
  (1 <= fuel)%nat →
  (∀ rng : G, fst (fst (surveyPropagation P graph rng)) = WALKSAT)
  ∧ fst (fst (SID P fuel s graph fraction)) = Returned WALKSAT.
Proof.
  intros Hshuffle Hdis Hit Hsp Hzero Hfuel. split.
  - intros rng. now rewrite surveyPropagation_no_clause.
  - unfold SID. destruct (randomizeSurveys _ _) as [es rng1].
    destruct fuel as [|fuel]; [lia|]. cbn [sidLoop fg].
    rewrite surveyPropagation_no_clause; auto.
Qed.

Lemma SID_without_enabled_clause_witness :
  fst (fst (SID (defaults false) 3 (mkSolver 0 [half] 1 one 100)
                (fg assignedUnit) (Fin (1 # 10))))
  = Returned WALKSAT.
Proof.
  apply (SID_without_enabled_clause (defaults false) 3).
  - intros l r c Hc. exact Hc.
  - intros [|c]; reflexivity.
  - reflexivity.
  - reflexivity.
  - reflexivity.
  - lia.
Defined.


Lemma binaryClause_ready (s0 s1 : dbl) :
  wellFormed (binaryClause s0 s1) ∧ liveEdgesUnassigned (binaryClause s0 s1).
Proof.
  split; [apply wellFormedb_sound; vm_compute; reflexivity|].
  intros [|c] e Hc Hin Hen; [|discriminate].
  apply elem_of_cons in Hin as [->|Hin]; [reflexivity|].
  apply elem_of_cons in Hin as [->|Hin]; [reflexivity|].
  now apply elem_of_nil in Hin.
Qed.


Local Close Scope Q_scope.

(** *** The two loops of [updateSurveys] *)

(** The first loop: the sub-surveys of the enabled edges in order, the
    number of those below [ZERO_EPSILON], and the product of the others. *)
Lemma collect_fold (P : Params) (g : FactorGraph) (es : list nat) :
  ∀ acc,
    let ss := map (fun e => subSurveyOf P (getVar g (Edge.variable (getEdge g e)))
                                        (getEdge g e))
                  (List.filter (fun e => Edge.enabled (getEdge g e)) es) in
    fold_left (collectStep P g) es acc
    = mkSubSurveys
        (zeros acc
         + Z.of_nat (length (List.filter
                               (fun s => (s <? ZERO_EPSILON P)%D) ss)))%Z
        (fold_left Dbl.mul
           (List.filter (fun s => negb (s <? ZERO_EPSILON P)%D) ss)
           (allSubSurveys acc))
        (subSurveys acc ++ ss).
Proof.
  induction es as [|e es IH]; intros acc ss.
  - subst ss. cbn. rewrite Z.add_0_r, app_nil_r. now destruct acc.
  - subst ss. cbn [fold_left List.filter]. rewrite IH. unfold collectStep.
    destruct (Edge.enabled (getEdge g e)); [|reflexivity].
    cbn [map List.filter].
    destruct (_ <? ZERO_EPSILON P)%D; cbn [negb zeros allSubSurveys subSurveys
                                            length fold_left].
    + rewrite <- app_assoc. cbn [app]. f_equal. lia.
    + rewrite <- app_assoc. reflexivity.
Qed.

Lemma updateSurveys_no_edge_fold (P : Params) (acc : SubSurveys)
    (es : list nat) (st : WriteBack) :
  (∀ e, e ∈ es → Edge.enabled (getEdge (wb_graph st) e) = false) →
  fold_left (writeBackStep P acc) es st = st.
Proof.
  induction es as [|e es IH]; intros Hdis; [reflexivity|].
  cbn [fold_left]. unfold writeBackStep at 2.
  rewrite (Hdis e) by (apply elem_of_cons; auto).
  apply IH. intros e' Hin. apply Hdis, elem_of_cons. auto.
Qed.

(** X8: On a clause without enabled edges, a clause index out of range
    included, [updateSurveys] returns 0 and leaves the graph as it is. *)
Theorem updateSurveys_no_enabled_edge (P : Params) (g : FactorGraph)
    (c : nat) :
  GetEnabledEdges g c = [] → updateSurveys P g c = (zero, g).
Proof.
  intros Hnone. unfold updateSurveys.
  rewrite updateSurveys_no_edge_fold; [reflexivity|].
  intros e Hin. cbn [wb_graph].
  destruct (Edge.enabled (getEdge g e)) eqn:Hen; [|reflexivity].
  assert (He : e ∈ GetEnabledEdges g c) by now apply elem_of_GetEnabledEdges.
  rewrite Hnone in He. now apply elem_of_nil in He.
Qed.

Lemma updateSurveys_no_enabled_edge_witness :
  updateSurveys (defaults false) clearedUnit 0 = (zero, clearedUnit).
Proof.
  apply updateSurveys_no_enabled_edge. reflexivity.
Defined.

(** The order on doubles, away from [NaN]. *)
Lemma leb_refl (x : dbl) : is_nan x = false → (x <=? x)%D = true.
Proof.
  destruct x as [q| | |]; cbn; try discriminate; auto.
  intros _. apply Qle_bool_iff, Qle_refl.
Qed.

Lemma ltb_leb (x y : dbl) : (x <? y)%D = true → (x <=? y)%D = true.
Proof.
  destruct x as [a| | |], y as [b| | |]; cbn; try discriminate; auto.
  intros H. apply Qltb_lt in H. apply Qle_bool_iff. now apply Qlt_le_weak.
Qed.

Lemma ltb_false_leb (x y : dbl) :
  is_nan x = false → is_nan y = false →
  (x <? y)%D = false → (y <=? x)%D = true.
Proof.
  destruct x as [a| | |], y as [b| | |]; cbn; try discriminate; auto.
  intros _ _ H. apply Qltb_ge in H. now apply Qle_bool_iff.
Qed.

Lemma leb_trans (x y z : dbl) :
  (x <=? y)%D = true → (y <=? z)%D = true → (x <=? z)%D = true.
Proof.
  destruct x as [a| | |], y as [b| | |], z as [c| | |]; cbn;
    try discriminate; auto.
  rewrite !Qle_bool_iff. apply Qle_trans.
Qed.

Lemma leb_not_nan (x y : dbl) :
  (x <=? y)%D = true → is_nan x = false ∧ is_nan y = false.
Proof. destruct x, y; cbn; try discriminate; auto. Qed.

Lemma abs_nonneg (x : dbl) : nonneg (Dbl.abs x).
Proof. destruct x as [q| | |]; cbn; auto. apply Qabs_nonneg. Qed.

Lemma filter_lookup_elem (f : nat → bool) (l : list nat) (j x : nat) :
  List.filter f l !! j = Some x → x ∈ l ∧ f x = true.
Proof.
  intros Hl. apply list_elem_of_lookup_2 in Hl.
  apply list_elem_of_In, List.filter_In in Hl.
  now rewrite list_elem_of_In.
Qed.

(** One step of the second loop at an enabled edge. *)
Lemma writeBackStep_at_enabled (P : Params) (acc : SubSurveys)
    (st : WriteBack) (e : nat) :
  Edge.enabled (getEdge (wb_graph st) e) = true →
  let new := newSurveyOf P acc (wb_i st) in
  let δ := Dbl.abs (Edge.survey (getEdge (wb_graph st) e) - new)%D in
  let st1 := writeBackStep P acc st e in
  wb_i st1 = S (wb_i st)
  ∧ wb_max st1 = (if (δ >? wb_max st)%D then δ else wb_max st)
  ∧ Edge.survey (getEdge (wb_graph st1) e) = new.
Proof.
  intros Hen new δ st1. subst st1. unfold writeBackStep. rewrite Hen.
  cbn [wb_i wb_max wb_graph]. split; [reflexivity|]. split; [reflexivity|].
  rewrite getEdge_updEdge. cbn [edges updVar].
  destruct (decide _) as [_|Hno]; [reflexivity|].
  destruct Hno. split; [reflexivity|]. now apply enabled_valid.
Qed.

Lemma max_step (d m : dbl) :
  is_nan m = false → nonneg m → nonneg d →
  let mx := if (d >? m)%D then d else m in
  is_nan mx = false ∧ nonneg mx ∧ (m <=? mx)%D = true
  ∧ (mx = m ∨ mx = d)
  ∧ (is_nan d = true ∨ (d <=? mx)%D = true).
Proof.
  intros Hm Hnn Hd mx. subst mx. unfold Dbl.gtb.
  destruct (m <? d)%D eqn:Hlt.
  - assert (Hnan : is_nan d = false) by (destruct m, d; cbn in *; congruence).
    repeat split; auto.
    + now apply ltb_leb.
    + right. now apply leb_refl.
  - repeat split; auto.
    + now apply leb_refl.
    + destruct (is_nan d) eqn:Hnan; [now left|right].
      now apply ltb_false_leb.
Qed.

(** The second loop on a list without repetition: the counter, the
    surveys written, and [maxConvDiffInClause]. *)
Lemma writeBack_fold_surveys (P : Params) (acc : SubSurveys) (es : list nat) :
  NoDup es →
  ∀ st, is_nan (wb_max st) = false → nonneg (wb_max st) →
    let g := wb_graph st in
    let st' := fold_left (writeBackStep P acc) es st in
    let L := List.filter (fun e => Edge.enabled (getEdge g e)) es in
    let δ j e := Dbl.abs (Edge.survey (getEdge g e)
                          - newSurveyOf P acc (wb_i st + j))%D in
    wb_i st' = wb_i st + length L
    ∧ is_nan (wb_max st') = false ∧ nonneg (wb_max st')
    ∧ (wb_max st <=? wb_max st')%D = true
    ∧ (wb_max st' = wb_max st
       ∨ ∃ j e, L !! j = Some e ∧ wb_max st' = δ j e)
    ∧ ∀ j e, L !! j = Some e →
        Edge.survey (getEdge (wb_graph st') e)
        = newSurveyOf P acc (wb_i st + j)
        ∧ (is_nan (δ j e) = true ∨ (δ j e <=? wb_max st')%D = true).
Proof.
  induction es as [|e es IH]; intros Hnd st Hnan Hnn g st' L δ.
  - subst st' L. cbn [fold_left List.filter length]. rewrite Nat.add_0_r.
    split; [reflexivity|]. split; [exact Hnan|]. split; [exact Hnn|].
    split; [now apply leb_refl|]. split; [now left|].
    intros j e' Hj. destruct j; discriminate.
  - apply NoDup_cons in Hnd as [Hnotin Hnd].
    subst st' L. cbn [fold_left List.filter].
    destruct (Edge.enabled (getEdge g e)) eqn:Hen.
    2:{ assert (Hst : writeBackStep P acc st e = st)
          by (unfold writeBackStep; fold g; now rewrite Hen).
        rewrite Hst. now apply IH. }
    destruct (writeBackStep_at_enabled P acc st e Hen) as (Hi1 & Hmax1 & Hnew).
    destruct (writeBackStep_sameButSurveys P acc st e) as (Hs1 & He1 & _).
    fold g in Hi1, Hmax1, Hnew, Hs1, He1.
    set (st1 := writeBackStep P acc st e) in *.
    set (new := newSurveyOf P acc (wb_i st)) in *.
    destruct (max_step (Dbl.abs (Edge.survey (getEdge g e) - new)%D)
                (wb_max st) Hnan Hnn (abs_nonneg _))
      as (Hnan1 & Hnn1 & Hle1 & Heq1 & Hb1).
    rewrite <- Hmax1 in Hnan1, Hnn1, Hle1, Heq1, Hb1.
    assert (Hother : ∀ e', e' ∈ es → getEdge (wb_graph st1) e' = getEdge g e').
    { intros e' Hin. apply He1. intros ->. contradiction. }
    assert (Hfilter : List.filter (fun e' => Edge.enabled
                                               (getEdge (wb_graph st1) e')) es
                      = List.filter (fun e' => Edge.enabled (getEdge g e')) es).
    { apply List.filter_ext. intros e'.
      now destruct (sameButSurveys_edge g (wb_graph st1) e' Hs1) as (-> & _). }
    destruct (IH Hnd st1 Hnan1 Hnn1) as (Hi & Hnan' & Hnn' & Hle' & Heq' & Hall).
    rewrite Hfilter, Hi1 in Hi, Heq', Hall.
    set (L' := List.filter (fun e' => Edge.enabled (getEdge g e')) es) in *.
    set (st' := fold_left (writeBackStep P acc) es st1) in *.
    assert (Hidx : ∀ j, S (wb_i st) + j = wb_i st + S j) by (intros; lia).
    split; [cbn [length]; lia|]. split; [exact Hnan'|]. split; [exact Hnn'|].
    split; [exact (leb_trans _ _ _ Hle1 Hle')|]. split.
    + destruct Heq' as [Heq' | (j & e' & Hj & Heq')].
      * rewrite Heq'. destruct Heq1 as [->| ->]; [now left|right].
        exists 0, e. split; [reflexivity|]. subst δ. cbn beta.
        now rewrite Nat.add_0_r.
      * right. exists (S j), e'. split; [exact Hj|]. subst δ. cbn beta.
        rewrite Heq', Hidx, Hother; [reflexivity|].
        now apply (filter_lookup_elem _ _ _ _ Hj).
    + intros [|j] e' Hj.
      * injection Hj as <-. subst δ. cbn beta. rewrite Nat.add_0_r. split.
        -- destruct (writeBack_fold_frame P acc es st1) as (_ & Hfr & _).
           fold st' in Hfr. rewrite Hfr; [exact Hnew|]. intros Hin.
           contradiction.
        -- destruct Hb1 as [Hb1|Hb1]; [now left|right].
           exact (leb_trans _ _ _ Hb1 Hle').
      * change ((e :: L') !! S j) with (L' !! j) in Hj.
        destruct (filter_lookup_elem _ _ _ _ Hj) as [Hin _].
        destruct (Hall j e' Hj) as [Hsurv Hbound].
        rewrite (Hother e' Hin) in Hbound. rewrite Hidx in Hsurv, Hbound.
        subst δ. cbn beta. split; [exact Hsurv|exact Hbound].
Qed.

Lemma updateSurveys_change_bound (P : Params) (g : FactorGraph) (c : nat) :
  NoDup (Clause.allNeighbourEdges (getClause g c)) →
  ∀ e, e ∈ GetEnabledEdges g c →
    is_nan (surveyChange g (snd (updateSurveys P g c)) e) = true
    ∨ (surveyChange g (snd (updateSurveys P g c)) e
       <=? fst (updateSurveys P g c))%D = true.
Proof.
  intros Hnd e Hin. unfold updateSurveys. cbn [fst snd].
  destruct (writeBack_fold_surveys P (collectSubSurveys P g c) _ Hnd
              (mkWriteBack g 0 zero) eq_refl)
    as (_ & _ & _ & _ & _ & Hall).
  { cbn. discriminate. }
  cbn [wb_graph wb_i wb_max] in *. fold (GetEnabledEdges g c) in *.
  apply list_elem_of_lookup_1 in Hin as [j Hj].
  destruct (Hall j e Hj) as [Hsurv Hbound].
  unfold surveyChange. rewrite Hsurv. exact Hbound.
Qed.

(** X9: [updateSurveys] returns the largest change it made.  When the clause
    lists no edge twice, the returned value is a number from 0 on or
    [+inf], never [NaN]; the change [|old - new|] of the survey of every
    enabled edge of the clause is at most that value unless the change is
    not a number, in which case it is skipped; and the value is 0 or the
    change of one of these edges. *)
Theorem updateSurveys_returns_largest_change (P : Params) (g : FactorGraph)
    (c : nat) :
  NoDup (Clause.allNeighbourEdges (getClause g c)) →
  let d := fst (updateSurveys P g c) in
  let g' := snd (updateSurveys P g c) in
  is_nan d = false ∧ nonneg d
  ∧ (∀ e, e ∈ GetEnabledEdges g c →
       is_nan (surveyChange g g' e) = true
       ∨ (surveyChange g g' e <=? d)%D = true)
  ∧ (d = zero ∨ ∃ e, e ∈ GetEnabledEdges g c ∧ d = surveyChange g g' e).
Proof.
  intros Hnd d g'. subst d g'. unfold updateSurveys. cbn [fst snd].
  destruct (writeBack_fold_surveys P (collectSubSurveys P g c) _ Hnd
              (mkWriteBack g 0 zero) eq_refl)
    as (_ & Hnan & Hnn & _ & Heq & Hall).
  { cbn. discriminate. }
  cbn [wb_graph wb_i wb_max] in *. fold (GetEnabledEdges g c) in *.
  split; [exact Hnan|]. split; [exact Hnn|]. split.
  - exact (updateSurveys_change_bound P g c Hnd).
  - destruct Heq as [->|(j & e & Hj & ->)]; [now left|right].
    exists e. split; [now apply list_elem_of_lookup_2 in Hj|].
    destruct (Hall j e Hj) as [Hsurv _].
    unfold surveyChange. now rewrite Hsurv.
Qed.

Lemma updateSurveys_returns_largest_change_witness :
  let g := computeSubProducts (defaults false) (binaryClause half zero) in
  (surveyChange g (snd (updateSurveys (defaults false) g 0)) 1
   <=? fst (updateSurveys (defaults false) g 0))%D = true.
Proof.
  intros g.
  destruct (updateSurveys_returns_largest_change (defaults false) g 0)
    as (_ & _ & Hall & _).
  - apply (bool_decide_unpack _). vm_compute. exact I.
  - destruct (Hall 1) as [Hnan|Hle].
    + apply elem_of_GetEnabledEdges. split; [|reflexivity].
      apply elem_of_cons. right. apply elem_of_cons. now left.
    + vm_compute in Hnan. discriminate.
    + exact Hle.
Defined.

Local Open Scope Q_scope.

(** *** The new survey is the product of the other sub-surveys *)

Lemma filter_map_Fin (f : Q → bool) (h : dbl → bool) (l : list Q) :
  (∀ q, h (Fin q) = f q) →
  List.filter h (map Fin l) = map Fin (List.filter f l).
Proof.
  intros Hh. induction l as [|q l IH]; [reflexivity|].
  cbn [map List.filter]. rewrite Hh, IH. now destruct (f q).
Qed.

Lemma fold_mul_Fin (l : list Q) :
  ∀ a, ∃ b, fold_left Dbl.mul (map Fin l) (Fin a) = Fin b ∧ b == a * Qprod l.
Proof.
  induction l as [|q l IH]; intros a.
  - exists a. split; [reflexivity|]. change (Qprod []) with 1. ring.
  - cbn [map fold_left]. rewrite mul_fin.
    destruct (IH (a * q)) as (b & Hb & Heq). exists b. split; [exact Hb|].
    rewrite Heq, Qprod_cons. ring.
Qed.

(** The product of the sub-surveys that are not below [ε] is the clipped
    product when none is below, and the clipped product is 0 otherwise. *)
Lemma Qprod_clipped (ε : Q) (l : list Q) :
  (length (List.filter (fun q => Qltb q ε) l) = 0%nat →
   Qprod (map (clipped ε) l)
   == Qprod (List.filter (fun q => negb (Qltb q ε)) l))
  ∧ (length (List.filter (fun q => Qltb q ε) l) ≠ 0%nat →
     Qprod (map (clipped ε) l) == 0).
Proof.
  induction l as [|q l [IH0 IH1]]; [split; [reflexivity|contradiction]|].
  cbn [map List.filter]. rewrite Qprod_cons. unfold clipped at 1 3.
  destruct (Qltb q ε); cbn [negb length].
  - split; [discriminate|]. intros _. ring.
  - split.
    + intros Hz. rewrite Qprod_cons. now rewrite IH0.
    + intros Hnz. rewrite IH1 by exact Hnz. ring.
Qed.

Lemma clause_counts (ε : Q) (l1 l2 : list Q) (q : Q) :
  let small := fun x => Qltb x ε in
  let big := fun x => negb (Qltb x ε) in
  length (List.filter small (l1 ++ q :: l2))
  = (length (List.filter small l1) + ((if small q then 1 else 0)
     + length (List.filter small l2)))%nat
  ∧ Qprod (List.filter big (l1 ++ q :: l2))
    == Qprod (List.filter big l1)
       * ((if small q then 1 else q) * Qprod (List.filter big l2)).
Proof.
  intros small big. rewrite !List.filter_app, length_app, Qprod_app.
  cbn [List.filter]. subst small big. cbn beta.
  destruct (Qltb q ε); cbn [negb length]; rewrite ?Qprod_cons.
  - split; [reflexivity|]. ring.
  - split; [reflexivity|]. ring.
Qed.



Local Close Scope Q_scope.

(** *** The simplifier as a composition of three steps *)

(** Every relation between graphs that is reflexive and transitive and
    holds across an assignment, the disabling of a clause and the
    disabling of an edge holds across a call of [assignVariable]. *)
Lemma simplifier_steps (P : Params) (R : FactorGraph → FactorGraph → Prop) :
  (∀ g, R g g) → (∀ g1 g2 g3, R g1 g2 → R g2 g3 → R g1 g3) →
  (∀ g v b, R g (updVar (Var.AssignValue b) v g)) →
  (∀ g c, R g (ClauseDissable P c g)) →
  (∀ g e, R g (updEdge Edge.Dissable e g)) →
  ∀ fuel,
    (∀ w v b r w', assignVariable P fuel w v b = Some (r, w') →
                   R (fg w) (fg w'))
    ∧ (∀ w c r w', unitPropagation P fuel w c = Some (r, w') →
                   R (fg w) (fg w'))
    ∧ (∀ w v r w', cleanGraph P fuel w v = Some (r, w') → R (fg w) (fg w')).
Proof.
  intros Hrefl Htrans Hassign Hclause Hedge.
  assert (Hup : ∀ assign : Assign,
            (∀ w v b r w', assign w v b = Some (r, w') → R (fg w) (fg w')) →
            ∀ w c r w', unitPropagation_ assign w c = Some (r, w') →
                        R (fg w) (fg w')).
  { intros assign Ha w c r w'. unfold unitPropagation_.
    destruct (GetEnabledEdges (fg w) c) as [|e [|e' l]].
    - intros [= <- <-]. apply Hrefl.
    - apply Ha.
    - intros [= <- <-]. apply Hrefl. }
  assert (Hclean : ∀ assign : Assign,
            (∀ w v b r w', assign w v b = Some (r, w') → R (fg w) (fg w')) →
            ∀ es w v r w', cleanGraph_ P assign es w v = Some (r, w') →
                           R (fg w) (fg w')).
  { intros assign Ha. induction es as [|e es IH]; intros w v r w'.
    - intros [= <- <-]. apply Hrefl.
    - cbn [cleanGraph_].
      destruct (Edge.enabled (getEdge (fg w) e)); [|apply IH].
      destruct (Bool.eqb _ _).
      + intros Hrun. eapply Htrans; [|exact (IH _ _ _ _ Hrun)].
        apply Hclause.
      + destruct (unitPropagation_ assign _ _) as [[[|] w2]|] eqn:Hrun2;
          try discriminate.
        * intros Hrun. eapply Htrans; [apply (Hedge (fg w) e)|].
          eapply Htrans; [exact (Hup assign Ha _ _ _ _ Hrun2)|].
          exact (IH _ _ _ _ Hrun).
        * intros [= <- <-]. eapply Htrans; [apply (Hedge (fg w) e)|].
          exact (Hup assign Ha _ _ _ _ Hrun2). }
  assert (Hfuel : ∀ fuel w v b r w',
            assignVariable P fuel w v b = Some (r, w') → R (fg w) (fg w')).
  { induction fuel as [|fuel IH]; intros w v b r w'; [discriminate|].
    cbn [assignVariable]. destruct (_ && _).
    - intros [= <- <-]. apply Hrefl.
    - intros Hrun. eapply Htrans; [apply (Hassign (fg w) v b)|].
      exact (Hclean _ IH _ _ _ _ _ Hrun). }
  intros fuel. split; [apply Hfuel|]. split.
  - apply Hup, Hfuel.
  - intros w v. apply Hclean, Hfuel.
Qed.

Lemma onlyDisables_refl g : onlyDisables g g.
Proof. unfold onlyDisables. repeat split; auto. Qed.

Lemma onlyDisables_trans g1 g2 g3 :
  onlyDisables g1 g2 → onlyDisables g2 g3 → onlyDisables g1 g3.
Proof.
  intros (Hv & Hc & He & Hes & Hcs & Hvs) (Hv' & Hc' & He' & Hes' & Hcs' & Hvs').
  unfold onlyDisables.
  split; [congruence|]. split; [congruence|]. split; [congruence|].
  split; [|split].
  - intros e. destruct (Hes e) as [H1 H2], (Hes' e) as [H1' H2'].
    split; [congruence|auto].
  - intros c. destruct (Hcs c) as [H1 H2], (Hcs' c) as [H1' H2'].
    split; [congruence|auto].
  - intros v. destruct (Hvs v) as [H1 H2], (Hvs' v) as [H1' H2'].
    split; [congruence|auto].
Qed.

Lemma onlyDisables_AssignValue g v b :
  onlyDisables g (updVar (Var.AssignValue b) v g).
Proof.
  unfold onlyDisables. cbn [updVar variables clauses edges].
  split; [apply length_alter|]. split; [reflexivity|]. split; [reflexivity|].
  split; [|split]; try (intros; split; auto; fail).
  intros v'. rewrite getVar_updVar. destruct (decide _); auto.
Qed.

Lemma onlyDisables_ClauseDissable P g c :
  onlyDisables g (ClauseDissable P c g).
Proof.
  unfold onlyDisables.
  split; [|split; [|split; [|split; [|split]]]].
  - unfold ClauseDissable. destruct (clauseDissableClearsEdges P);
      [rewrite cascade_variables|]; reflexivity.
  - unfold ClauseDissable. destruct (clauseDissableClearsEdges P);
      [rewrite cascade_clauses|]; cbn; apply length_alter.
  - unfold ClauseDissable. destruct (clauseDissableClearsEdges P);
      [rewrite cascade_length|]; reflexivity.
  - intros e. destruct (getEdge_ClauseDissable P c g e) as [-> | [-> _]]; auto.
  - intros c'. rewrite getClause_ClauseDissable.
    destruct (decide _); auto.
  - intros v. rewrite getVar_ClauseDissable. auto.
Qed.

Lemma onlyDisables_Dissable g e :
  onlyDisables g (updEdge Edge.Dissable e g).
Proof.
  unfold onlyDisables. cbn [updEdge variables clauses edges].
  split; [reflexivity|]. split; [reflexivity|]. split; [apply length_alter|].
  split; [|split]; try (intros; split; auto; fail).
  intros e'. rewrite getEdge_Dissable. destruct (decide _); auto.
Qed.

Lemma enabledCount_trans (g1 g2 g3 : FactorGraph) :
  enabledCount g2 <= enabledCount g1 → enabledCount g3 <= enabledCount g2 →
  enabledCount g3 <= enabledCount g1.
Proof. lia. Qed.

(** X19: The simplifier only disables and assigns.  Across a call of
    [assignVariable], [cleanGraph] or [unitPropagation], whatever it
    returns, no edge and no clause is enabled again and no variable loses
    its assignment; surveys, cached sub-products, biases, literals and the
    lists of the graph are not written; and the number of enabled edges
    does not grow. *)
Theorem simplifier_only_disables (P : Params) (fuel : nat) (w : World)
    (x : nat) (b r : bool) (w' : World) :
  assignVariable P fuel w x b = Some (r, w')
  ∨ cleanGraph P fuel w x = Some (r, w')
  ∨ unitPropagation P fuel w x = Some (r, w') →
  onlyDisables (fg w) (fg w')
  ∧ enabledCount (fg w') <= enabledCount (fg w).
Proof.
  intros Hrun. split.
  - destruct (simplifier_steps P onlyDisables onlyDisables_refl
                onlyDisables_trans onlyDisables_AssignValue
                (onlyDisables_ClauseDissable P) onlyDisables_Dissable fuel)
      as (Ha & Hu & Hc).
    destruct Hrun as [Hrun|[Hrun|Hrun]]; eauto.
  - destruct (simplifier_steps P
                (fun g g' => enabledCount g' <= enabledCount g)
                (fun g => le_n (enabledCount g))
                ltac:(intros g1 g2 g3; apply enabledCount_trans)
                (fun g v b => le_n (enabledCount g))
                (fun g c => enabledCount_ClauseDissable P c g)
                (fun g e => enabledCount_Dissable_le e g) fuel)
      as (Ha & Hu & Hc).
    destruct Hrun as [Hrun|[Hrun|Hrun]]; eauto.
Qed.

Lemma simplifier_only_disables_witness :
  ∃ r w', assignVariable (defaults false) 5 (mkWorld implication []) 1 true
          = Some (r, w')
          ∧ enabledCount (fg w') <= enabledCount implication.
Proof.
  destruct (assignVariable (defaults false) 5 (mkWorld implication []) 1 true)
    as [[r w']|] eqn:Hrun; [|vm_compute in Hrun; discriminate].
  exists r, w'. split; [reflexivity|].
  exact (proj2 (simplifier_only_disables (defaults false) 5
                  (mkWorld implication []) 1 true r w' (or_introl Hrun))).
Defined.

(** X20: On a well-formed graph every edge that [assignVariable] disables is
    accounted for: its clause has been disabled, or its variable is
    assigned the opposite of its polarity.  No assigned variable changes
    its value, and the graph stays well formed. *)
Theorem assignVariable_justified (P : Params) (fuel : nat) (w : World)
    (v : nat) (b r : bool) (w' : World) :
  wellFormed (fg w) →
  assignVariable P fuel w v b = Some (r, w') →
  wellFormed (fg w')
  ∧ (∀ u, Var.assigned (getVar (fg w) u) = true →
          Var.assigned (getVar (fg w') u) = true
          ∧ Var.value (getVar (fg w') u) = Var.value (getVar (fg w) u))
  ∧ ∀ e, Edge.enabled (getEdge (fg w) e) = true →
         Edge.enabled (getEdge (fg w') e) = false →
         Clause.enabled (getClause (fg w') (Edge.clause (getEdge (fg w) e)))
         = false
         ∨ (Var.assigned (getVar (fg w') (Edge.variable (getEdge (fg w) e)))
            = true
            ∧ Var.value (getVar (fg w') (Edge.variable (getEdge (fg w) e)))
              ≠ Edge.type (getEdge (fg w) e)).
Proof.
  intros Hwf Hrun.
  destruct (assignVariable_sound P fuel w v b r w' Hwf Hrun)
    as [(Hshape & _ & Hval & Hedge) _].
  split; [exact (wellFormed_sameShape _ _ Hwf Hshape)|].
  split; [exact Hval|exact Hedge].
Qed.

Lemma assignVariable_justified_witness :
  ∃ r w', assignVariable (defaults false) 7 (mkWorld chain []) 0 true
          = Some (r, w')
          ∧ wellFormed (fg w').
Proof.
  destruct (assignVariable (defaults false) 7 (mkWorld chain []) 0 true)
    as [[r w']|] eqn:Hrun; [|vm_compute in Hrun; discriminate].
  exists r, w'. split; [reflexivity|].
  refine (proj1 (assignVariable_justified (defaults false) 7
                   (mkWorld chain []) 0 true r w' _ Hrun)).
  apply wellFormedb_sound. vm_compute. reflexivity.
Defined.

(** *** The simplifier disables only clauses that hold *)

Lemma satisfied_simplifies g g' c :
  simplifies g g' → satisfied g c → satisfied g' c.
Proof.
  intros ((_ & _ & _ & _ & Hcl & Hel) & _ & Hval & _) (e & Hin & Ha & Hv).
  destruct (Hel e) as (Hty & Hvar & _).
  exists e. rewrite Hcl, Hvar, Hty. split; [exact Hin|].
  destruct (Hval _ Ha) as [Ha' Hv']. split; [exact Ha'|]. congruence.
Qed.

Lemma newlySatisfied_refl g : newlySatisfied g g.
Proof. intros c _ H1 H2. congruence. Qed.

Lemma newlySatisfied_trans g1 g2 g3 :
  simplifies g1 g2 → simplifies g2 g3 →
  newlySatisfied g1 g2 → newlySatisfied g2 g3 → newlySatisfied g1 g3.
Proof.
  intros Hs12 Hs23 H12 H23 c Hc Hen Hdis.
  destruct (Clause.enabled (getClause g2 c)) eqn:Hmid.
  - apply H23; auto. destruct Hs12 as ((_ & -> & _) & _). exact Hc.
  - apply (satisfied_simplifies g2 g3 c Hs23). now apply H12.
Qed.

Lemma newlySatisfied_same_clauses g g' :
  (∀ c, getClause g' c = getClause g c) → newlySatisfied g g'.
Proof. intros Hsame c _ H1 H2. rewrite Hsame in H2. congruence. Qed.

Lemma unitPropagation_N (assign : Assign) w c r w' :
  soundN assign → wellFormed (fg w) →
  unitPropagation_ assign w c = Some (r, w') →
  newlySatisfied (fg w) (fg w').
Proof.
  intros Hassign Hwf. unfold unitPropagation_.
  destruct (GetEnabledEdges (fg w) c) as [|e [|e' l]].
  - intros [= <- <-]. apply newlySatisfied_refl.
  - intros Hrun. exact (Hassign _ _ _ _ _ Hwf Hrun).
  - intros [= <- <-]. apply newlySatisfied_refl.
Qed.

Lemma newlySatisfied_ClauseDissable P g var e :
  wellFormed g → e ∈ Var.allNeighbourEdges (getVar g var) →
  Var.assigned (getVar g var) = true →
  Edge.enabled (getEdge g e) = true →
  Edge.type (getEdge g e) = Var.value (getVar g var) →
  newlySatisfied g (ClauseDissable P (Edge.clause (getEdge g e)) g).
Proof.
  intros Hwf Hin Ha Hen Hty c Hc Hen1 Hdis.
  pose proof Hwf as (W1 & _ & _ & W4).
  rewrite getClause_ClauseDissable in Hdis.
  destruct (decide _) as [<-|]; [|congruence].
  pose proof (simplifies_ClauseDissable P g (Edge.clause (getEdge g e)) Hwf)
    as ((_ & _ & _ & Hvl & Hcl & Hel) & _).
  destruct (Hel e) as (Hty1 & Hvar1 & _).
  destruct (W1 var e Hin) as [Hlt Hvar].
  exists e. rewrite Hcl, Hvar1, Hty1, Hvar, getVar_ClauseDissable.
  split; [now apply W4|]. split; [exact Ha|]. now symmetry.
Qed.

Lemma cleanGraph_N (P : Params) (assign : Assign) :
  sound assign → soundN assign →
  ∀ es w var r w',
    wellFormed (fg w) →
    (∀ e, e ∈ es → e ∈ Var.allNeighbourEdges (getVar (fg w) var)) →
    Var.assigned (getVar (fg w) var) = true →
    cleanGraph_ P assign es w var = Some (r, w') →
    newlySatisfied (fg w) (fg w').
Proof.
  intros Hsound HN. induction es as [|e es IH]; intros w var r w' Hwf Hsub Ha.
  - intros [= <- <-]. apply newlySatisfied_refl.
  - assert (Hsub' : ∀ e', e' ∈ es →
                      e' ∈ Var.allNeighbourEdges (getVar (fg w) var)).
    { intros e' Hin. apply Hsub, elem_of_cons. auto. }
    (* the rest of the loop, started in a state [w1] reached from [w] *)
    assert (Htail : ∀ w1 r w',
              simplifies (fg w) (fg w1) → newlySatisfied (fg w) (fg w1) →
              cleanGraph_ P assign es w1 var = Some (r, w') →
              newlySatisfied (fg w) (fg w')).
    { intros w1 r1 w1' Hs1 HN1 Hrun.
      pose proof (wellFormed_sameShape _ _ Hwf (proj1 Hs1)) as Hwf1.
      pose proof Hs1 as ((_ & _ & _ & Hvl & _) & _ & Hc & _).
      assert (Hsub1 : ∀ e', e' ∈ es →
                        e' ∈ Var.allNeighbourEdges (getVar (fg w1) var))
        by (intros e' Hin; rewrite Hvl; auto).
      assert (Ha1 : Var.assigned (getVar (fg w1) var) = true) by now apply Hc.
      destruct (cleanGraph_sound P assign Hsound es w1 var r1 w1' Hwf1 Hsub1
                  Ha1 Hrun) as (Hs2 & _).
      exact (newlySatisfied_trans _ _ _ Hs1 Hs2 HN1
               (IH w1 var r1 w1' Hwf1 Hsub1 Ha1 Hrun)). }
    cbn [cleanGraph_]. destruct (Edge.enabled (getEdge (fg w) e)) eqn:Hen.
    + destruct (Bool.eqb _ _) eqn:Hty.
      * intros Hrun. apply eqb_prop in Hty.
        apply (Htail (onGraph (ClauseDissable P (Edge.clause
                                                   (getEdge (fg w) e))) w)
                 _ _ (simplifies_ClauseDissable P (fg w) _ Hwf)
                 (newlySatisfied_ClauseDissable P (fg w) var e Hwf
                    (Hsub e ltac:(apply elem_of_cons; auto)) Ha Hen Hty)
                 Hrun).
      * pose proof (simplifies_Dissable (fg w) var e Hwf
                      (Hsub e ltac:(apply elem_of_cons; auto)) Ha Hty) as Hs1.
        assert (HN1 : newlySatisfied (fg w) (updEdge Edge.Dissable e (fg w)))
          by (apply newlySatisfied_same_clauses; reflexivity).
        pose proof (wellFormed_sameShape _ _ Hwf (proj1 Hs1)) as Hwf1.
        destruct (unitPropagation_ assign (onGraph (updEdge Edge.Dissable e) w)
                    (Edge.clause (getEdge (fg w) e))) as [[r2 w2]|] eqn:Hup;
          [|discriminate].
        destruct (unitPropagation_sound assign
                    (onGraph (updEdge Edge.Dissable e) w) _ _ _ Hsound
                    Hwf1 Hup) as (Hs2 & _).
        pose proof (unitPropagation_N assign
                      (onGraph (updEdge Edge.Dissable e) w) _ _ _ HN
                      Hwf1 Hup) as HN2.
        pose proof (simplifies_trans _ _ _ Hs1 Hs2) as Hs12.
        pose proof (newlySatisfied_trans _ _ _ Hs1 Hs2 HN1 HN2) as HN12.
        destruct r2.
        -- intros Hrun. exact (Htail w2 _ _ Hs12 HN12 Hrun).
        -- intros [= <- <-]. exact HN12.
    + intros Hrun.
      exact (Htail w _ _ (simplifies_refl _) (newlySatisfied_refl _) Hrun).
Qed.

Lemma assignVariable_N (P : Params) (fuel : nat) :
  soundN (assignVariable P fuel).
Proof.
  induction fuel as [|fuel IH]; intros w v b r w' Hwf; [discriminate|].
  cbn [assignVariable]. destruct (_ && _) eqn:Hcheck.
  - intros [= <- <-]. apply newlySatisfied_refl.
  - intros Hrun.
    pose proof (simplifies_AssignValue (fg w) v b Hcheck) as Hs0.
    pose proof (wellFormed_sameShape _ _ Hwf (proj1 Hs0)) as Hwf1.
    assert (HN0 : newlySatisfied (fg w) (updVar (Var.AssignValue b) v (fg w)))
      by (apply newlySatisfied_same_clauses; reflexivity).
    assert (Hsub : ∀ e, e ∈ Var.allNeighbourEdges (getVar (fg w) v) →
              e ∈ Var.allNeighbourEdges
                    (getVar (updVar (Var.AssignValue b) v (fg w)) v)).
    { intros e He. pose proof Hs0 as ((_ & _ & _ & Hvl & _) & _).
      now rewrite Hvl. }
    assert (Ha : Var.assigned (getVar (updVar (Var.AssignValue b) v (fg w)) v)
                 = true).
    { rewrite getVar_updVar. destruct (decide _) as [|Hno]; [reflexivity|].
      unfold getVar. rewrite (proj2 (lookup_ge_None _ _)); [reflexivity|].
      destruct (decide (v < length (variables (fg w)))); [|lia].
      destruct Hno. auto. }
    destruct (cleanGraph_sound P _ (assignVariable_sound P fuel) _
                (onGraph (updVar (Var.AssignValue b) v) w) v r w'
                Hwf1 Hsub Ha Hrun) as (Hs1 & _).
    exact (newlySatisfied_trans _ _ _ Hs0 Hs1 HN0
             (cleanGraph_N P _ (assignVariable_sound P fuel) IH _
                (onGraph (updVar (Var.AssignValue b) v) w) v r w'
                Hwf1 Hsub Ha Hrun)).
Qed.

(** X21: The simplifier is sound for the clauses.  If, on a well-formed graph,
    every disabled clause holds under the recorded assignment, the same is
    true after a call of [assignVariable], whatever it returns: a clause
    is disabled only when one of its literals has become true, and that
    literal stays true. *)
Theorem assignVariable_disables_satisfied_clauses (P : Params) (fuel : nat)
    (w : World) (v : nat) (b r : bool) (w' : World) :
  wellFormed (fg w) → disabledSatisfied (fg w) →
  assignVariable P fuel w v b = Some (r, w') →
  disabledSatisfied (fg w').
Proof.
  intros Hwf Hsat Hrun c Hc Hdis.
  destruct (assignVariable_sound P fuel w v b r w' Hwf Hrun) as [Hs _].
  pose proof Hs as ((_ & Hlen & _) & _). rewrite Hlen in Hc.
  destruct (Clause.enabled (getClause (fg w) c)) eqn:Hen.
  - now apply (assignVariable_N P fuel w v b r w' Hwf Hrun).
  - apply (satisfied_simplifies _ _ _ Hs). now apply Hsat.
Qed.

Lemma assignVariable_disables_satisfied_clauses_witness :
  ∃ r w', assignVariable (defaults true) 5 (mkWorld implication []) 1 true
          = Some (r, w')
          ∧ disabledSatisfied (fg w').
Proof.
  destruct (assignVariable (defaults true) 5 (mkWorld implication []) 1 true)
    as [[r w']|] eqn:Hrun; [|vm_compute in Hrun; discriminate].
  exists r, w'. split; [reflexivity|].
  refine (assignVariable_disables_satisfied_clauses (defaults true) 5
            (mkWorld implication []) 1 true r w' wellFormed_implication _ Hrun).
  intros [|[|c]] Hc Hdis; try discriminate. cbn in Hc. lia.
Defined.

(** *** After a successful assignment survey propagation may run again *)

Lemma onlyDisables_sameShape g g' : onlyDisables g g' → sameShape g g'.
Proof.
  intros (Hv & Hc & He & Hes & Hcs & Hvs). unfold sameShape.
  split; [exact Hv|]. split; [exact Hc|]. split; [exact He|].
  split; [|split].
  - intros v. exact (f_equal Var.allNeighbourEdges (proj1 (Hvs v))).
  - intros c. exact (f_equal Clause.allNeighbourEdges (proj1 (Hcs c))).
  - intros e. destruct (Hes e) as [Heq _]. repeat split.
    + exact (f_equal Edge.type Heq).
    + exact (f_equal Edge.variable Heq).
    + exact (f_equal Edge.clause Heq).
Qed.

Lemma assign_wellFormed (P : Params) (fuel : nat) w v b r w' :
  wellFormed (fg w) → assignVariable P fuel w v b = Some (r, w') →
  wellFormed (fg w').
Proof.
  intros Hwf Hrun. apply (wellFormed_sameShape _ _ Hwf).
  apply onlyDisables_sameShape.
  apply (simplifier_steps P onlyDisables onlyDisables_refl
           onlyDisables_trans onlyDisables_AssignValue
           (onlyDisables_ClauseDissable P) onlyDisables_Dissable fuel)
    in Hrun.
  exact Hrun.
Qed.

Lemma liveExcept_ClauseDissable P (X : nat → Prop) g e0 :
  wellFormed g →
  liveExcept (fun e => X e ∨ e = e0) g →
  liveExcept X (ClauseDissable P (Edge.clause (getEdge g e0)) g).
Proof.
  intros (_ & W2 & _) Hlive c e Hc Hin Hen Ha.
  rewrite getClause_ClauseDissable in Hc, Hin.
  destruct (decide (Edge.clause (getEdge g e0) = c)) as [Heq|Hne];
    [discriminate|].
  rewrite getVar_ClauseDissable in Ha.
  destruct (getEdge_ClauseDissable P (Edge.clause (getEdge g e0)) g e)
    as [Hsame | [Hdis _]]; [|rewrite Hdis in Hen; discriminate].
  rewrite Hsame in Hen, Ha.
  destruct (Hlive c e Hc Hin Hen Ha) as [HX | ->]; [exact HX|].
  destruct (W2 c e0 Hin) as [_ Hcl]. contradiction.
Qed.

Lemma liveExcept_Dissable (X : nat → Prop) g e0 :
  liveExcept (fun e => X e ∨ e = e0) g →
  liveExcept X (updEdge Edge.Dissable e0 g).
Proof.
  intros Hlive c e Hc Hin Hen Ha.
  rewrite getEdge_Dissable in Hen, Ha.
  destruct (decide (e0 = e)) as [->|Hne]; [discriminate|].
  destruct (Hlive c e Hc Hin Hen Ha) as [HX | ->]; [exact HX|contradiction].
Qed.

Lemma liveExcept_weaken (X Y : nat → Prop) g :
  (∀ e, X e → Y e) → liveExcept X g → liveExcept Y g.
Proof. intros HXY Hlive c e Hc Hin Hen Ha. apply HXY. eauto. Qed.

Lemma cleanGraph_L (P : Params) (assign : Assign) :
  sound assign → soundL assign →
  ∀ es (X : nat → Prop) w var w',
    wellFormed (fg w) →
    liveExcept (fun e => X e ∨ e ∈ es) (fg w) →
    cleanGraph_ P assign es w var = Some (true, w') →
    liveExcept X (fg w').
Proof.
  intros Hsound HL. induction es as [|e0 es IH]; intros X w var w' Hwf Hlive.
  - intros [= <-]. refine (liveExcept_weaken _ _ _ _ Hlive).
    intros e [HX|Hin]; [exact HX|now apply elem_of_nil in Hin].
  - assert (Hsplit : liveExcept (fun e => (X e ∨ e ∈ es) ∨ e = e0) (fg w)).
    { refine (liveExcept_weaken _ _ _ _ Hlive).
      intros e [HX|Hin]; [now left; left|].
      apply elem_of_cons in Hin as [->|Hin]; [now right|now left; right]. }
    cbn [cleanGraph_]. destruct (Edge.enabled (getEdge (fg w) e0)) eqn:Hen.
    + destruct (Bool.eqb _ _).
      * apply IH.
        -- exact (wellFormed_sameShape _ _ Hwf
                    (proj1 (simplifies_ClauseDissable P (fg w) _ Hwf))).
        -- now apply liveExcept_ClauseDissable.
      * pose proof (liveExcept_Dissable _ _ _ Hsplit) as Hlive1.
        assert (Hwf1 : wellFormed (updEdge Edge.Dissable e0 (fg w))).
        { apply (wellFormed_sameShape _ _ Hwf), onlyDisables_sameShape,
            onlyDisables_Dissable. }
        destruct (unitPropagation_ assign (onGraph (updEdge Edge.Dissable e0) w)
                    (Edge.clause (getEdge (fg w) e0))) as [[[|] w2]|] eqn:Hup;
          try discriminate.
        destruct (unitPropagation_sound assign
                    (onGraph (updEdge Edge.Dissable e0) w) _ _ _ Hsound
                    Hwf1 Hup) as (Hs2 & _).
        apply IH; [exact (wellFormed_sameShape _ _ Hwf1 (proj1 Hs2))|].
        revert Hup. unfold unitPropagation_.
        destruct (GetEnabledEdges _ _) as [|e1 [|e2 l]].
        -- discriminate.
        -- intros Hrun.
           exact (HL _ (onGraph (updEdge Edge.Dissable e0) w) _ _ _
                     Hwf1 Hlive1 Hrun).
        -- intros [= <-]. exact Hlive1.
    + apply IH; [exact Hwf|].
      intros c e Hc Hin Hen' Ha.
      destruct (Hsplit c e Hc Hin Hen' Ha) as [HX | ->]; [exact HX|].
      congruence.
Qed.

Lemma assignVariable_L (P : Params) (fuel : nat) :
  soundL (assignVariable P fuel).
Proof.
  induction fuel as [|fuel IH]; intros X w v b w' Hwf Hlive; [discriminate|].
  cbn [assignVariable]. destruct (_ && _) eqn:Hcheck; [discriminate|].
  pose proof (simplifies_AssignValue (fg w) v b Hcheck) as Hs0.
  apply (cleanGraph_L P _ (assignVariable_sound P fuel) IH).
  - exact (wellFormed_sameShape _ _ Hwf (proj1 Hs0)).
  - intros c e Hc Hin Hen Ha. cbn [fg onGraph] in Hc, Hin, Hen, Ha.
    change (getClause (updVar (Var.AssignValue b) v (fg w)) c)
      with (getClause (fg w) c) in Hc, Hin.
    change (getEdge (updVar (Var.AssignValue b) v (fg w)) e)
      with (getEdge (fg w) e) in Hen, Ha.
    rewrite getVar_updVar in Ha.
    destruct (decide _) as [[Hv _]|_].
    + right. rewrite Hv. destruct Hwf as (_ & _ & _ & W4).
      apply W4. now apply enabled_valid.
    + left. exact (Hlive c e Hc Hin Hen Ha).
Qed.

(** X22: A successful assignment leaves a graph on which survey propagation
    may run again.  If the graph is well formed, no survey is negative and
    the enabled edges of enabled clauses lead to unassigned variables, the
    same holds after a call of [assignVariable] that returns [true]:
    every edge of a variable assigned on the way, by the call itself or
    by unit propagation, is disabled or lies in a disabled clause. *)
Theorem assignVariable_restores_live_edges (P : Params) (fuel : nat)
    (w : World) (v : nat) (b : bool) (w' : World) :
  wellFormed (fg w) → surveysNonneg (fg w) → liveEdgesUnassigned (fg w) →
  assignVariable P fuel w v b = Some (true, w') →
  wellFormed (fg w') ∧ surveysNonneg (fg w') ∧ liveEdgesUnassigned (fg w').
Proof.
  intros Hwf Hsurv Hlive Hrun.
  split; [exact (assign_wellFormed P fuel w v b true w' Hwf Hrun)|]. split.
  - intros e.
    destruct (simplifier_steps P onlyDisables onlyDisables_refl
                onlyDisables_trans onlyDisables_AssignValue
                (onlyDisables_ClauseDissable P) onlyDisables_Dissable fuel)
      as (Ha & _).
    destruct (Ha _ _ _ _ _ Hrun) as (_ & _ & _ & Hes & _).
    rewrite (f_equal Edge.survey (proj1 (Hes e))
             : Edge.survey (getEdge (fg w') e) = _).
    apply Hsurv.
  - assert (HL : liveExcept (fun _ => False) (fg w')).
    { apply (assignVariable_L P fuel _ w v b w' Hwf); [|exact Hrun].
      intros c e Hc Hin Hen Ha. rewrite (Hlive c e Hc Hin Hen) in Ha.
      discriminate. }
    intros c e Hc Hin Hen.
    destruct (Var.assigned (getVar (fg w') (Edge.variable (getEdge (fg w') e))))
      eqn:Ha; [|reflexivity].
    destruct (HL c e Hc Hin Hen Ha).
Qed.

Lemma implication_ready :
  wellFormed implication ∧ surveysNonneg implication
  ∧ liveEdgesUnassigned implication.
Proof.
  split; [exact wellFormed_implication|]. split.
  - intros [|[|[|[|e]]]]; vm_compute; discriminate.
  - intros c e Hc Hin Hen.
    destruct (Var.assigned (getVar implication
                              (Edge.variable (getEdge implication e))))
      eqn:Ha; [|reflexivity].
    destruct e as [|[|[|[|e]]]]; vm_compute in Ha; discriminate.
Qed.

Lemma assignVariable_restores_live_edges_witness :
  ∃ w', assignVariable (defaults false) 5 (mkWorld implication []) 1 true
        = Some (true, w')
        ∧ liveEdgesUnassigned (fg w').
Proof.
  destruct (assignVariable (defaults false) 5 (mkWorld implication []) 1 true)
    as [[r w']|] eqn:Hrun; [|vm_compute in Hrun; discriminate].
  assert (Hr : r = true).
  { pose proof Hrun as Hc. vm_compute in Hc. now injection Hc as <- _. }
  subst r. exists w'. split; [reflexivity|].
  destruct implication_ready as (Hwf & Hsurv & Hlive).
  exact (proj2 (proj2 (assignVariable_restores_live_edges (defaults false) 5
                         (mkWorld implication []) 1 true w'
                         Hwf Hsurv Hlive Hrun))).
Defined.

Local Open Scope Q_scope.

(** *** Surveys stay probabilities *)

Lemma prob_nonneg (x : dbl) : prob x → nonneg x.
Proof. destruct x; cbn; auto. intros [H _]. exact H. Qed.

Lemma prob_ratio (n t : Q) :
  0 <= n → 0 <= t → prob (Fin n / (Fin n + Fin t))%D.
Proof.
  intros Hn Ht. rewrite add_fin. unfold Dbl.div.
  destruct (Qeq_bool (n + t) 0) eqn:Hz.
  - apply Qeq_bool_iff in Hz. assert (Hn0 : n == 0) by lra.
    apply Qeq_alt in Hn0. now rewrite Hn0.
  - apply Qeq_bool_neq in Hz. cbn.
    assert (Hpos : 0 < n + t) by lra.
    split.
    + apply Qle_shift_div_l; [exact Hpos|lra].
    + apply Qle_shift_div_r; [exact Hpos|lra].
Qed.

Lemma prob_mul (x y : dbl) : prob x → prob y → prob (x * y)%D.
Proof.
  destruct x as [a| | |], y as [b| | |]; cbn; try contradiction; auto.
  intros [Ha0 Ha1] [Hb0 Hb1]. split; nra.
Qed.

(** Under I1 both weights of an enabled edge are finite and not
    negative. *)
Lemma subSurveyWeights_finite (P : Params) (ε : Q) (g : FactorGraph)
    (e : nat) :
  ZERO_EPSILON P = Fin ε → 0 <= ε →
  wellFormed g → surveysNonneg g →
  Edge.enabled (getEdge g e) = true →
  I1 P g (Edge.variable (getEdge g e)) →
  ∃ n t, subSurveyWeights P (getVar g (Edge.variable (getEdge g e)))
                          (getEdge g e) = (Fin n, Fin t)
         ∧ 0 <= n ∧ 0 <= t.
Proof.
  intros Heps Hε Hwf Hsurv Hen HI.
  pose proof Hwf as (_ & _ & _ & W4).
  destruct (W4 e (enabled_valid g e Hen)) as [Hin _].
  destruct (I1_cache_range P ε Heps Hε g _ Hsurv HI)
    as (a & b & Hp & Ha0 & Ha1 & Hm & Hb0 & Hb1).
  destruct HI as ((_ & Hpz) & (_ & Hmz)).
  set (var := getVar g (Edge.variable (getEdge g e))) in *.
  assert (Hdiv : ∀ t c, 0 < c →
            Edge.type (getEdge g e) = t →
            Z.of_nat (length (saturatedOf P g t (Var.allNeighbourEdges var)))
            = 0%Z →
            ∃ d, (Fin c / (one - Edge.survey (getEdge g e)))%D = Fin d
                 ∧ 0 <= d).
  { intros t c Hc Hty Hzero.
    assert (Hu : unsaturated P (Edge.survey (getEdge g e)) = true).
    { eapply I1_zero_counter; eauto. unfold onSide.
      rewrite Hen, Hty. now destruct t. }
    destruct (unsaturated_fin P ε Heps _ Hu (nonneg_not_NInf _ (Hsurv e)))
      as (q & -> & Hq).
    rewrite one_sub_fin, div_fin by lra. eexists. split; [reflexivity|].
    apply Qle_shift_div_l; lra. }
  assert (Hside : ∀ t x c (z : Z), 0 < c → x = Fin c →
            Edge.type (getEdge g e) = t →
            z = Z.of_nat (length (saturatedOf P g t (Var.allNeighbourEdges var))) →
            ∃ d, (if (z =? 0)%Z
                  then (x / (one - Edge.survey (getEdge g e)))%D
                  else if (z =? 1)%Z
                          && (one - Edge.survey (getEdge g e)
                              <? ZERO_EPSILON P)%D
                       then x else zero) = Fin d ∧ 0 <= d).
  { intros t x c z Hc -> Hty Hz. destruct (z =? 0)%Z eqn:Hz0.
    - apply Z.eqb_eq in Hz0. apply (Hdiv t); auto. congruence.
    - destruct (_ && _); eexists; (split; [reflexivity|lra]). }
  assert (Hother : ∀ x c (z : Z), 0 < c ∧ c <= 1 → x = Fin c →
            ∃ d, (if nz z then zero else x) = Fin d ∧ 0 <= d <= 1).
  { intros x c z Hc ->. destruct (nz z); eexists;
      (split; [reflexivity|lra]). }
  unfold subSurveyWeights. fold var.
  destruct (Edge.type (getEdge g e)) eqn:Hty.
  - destruct (Hother (Var.m var) b (Var.mzero var)) as (c & -> & Hc); auto.
    destruct (Hside true (Var.p var) a (Var.pzero var)) as (d & -> & Hd);
      auto.
    rewrite one_sub_fin, mul_fin. eexists _, _. split; [reflexivity|].
    split; [nra|lra].
  - destruct (Hother (Var.p var) a (Var.pzero var)) as (c & -> & Hc); auto.
    destruct (Hside false (Var.m var) b (Var.mzero var)) as (d & -> & Hd);
      auto.
    rewrite one_sub_fin, mul_fin. eexists _, _. split; [reflexivity|].
    split; [nra|lra].
Qed.

Lemma subSurveyOf_prob (P : Params) (ε : Q) (g : FactorGraph) (e : nat) :
  ZERO_EPSILON P = Fin ε → 0 <= ε →
  wellFormed g → surveysNonneg g →
  Edge.enabled (getEdge g e) = true →
  I1 P g (Edge.variable (getEdge g e)) →
  prob (subSurveyOf P (getVar g (Edge.variable (getEdge g e))) (getEdge g e)).
Proof.
  intros Heps Hε Hwf Hsurv Hen HI.
  destruct (subSurveyWeights_finite P ε g e Heps Hε Hwf Hsurv Hen HI)
    as (n & t & Hw & Hn & Ht).
  unfold subSurveyOf. rewrite Hw. now apply prob_ratio.
Qed.

Lemma collectInv_init (P : Params) : collectInv P (mkSubSurveys 0 one []).
Proof.
  unfold collectInv. cbn. repeat split; auto; try lra; try lia.
Qed.

Lemma collectInv_step (P : Params) (ε : Q) (acc : SubSurveys) (s : dbl) :
  ZERO_EPSILON P = Fin ε → collectInv P acc → prob s →
  collectInv P
    (if (s <? ZERO_EPSILON P)%D
     then mkSubSurveys (zeros acc + 1)%Z (allSubSurveys acc)
                       (subSurveys acc ++ [s])
     else mkSubSurveys (zeros acc) (allSubSurveys acc * s)%D
                       (subSurveys acc ++ [s])).
Proof.
  intros Heps (Hall & Hsubs & Hz & Hnone & Hle) Hs.
  destruct (s <? ZERO_EPSILON P)%D eqn:Hsmall; unfold collectInv;
    cbn [zeros allSubSurveys subSurveys].
  - split; [exact Hall|]. split; [apply Forall_app; auto|].
    split; [lia|]. split; [intros; lia|].
    apply Forall_app. split; [exact Hle|].
    apply Forall_singleton. congruence.
  - split; [now apply prob_mul|]. split; [apply Forall_app; auto|].
    split; [exact Hz|]. split.
    + intros Hz0. apply Forall_app. split; [auto|].
      apply Forall_singleton. exact Hsmall.
    + apply Forall_app. split.
      * eapply Forall_impl; [exact Hle|]. cbn beta.
        intros s0 Hs0 Hns a' q0 Ha' Hq0.
        destruct (allSubSurveys acc) as [a| | |], s as [q1| | |];
          cbn in Ha', Hall, Hs; try discriminate; try contradiction.
        injection Ha' as <-. specialize (Hs0 Hns a q0 eq_refl Hq0). nra.
      * apply Forall_singleton.
        intros _ a' q0 Ha' ->.
        destruct (allSubSurveys acc) as [a| | |];
          cbn in Ha', Hall, Hs; try discriminate; try contradiction.
        injection Ha' as <-. nra.
Qed.

Lemma collect_prob (P : Params) (ε : Q) (g : FactorGraph) (es : list nat) :
  ZERO_EPSILON P = Fin ε → 0 <= ε → wellFormed g → surveysNonneg g →
  (∀ e, e ∈ es → Edge.enabled (getEdge g e) = true →
        I1 P g (Edge.variable (getEdge g e))) →
  ∀ acc, collectInv P acc →
    collectInv P (fold_left (collectStep P g) es acc).
Proof.
  intros Heps Hε Hwf Hsurv. induction es as [|e es IH]; intros HI acc Hacc;
    [exact Hacc|].
  cbn [fold_left]. apply IH.
  - intros e' Hin. apply HI, elem_of_cons. auto.
  - unfold collectStep.
    destruct (Edge.enabled (getEdge g e)) eqn:Hen; [|exact Hacc].
    apply (collectInv_step P ε); auto.
    apply (subSurveyOf_prob P ε); auto.
    apply HI; [apply elem_of_cons; auto|exact Hen].
Qed.

Lemma newSurveyOf_prob (P : Params) (ε : Q) (acc : SubSurveys) (i : nat) :
  ZERO_EPSILON P = Fin ε → collectInv P acc → prob (newSurveyOf P acc i).
Proof.
  intros Heps (Hall & Hsubs & Hz & Hnone & Hle). unfold newSurveyOf.
  destruct (zeros acc =? 0)%Z eqn:Hz0.
  2:{ destruct (_ && _); [exact Hall|cbn; lra]. }
  apply Z.eqb_eq in Hz0. specialize (Hnone Hz0).
  destruct (subSurveys acc !! i) as [s|] eqn:Hl.
  2:{ cbn. now destruct (allSubSurveys acc). }
  cbn [default from_option id].
  pose proof (Forall_lookup_1 _ _ _ _ Hsubs Hl) as Hs.
  pose proof (Forall_lookup_1 _ _ _ _ Hnone Hl) as Hns.
  pose proof (Forall_lookup_1 _ _ _ _ Hle Hl Hns) as Hbound.
  destruct (allSubSurveys acc) as [a| | |], s as [q| | |];
    cbn in Hall, Hs; try contradiction; try exact I.
  specialize (Hbound a q eq_refl eq_refl).
  unfold Dbl.div. destruct (Qeq_bool q 0) eqn:Hq0.
  - apply Qeq_bool_iff in Hq0. assert (Ha0 : a == 0) by lra.
    apply Qeq_alt in Ha0. now rewrite Ha0.
  - apply Qeq_bool_neq in Hq0. cbn. split.
    + apply Qle_shift_div_l; lra.
    + apply Qle_shift_div_r; lra.
Qed.

Lemma writeBack_fold_prob (P : Params) (acc : SubSurveys) (es : list nat) :
  (∀ i, prob (newSurveyOf P acc i)) →
  ∀ st, surveysProb (wb_graph st) →
    surveysProb (wb_graph (fold_left (writeBackStep P acc) es st)).
Proof.
  intros Hnew. induction es as [|e es IH]; intros st Hst; [exact Hst|].
  cbn [fold_left]. apply IH. intros e'.
  destruct (writeBackStep_frame P acc st e) as (_ & _ & _ & _ & Hsv).
  destruct (Hsv e') as [-> | ->]; [apply Hst|apply Hnew].
Qed.

Lemma updateSurveys_prob (P : Params) (ε : Q) (g : FactorGraph) (c : nat) :
  ZERO_EPSILON P = Fin ε → 0 <= ε →
  spInvariant P g → surveysProb g →
  Clause.enabled (getClause g c) = true →
  surveysProb (snd (updateSurveys P g c)).
Proof.
  intros Heps Hε (Hwf & Hsurv & Hlive & HI) Hprob Hc.
  unfold updateSurveys. cbn [snd].
  apply writeBack_fold_prob; [|exact Hprob].
  intros i. apply (newSurveyOf_prob P ε _ _ Heps).
  unfold collectSubSurveys.
  apply (collect_prob P ε); auto using collectInv_init.
  intros e Hin Hen. apply HI. now apply (Hlive c).
Qed.

Lemma sweep_prob (P : Params) (ε : Q) (cs : list nat) :
  ZERO_EPSILON P = Fin ε → 0 <= ε →
  ∀ g d, spInvariant P g → surveysProb g →
    (∀ c, c ∈ cs → Clause.enabled (getClause g c) = true) →
    spInvariant P (fst (sweep P cs g d)) ∧ surveysProb (fst (sweep P cs g d)).
Proof.
  intros Heps Hε. unfold sweep.
  induction cs as [|c cs IH]; intros g d Hinv Hprob Hen; [split; assumption|].
  cbn [fold_left]. unfold sweepStep at 2 4. cbn [fst snd].
  pose proof (updateSurveys_spInvariant P ε Heps Hε g c Hinv
                (Hen c ltac:(apply elem_of_cons; auto))) as Hinv1.
  pose proof (updateSurveys_prob P ε g c Heps Hε Hinv Hprob
                (Hen c ltac:(apply elem_of_cons; auto))) as Hprob1.
  pose proof (updateSurveys_clauses P g c) as Hcl.
  destruct (updateSurveys P g c) as [mx g1]. cbn [snd] in *.
  apply IH; auto.
  intros c' Hin. rewrite Hcl. apply Hen, elem_of_cons. auto.
Qed.



Local Close Scope Q_scope.

(** *** A contradiction is reported only for a violated clause *)

Lemma lit_simplifies g g' e :
  simplifies g g' →
  (litTrue g e → litTrue g' e) ∧ (litFalse g e → litFalse g' e).
Proof.
  intros ((_ & _ & _ & _ & _ & Hel) & _ & Hval & _).
  destruct (Hel e) as (Hty & Hvar & _).
  unfold litTrue, litFalse. rewrite Hty, Hvar.
  split; intros [Ha Hv]; destruct (Hval _ Ha) as [Ha' Hv'];
    (split; [exact Ha'|congruence]).
Qed.

Lemma edgesJustified_simplifies g g' :
  simplifies g g' → edgesJustified g → edgesJustified g'.
Proof.
  intros Hs HF e He Hdis.
  pose proof Hs as ((_ & _ & Hlen & _ & _ & Hel) & Hcl & _ & Hedge).
  destruct (Hel e) as (Hty & Hvar & Hc). rewrite Hlen in He. rewrite Hc.
  destruct (Edge.enabled (getEdge g e)) eqn:Hen.
  - destruct (Hedge e Hen Hdis) as [Hcd | [Ha Hv]]; [now left|right].
    unfold litFalse. rewrite Hty, Hvar. auto.
  - destruct (HF e He Hen) as [Hcd | Hlit]; [left; now apply Hcl|right].
    now apply (lit_simplifies g g' e Hs).
Qed.

(** The edges after [Clause::Dissable]. *)
Lemma getEdge_ClauseDissable_exact P c g e :
  getEdge (ClauseDissable P c g) e
  = if clauseDissableClearsEdges P
    then if decide (e ∈ Clause.allNeighbourEdges (getClause g c))
         then Edge.Dissable (getEdge g e) else getEdge g e
    else getEdge g e.
Proof.
  unfold ClauseDissable. destruct (clauseDissableClearsEdges P);
    [|reflexivity].
  now rewrite cascade_getEdge.
Qed.

Lemma clausesJustified_AssignValue g v b :
  Var.assigned (getVar g v) && negb (Bool.eqb (Var.value (getVar g v)) b)
  = false →
  clausesJustified g → clausesJustified (updVar (Var.AssignValue b) v g).
Proof.
  intros Hcheck HD c Hc Hdis.
  destruct (HD c Hc Hdis) as [Hall | (e & Hin & Hen & Hlit)]; [now left|].
  right. exists e. split; [exact Hin|]. split; [exact Hen|].
  now apply (lit_simplifies g _ e (simplifies_AssignValue g v b Hcheck)).
Qed.

Lemma clausesJustified_Dissable g e0 :
  litFalse g e0 →
  clausesJustified g → clausesJustified (updEdge Edge.Dissable e0 g).
Proof.
  intros [Ha0 Hv0] HD c Hc Hdis.
  change (getClause (updEdge Edge.Dissable e0 g) c) with (getClause g c)
    in *.
  destruct (HD c Hc Hdis) as [Hall | (e & Hin & Hen & Ha & Hv)].
  - left. intros e Hin. rewrite getEdge_Dissable.
    destruct (decide _); [reflexivity|now apply Hall].
  - right. exists e. split; [exact Hin|].
    assert (Hne : e0 ≠ e) by (intros ->; contradiction).
    unfold litTrue. rewrite getEdge_Dissable.
    destruct (decide _); [contradiction|]. auto.
Qed.

Lemma clausesJustified_ClauseDissable P g e0 :
  wellFormed g → Edge.enabled (getEdge g e0) = true → litTrue g e0 →
  clausesJustified g →
  clausesJustified (ClauseDissable P (Edge.clause (getEdge g e0)) g).
Proof.
  intros Hwf Hen0 Hlit0 HD c Hc Hdis.
  pose proof Hwf as (_ & W2 & _ & W4).
  set (c0 := Edge.clause (getEdge g e0)) in *.
  pose proof (simplifies_ClauseDissable P g c0 Hwf)
    as ((_ & Hlen & _) & _).
  rewrite Hlen in Hc.
  rewrite getClause_ClauseDissable in *.
  assert (Hlits : ∀ e, litTrue g e → litTrue (ClauseDissable P c0 g) e).
  { intros e. apply lit_simplifies, simplifies_ClauseDissable, Hwf. }
  destruct (decide (c0 = c)) as [<-|Hne].
  - cbn [Clause.allNeighbourEdges Clause.set_enabled].
    destruct (clauseDissableClearsEdges P) eqn:Hcascade.
    + left. intros e Hin. rewrite getEdge_ClauseDissable_exact, Hcascade.
      destruct (decide _); [reflexivity|contradiction].
    + right. exists e0.
      split; [apply W4; now apply enabled_valid|].
      split; [|now apply Hlits].
      now rewrite getEdge_ClauseDissable_exact, Hcascade.
  - destruct (HD c Hc Hdis) as [Hall | (e & Hin & Hen & Hlit)].
    + left. intros e Hin. rewrite getEdge_ClauseDissable_exact.
      destruct (clauseDissableClearsEdges P); [|now apply Hall].
      destruct (decide _); [reflexivity|now apply Hall].
    + right. exists e. split; [exact Hin|]. split; [|now apply Hlits].
      rewrite getEdge_ClauseDissable_exact.
      destruct (clauseDissableClearsEdges P); [|exact Hen].
      destruct (decide _) as [Hin0|]; [|exact Hen].
      destruct (W2 c e Hin) as [_ Hce], (W2 c0 e Hin0) as [_ Hc0e].
      congruence.
Qed.

Lemma consistent_ClauseDissable P g var e0 :
  wellFormed g → consistent g →
  e0 ∈ Var.allNeighbourEdges (getVar g var) →
  Var.assigned (getVar g var) = true →
  Edge.enabled (getEdge g e0) = true →
  Edge.type (getEdge g e0) = Var.value (getVar g var) →
  consistent (ClauseDissable P (Edge.clause (getEdge g e0)) g).
Proof.
  intros Hwf [HF HD] Hin Ha Hen Hty. pose proof Hwf as (W1 & _).
  destruct (W1 var e0 Hin) as [_ Hvar]. split.
  - exact (edgesJustified_simplifies _ _
             (simplifies_ClauseDissable P g _ Hwf) HF).
  - apply clausesJustified_ClauseDissable; auto.
    unfold litTrue. rewrite Hvar. auto.
Qed.

Lemma consistent_Dissable g var e0 :
  wellFormed g → consistent g →
  e0 ∈ Var.allNeighbourEdges (getVar g var) →
  Var.assigned (getVar g var) = true →
  Bool.eqb (Edge.type (getEdge g e0)) (Var.value (getVar g var)) = false →
  consistent (updEdge Edge.Dissable e0 g).
Proof.
  intros Hwf [HF HD] Hin Ha Hty. pose proof Hwf as (W1 & _).
  destruct (W1 var e0 Hin) as [_ Hvar]. split.
  - exact (edgesJustified_simplifies _ _
             (simplifies_Dissable g var e0 Hwf Hin Ha Hty) HF).
  - apply clausesJustified_Dissable; auto.
    unfold litFalse. rewrite Hvar. split; [exact Ha|].
    intros Heq. rewrite Heq, eqb_reflx in Hty. discriminate.
Qed.

(** Unit propagation on the clause of an edge that has just been
    disabled. *)
Lemma unitPropagation_C (assign : Assign) w1 c r w' :
  sound assign → soundC assign →
  wellFormed (fg w1) → consistent (fg w1) →
  c < length (clauses (fg w1)) →
  (Clause.enabled (getClause (fg w1) c) = false →
   ∃ e, e ∈ Clause.allNeighbourEdges (getClause (fg w1) c)
        ∧ Edge.enabled (getEdge (fg w1) e) = true ∧ litTrue (fg w1) e) →
  unitPropagation_ assign w1 c = Some (r, w') →
  consistent (fg w') ∧ (r = false → violated (fg w')).
Proof.
  intros Hsound HC Hwf Hcons Hc Hlive. pose proof Hcons as [HF _].
  pose proof Hwf as (_ & W2 & _).
  (* when every enabled edge of the clause is a false literal *)
  assert (Hviol : (∀ e, e ∈ GetEnabledEdges (fg w1) c → litFalse (fg w1) e) →
                  violated (fg w1)).
  { intros Hfalse.
    assert (Hen : Clause.enabled (getClause (fg w1) c) = true).
    { destruct (Clause.enabled (getClause (fg w1) c)) eqn:Hen;
        [reflexivity|].
      destruct (Hlive eq_refl) as (e & Hin & Hee & Ha & Hv).
      destruct (Hfalse e) as [_ Hv'];
        [now apply elem_of_GetEnabledEdges|contradiction]. }
    exists c. split; [exact Hc|]. split; [exact Hen|].
    intros e Hin.
    destruct (Edge.enabled (getEdge (fg w1) e)) eqn:Hee.
    - apply Hfalse. now apply elem_of_GetEnabledEdges.
    - destruct (W2 c e Hin) as [Hlt Hce].
      destruct (HF e Hlt Hee) as [Hcd | Hlit]; [|exact Hlit].
      rewrite Hce in Hcd. congruence. }
  unfold unitPropagation_.
  destruct (GetEnabledEdges (fg w1) c) as [|e1 [|e2 l]] eqn:Hlist.
  - intros [= <- <-]. split; [exact Hcons|]. intros _. apply Hviol.
    intros e Hin. now apply elem_of_nil in Hin.
  - intros Hrun. destruct (HC _ _ _ _ _ Hwf Hcons Hrun) as [Hcons' Hconf].
    split; [exact Hcons'|]. intros ->.
    destruct (Hconf eq_refl) as [(Ha & Hv & Hfg) | Hv]; [|exact Hv].
    rewrite Hfg. apply Hviol. intros e Hin.
    apply elem_of_cons in Hin as [->|Hin]; [|now apply elem_of_nil in Hin].
    split; [exact Ha|exact Hv].
  - intros [= <- <-]. split; [exact Hcons|discriminate].
Qed.

Lemma cleanGraph_C (P : Params) (assign : Assign) :
  sound assign → soundC assign →
  ∀ es w var r w',
    wellFormed (fg w) → consistent (fg w) →
    (∀ e, e ∈ es → e ∈ Var.allNeighbourEdges (getVar (fg w) var)) →
    Var.assigned (getVar (fg w) var) = true →
    cleanGraph_ P assign es w var = Some (r, w') →
    consistent (fg w') ∧ (r = false → violated (fg w')).
Proof.
  intros Hsound HC. induction es as [|e0 es IH];
    intros w var r w' Hwf Hcons Hsub Ha.
  - intros [= <- <-]. split; [exact Hcons|discriminate].
  - assert (Hin0 : e0 ∈ Var.allNeighbourEdges (getVar (fg w) var))
      by (apply Hsub, elem_of_cons; auto).
    (* the rest of the loop, started in a state [w1] reached from [w] *)
    assert (Htail : ∀ w1 r w',
              simplifies (fg w) (fg w1) → consistent (fg w1) →
              cleanGraph_ P assign es w1 var = Some (r, w') →
              consistent (fg w') ∧ (r = false → violated (fg w'))).
    { intros w1 r1 w1' Hs1 Hcons1 Hrun.
      pose proof Hs1 as ((_ & _ & _ & Hvl & _) & _ & Hc & _).
      apply (IH w1 var r1 w1'); auto.
      - exact (wellFormed_sameShape _ _ Hwf (proj1 Hs1)).
      - intros e Hin. rewrite Hvl. apply Hsub, elem_of_cons. auto.
      - now apply Hc. }
    cbn [cleanGraph_]. destruct (Edge.enabled (getEdge (fg w) e0)) eqn:Hen.
    + destruct (Bool.eqb _ _) eqn:Hty.
      * apply eqb_prop in Hty.
        apply (Htail (onGraph (ClauseDissable P (Edge.clause
                                                  (getEdge (fg w) e0))) w)).
        -- apply simplifies_ClauseDissable, Hwf.
        -- now apply (consistent_ClauseDissable P (fg w) var).
      * pose proof (simplifies_Dissable (fg w) var e0 Hwf Hin0 Ha Hty) as Hs1.
        pose proof (consistent_Dissable (fg w) var e0 Hwf Hcons Hin0 Ha Hty)
          as Hcons1.
        pose proof (wellFormed_sameShape _ _ Hwf (proj1 Hs1)) as Hwf1.
        pose proof Hwf as (W1 & _ & _ & W4).
        destruct (W4 e0 (enabled_valid _ _ Hen)) as [_ Hinc].
        set (c := Edge.clause (getEdge (fg w) e0)) in *.
        assert (Hc : c < length (clauses (fg w))).
        { destruct (decide (c < length (clauses (fg w)))) as [|Hge];
            [assumption|].
          unfold getClause in Hinc.
          rewrite (proj2 (lookup_ge_None _ _)) in Hinc by lia.
          now apply elem_of_nil in Hinc. }
        assert (Hlive : Clause.enabled (getClause (fg w) c) = false →
                  ∃ e, e ∈ Clause.allNeighbourEdges (getClause (fg w) c)
                       ∧ Edge.enabled
                           (getEdge (updEdge Edge.Dissable e0 (fg w)) e) = true
                       ∧ litTrue (updEdge Edge.Dissable e0 (fg w)) e).
        { intros Hdis. destruct Hcons as [_ HD].
          destruct (HD c Hc Hdis) as [Hall | (e & Hin & Hee & Hlit)].
          - rewrite (Hall e0 Hinc) in Hen. discriminate.
          - exists e. split; [exact Hin|].
            assert (Hne : e0 ≠ e).
            { intros <-. destruct Hlit as [_ Hv].
              destruct (W1 var e0 Hin0) as [_ Hvar].
              rewrite Hvar in Hv. rewrite Hv, eqb_reflx in Hty.
              discriminate. }
            unfold litTrue. rewrite getEdge_Dissable.
            destruct (decide _); [contradiction|]. auto. }
        destruct (unitPropagation_ assign (onGraph (updEdge Edge.Dissable e0) w)
                    c) as [[r2 w2]|] eqn:Hup; [|discriminate].
        destruct (unitPropagation_sound assign
                    (onGraph (updEdge Edge.Dissable e0) w) _ _ _ Hsound
                    Hwf1 Hup) as (Hs2 & _).
        destruct (unitPropagation_C assign
                    (onGraph (updEdge Edge.Dissable e0) w) c r2 w2
                    Hsound HC Hwf1 Hcons1 Hc Hlive Hup) as [Hcons2 Hviol2].
        destruct r2.
        -- apply (Htail w2); [exact (simplifies_trans _ _ _ Hs1 Hs2)|].
           exact Hcons2.
        -- intros [= <- <-]. split; [exact Hcons2|]. intros _.
           now apply Hviol2.
    + apply (Htail w); [apply simplifies_refl|exact Hcons].
Qed.

Lemma assignVariable_C (P : Params) (fuel : nat) :
  soundC (assignVariable P fuel).
Proof.
  induction fuel as [|fuel IH]; intros w v b r w' Hwf Hcons; [discriminate|].
  cbn [assignVariable]. destruct (_ && _) eqn:Hcheck.
  - intros [= <- <-]. split; [exact Hcons|]. intros _. left.
    apply andb_prop in Hcheck as [Ha Hv]. split; [exact Ha|].
    split; [|reflexivity].
    intros Heq. rewrite Heq, eqb_reflx in Hv. discriminate.
  - intros Hrun.
    pose proof (simplifies_AssignValue (fg w) v b Hcheck) as Hs0.
    destruct (cleanGraph_C P _ (assignVariable_sound P fuel) IH
                (Var.allNeighbourEdges (getVar (fg w) v))
                (onGraph (updVar (Var.AssignValue b) v) w) v r w')
      as [Hcons' Hviol]; auto.
    + exact (wellFormed_sameShape _ _ Hwf (proj1 Hs0)).
    + destruct Hcons as [HF HD]. split.
      * exact (edgesJustified_simplifies _ _ Hs0 HF).
      * now apply clausesJustified_AssignValue.
    + intros e He. pose proof Hs0 as ((_ & _ & _ & Hvl & _) & _).
      cbn [fg onGraph]. now rewrite Hvl.
    + cbn [fg onGraph]. rewrite getVar_updVar.
      destruct (decide _) as [|Hno]; [reflexivity|].
      unfold getVar. rewrite (proj2 (lookup_ge_None _ _)); [reflexivity|].
      destruct (decide (v < length (variables (fg w)))); [|lia].
      destruct Hno. auto.
    + split; [exact Hcons'|]. intros Hr. right. now apply Hviol.
Qed.

(** X23: A contradiction is reported only for a reason.  On a well-formed
    graph in which every disabled edge and every disabled clause is
    accounted for, as in a graph with everything enabled, a call of
    [assignVariable] that returns [false] found its own variable assigned
    to the opposite value and left the graph as it was, or it ends with an
    enabled clause all of whose literals are false under the recorded
    assignment.  The graph stays accounted for, whatever the call
    returns. *)
Theorem assignVariable_contradiction_is_real (P : Params) (fuel : nat)
    (w : World) (v : nat) (b r : bool) (w' : World) :
  wellFormed (fg w) → consistent (fg w) →
  assignVariable P fuel w v b = Some (r, w') →
  consistent (fg w') ∧ (r = false → conflict w v b w').
Proof. apply assignVariable_C. Qed.

Lemma chain_consistent : wellFormed chain ∧ consistent chain.
Proof.
  split; [apply wellFormedb_sound; vm_compute; reflexivity|]. split.
  - intros e He Hdis. cbn in He.
    destruct e as [|[|[|[|[|[|e]]]]]]; try discriminate. lia.
  - intros c Hc Hdis. cbn in Hc.
    destruct c as [|[|[|c]]]; try discriminate. lia.
Qed.

Lemma assignVariable_contradiction_is_real_witness :
  ∃ w', assignVariable (defaults false) 7 (mkWorld chain []) 0 true
        = Some (false, w')
        ∧ violated (fg w').
Proof.
  destruct (assignVariable (defaults false) 7 (mkWorld chain []) 0 true)
    as [[r w']|] eqn:Hrun; [|vm_compute in Hrun; discriminate].
  assert (Hr : r = false).
  { pose proof Hrun as Hc. vm_compute in Hc. now injection Hc as <- _. }
  subst r. exists w'. split; [reflexivity|].
  destruct chain_consistent as [Hwf Hcons].
  destruct (proj2 (assignVariable_contradiction_is_real (defaults false) 7
                     (mkWorld chain []) 0 true false w' Hwf Hcons Hrun)
                  eq_refl) as [(Ha & _) | Hv]; [|exact Hv].
  vm_compute in Ha. discriminate.
Defined.

Local Close Scope Q_scope.

(** *** What the convergence threshold bounds *)

Lemma writeBack_fold_max (P : Params) (acc : SubSurveys) (es : list nat) :
  ∀ st, is_nan (wb_max st) = false → nonneg (wb_max st) →
    is_nan (wb_max (fold_left (writeBackStep P acc) es st)) = false
    ∧ nonneg (wb_max (fold_left (writeBackStep P acc) es st)).
Proof.
  induction es as [|e es IH]; intros st Hnan Hnn; [auto|].
  cbn [fold_left]. apply IH; unfold writeBackStep;
    destruct (Edge.enabled (getEdge (wb_graph st) e)); auto; cbn [wb_max];
    now destruct (max_step
                    (Dbl.abs (Edge.survey (getEdge (wb_graph st) e)
                              - newSurveyOf P acc (wb_i st))%D)
                    (wb_max st) Hnan Hnn (abs_nonneg _)) as (? & ? & _).
Qed.

Lemma sweep_max (P : Params) (cs : list nat) :
  ∀ g d, is_nan d = false → nonneg d →
    is_nan (snd (sweep P cs g d)) = false
    ∧ nonneg (snd (sweep P cs g d))
    ∧ (d <=? snd (sweep P cs g d))%D = true.
Proof.
  unfold sweep. induction cs as [|c cs IH]; intros g d Hnan Hnn.
  - cbn. auto using leb_refl.
  - cbn [fold_left]. unfold sweepStep at 2 4 6. cbn [fst snd].
    destruct (writeBack_fold_max P (collectSubSurveys P g c)
                (Clause.allNeighbourEdges (getClause g c))
                (mkWriteBack g 0 zero) eq_refl) as [Hmn Hmp].
    { cbn. discriminate. }
    change (wb_max _) with (fst (updateSurveys P g c)) in Hmn, Hmp.
    destruct (updateSurveys P g c) as [mx g1]. cbn [fst] in Hmn, Hmp.
    destruct (max_step mx d Hnan Hnn Hmp) as (Hn1 & Hp1 & Hle1 & _).
    destruct (IH g1 _ Hn1 Hp1) as (Hn2 & Hp2 & Hle2).
    split; [exact Hn2|]. split; [exact Hp2|].
    exact (leb_trans _ _ _ Hle1 Hle2).
Qed.

Lemma sweep_app (P : Params) (cs1 cs2 : list nat) g d :
  sweep P (cs1 ++ cs2) g d
  = sweep P cs2 (fst (sweep P cs1 g d)) (snd (sweep P cs1 g d)).
Proof.
  unfold sweep. rewrite fold_left_app. now destruct (fold_left _ cs1 _).
Qed.

(** The largest change of a sweep bounds every single update of the
    sweep. *)
Lemma sweep_bounds_updates (P : Params) (cs1 cs2 : list nat) (c : nat)
    (g : FactorGraph) :
  let gc := fst (sweep P cs1 g zero) in
  (fst (updateSurveys P gc c)
   <=? snd (sweep P (cs1 ++ c :: cs2) g zero))%D = true.
Proof.
  intros gc. rewrite sweep_app.
  destruct (sweep_max P cs1 g zero eq_refl) as (Hn1 & Hp1 & _);
    [cbn; discriminate|].
  fold gc. set (d1 := snd (sweep P cs1 g zero)) in *.
  unfold sweep at 1. cbn [fold_left]. unfold sweepStep at 2. cbn [fst snd].
  destruct (writeBack_fold_max P (collectSubSurveys P gc c)
              (Clause.allNeighbourEdges (getClause gc c))
              (mkWriteBack gc 0 zero) eq_refl) as [Hmn Hmp].
  { cbn. discriminate. }
  change (wb_max _) with (fst (updateSurveys P gc c)) in Hmn, Hmp.
  destruct (updateSurveys P gc c) as [mx g1]. cbn [fst] in *.
  destruct (max_step mx d1 Hn1 Hp1 Hmp) as (Hn2 & Hp2 & _ & _ & Hb).
  destruct Hb as [Hb|Hb]; [congruence|].
  destruct (sweep_max P cs2 g1 _ Hn2 Hp2) as (_ & _ & Hle).
  exact (leb_trans _ _ _ Hb Hle).
Qed.

(** X24: What convergence means.  When [surveyPropagation] returns [CONVERGE]
    or [WALKSAT], every update of the sweep that made it return changed
    the survey it wrote by at most [spEpsilon], unless the change is not a
    number: a survey that became [NaN] does not stand in the way of
    convergence. *)
Theorem surveyPropagation_threshold_bounds_changes {G} `{RandomGenerator G}
    (P : Params) (g : FactorGraph) (rng : G) (cs1 cs2 : list nat)
    (c e : nat) :
  let g0 := computeSubProducts P g in
  let gc := fst (sweep P cs1 g0 zero) in
  fst (fst (surveyPropagation P g rng)) ≠ UNCONVERGE →
  fst (rng_shuffle (GetEnabledClauses g0) rng) = cs1 ++ c :: cs2 →
  NoDup (Clause.allNeighbourEdges (getClause gc c)) →
  e ∈ GetEnabledEdges gc c →
  is_nan (surveyChange gc (snd (updateSurveys P gc c)) e) = true
  ∨ (surveyChange gc (snd (updateSurveys P gc c)) e <=? spEpsilon P)%D = true.
Proof.
  intros g0 gc Hres Hcs Hnd He.
  apply surveyPropagation_first_sweep_or_never in Hres.
  unfold thresholdMet in Hres. cbn [afterSweeps] in Hres. fold g0 in Hres.
  destruct (rng_shuffle (GetEnabledClauses g0) rng) as [cs rng1].
  cbn [fst] in Hcs. subst cs.
  pose proof (sweep_bounds_updates P cs1 cs2 c g0) as Hb. fold gc in Hb.
  destruct (sweep P (cs1 ++ c :: cs2) g0 zero) as [g1 d1].
  cbn [fst snd] in *.
  destruct (updateSurveys_change_bound P gc c Hnd e He)
    as [Hnan|Hle]; [now left|right].
  exact (leb_trans _ _ _ (leb_trans _ _ _ Hle Hb) Hres).
Qed.

Lemma surveyPropagation_threshold_bounds_changes_witness :
  let P := defaults false in
  let gc := computeSubProducts P (binaryClause (Fin (1 # 200)) (Fin (1 # 200))) in
  (surveyChange gc (snd (updateSurveys P gc 0)) 0 <=? spEpsilon P)%D = true.
Proof.
  intros P gc.
  destruct (surveyPropagation_threshold_bounds_changes P
              (binaryClause (Fin (1 # 200)) (Fin (1 # 200))) ([] : list dbl)
              [] [] 0 0) as [Hnan|Hle].
  - vm_compute. discriminate.
  - reflexivity.
  - apply (bool_decide_unpack _). vm_compute. exact I.
  - apply elem_of_GetEnabledEdges. split; [|reflexivity].
    apply elem_of_cons. now left.
  - vm_compute in Hnan. discriminate.
  - exact Hle.
Defined.

Local Open Scope Q_scope.

(** *** Biases in the states that survey propagation leaves *)


